(** * Grid path-finding engine, reference oracle and proof harness

    A shallow embedding of [pathfinding/astar/assist.py]: the [Node]
    class, [get_neighbors], [get_path], the uniform-cost oracle
    [find_optimal_cost], the validator [is_valid_path], the two engines
    [astar_correct] and [astar_buggy], and the harness [AStarProof].

    Python values are modelled as follows.
    - ints are [Z]; a number that may be [float('inf')] is a [num];
    - a grid is a list of rows, indexed as Python indexes lists
      (negative indices wrap, anything else out of range raises);
    - [heapq] is the array-based binary heap of the standard library,
      operating on a list;
    - the [visited] dict is a [gmap], the [closed_set] a [gset];
    - [while] loops carry fuel; a run that exhausts it yields [None].

    Grids of ints come first; module [F] repeats the engine and the
    oracle for grids of floats, and module [Store] the engine with its
    nodes as mutable objects in a store. *)

From Stdlib Require Import ZArith Lia.
From Stdlib Require PrimFloat.
From stdpp Require Import base tactics option list gmap strings pretty.

Local Open Scope Z_scope.
#[local] Set Warnings "-clear-no-such-hyp,-register-all".

(** ** Numbers, exceptions, loops *)

(** An int or [float('inf')]. *)
Inductive num : Type :=
  | Fin (z : Z)
  | Inf.

Global Instance num_eq_dec : EqDecision num.
Proof. solve_decision. Defined.

(** Python's [<], [+] and [==] on such numbers. *)
Definition num_lt (a b : num) : bool :=
  match a, b with
  | Fin x, Fin y => x <? y
  | Fin _, Inf => true
  | Inf, _ => false
  end.

Definition num_add (a b : num) : num :=
  match a, b with
  | Fin x, Fin y => Fin (x + y)
  | _, _ => Inf
  end.

Definition num_eqb (a b : num) : bool := bool_decide (a = b).

(** The result of a call: a value, or an [IndexError] escaping it. *)
Inductive outcome (R : Type) : Type :=
  | Ret (r : R)
  | IndexError.
Global Arguments Ret {R} r.
Global Arguments IndexError {R}.

Definition obind {A B} (m : outcome A) (k : A → outcome B) : outcome B :=
  match m with
  | Ret a => k a
  | IndexError => IndexError
  end.

Notation "x ←! m ; k" := (obind m (λ x, k))
  (at level 20, m at level 100, k at level 200, only parsing, right associativity).

(** One pass through the body of a [while] loop. *)
Inductive flow (St R : Type) : Type :=
  | Next (s : St)
  | Done (r : R)
  | Throw.
Global Arguments Next {St R} s.
Global Arguments Done {St R} r.
Global Arguments Throw {St R}.

Section while_loop.
Context {St R : Type} (body : St → flow St R).

Fixpoint while (fuel : nat) (s : St) : option (outcome R) :=
  match fuel with
  | O => None
  | S k =>
      match body s with
      | Next s' => while k s'
      | Done r => Some (Ret r)
      | Throw => Some IndexError
      end
  end.
End while_loop.

(** [l[i]] for a Python list and an int index. *)
Definition py_index {A} (l : list A) (i : Z) : outcome A :=
  let n := Z.of_nat (length l) in
  let j := if 0 <=? i then i else n + i in
  if (0 <=? j) && (j <? n) then
    match l !! Z.to_nat j with
    | Some a => Ret a
    | None => IndexError
    end
  else IndexError.

(** ** The grid *)

Definition coord : Type := Z * Z.
Definition Grid : Type := list (list Z).

(** [grid[x][y]] *)
Definition cell (grid : Grid) (c : coord) : outcome Z :=
  row ←! py_index grid c.1; py_index row c.2.

(** [len(grid)] and [len(grid[0])] *)
Definition rows (grid : Grid) : Z := Z.of_nat (length grid).
Definition cols (grid : Grid) : outcome Z :=
  row ←! py_index grid 0; Ret (Z.of_nat (length row)).

Definition possible_moves : list coord := [(0, 1); (0, -1); (1, 0); (-1, 0)].

(** ** [heapq] *)

Section heapq.
Context {A : Type} (lt : A → A → bool).

(** The loop of [_siftdown]: [newitem] climbs from [pos] towards
    [startpos] while it is smaller than the parent, the parents moving
    down into the hole. *)
Fixpoint siftdown_loop (fuel : nat) (heap : list A) (newitem : A)
    (startpos pos : nat) : list A :=
  match fuel with
  | O => <[pos := newitem]> heap
  | S k =>
      if decide (startpos < pos)%nat then
        let parentpos := ((pos - 1) / 2)%nat in
        match heap !! parentpos with
        | Some parent =>
            if lt newitem parent
            then siftdown_loop k (<[pos := parent]> heap) newitem startpos parentpos
            else <[pos := newitem]> heap
        | None => <[pos := newitem]> heap
        end
      else <[pos := newitem]> heap
  end.

Definition siftdown (heap : list A) (startpos pos : nat) : list A :=
  match heap !! pos with
  | Some newitem => siftdown_loop pos heap newitem startpos pos
  | None => heap
  end.

(** The loop of [_siftup]: the smaller child moves up into the hole
    until the hole is a leaf. *)
Fixpoint siftup_loop (fuel : nat) (heap : list A) (endpos pos : nat)
    : list A * nat :=
  match fuel with
  | O => (heap, pos)
  | S k =>
      let childpos := (2 * pos + 1)%nat in
      if decide (childpos < endpos)%nat then
        let rightpos := (childpos + 1)%nat in
        let childpos' :=
          if decide (rightpos < endpos)%nat then
            match heap !! childpos, heap !! rightpos with
            | Some l, Some r => if lt l r then childpos else rightpos
            | _, _ => childpos
            end
          else childpos in
        match heap !! childpos' with
        | Some c => siftup_loop k (<[pos := c]> heap) endpos childpos'
        | None => (heap, pos)
        end
      else (heap, pos)
  end.

Definition siftup (heap : list A) (pos : nat) : list A :=
  let endpos := length heap in
  match heap !! pos with
  | Some newitem =>
      let '(heap', pos') := siftup_loop endpos heap endpos pos in
      siftdown (<[pos' := newitem]> heap') pos pos'
  | None => heap
  end.

Definition heappush (heap : list A) (item : A) : list A :=
  siftdown (heap ++ [item]) 0 (length heap).

(** [heappop] of a non-empty heap; [None] stands for the
    [IndexError] of popping from an empty list, which no caller
    triggers since each guards the call with [while heap:]. *)
Definition heappop (heap : list A) : option (A * list A) :=
  match last heap with
  | None => None
  | Some lastelt =>
      match removelast heap with
      | [] => Some (lastelt, [])
      | returnitem :: rest =>
          Some (returnitem, siftup (lastelt :: rest) 0)
      end
  end.
End heapq.

(** ** Nodes *)

Module Node.
#[local] Unset Elimination Schemes.
Inductive t : Type := mk {
  x : Z;
  y : Z;
  cost : Z;
  g : num;
  h : Z;
  f : num;
  parent : option t
}.

(** [Node(x, y, cost)] *)
Definition new (x y cost : Z) : t :=
  {| x := x; y := y; cost := cost; g := Inf; h := 0; f := Inf; parent := None |}.

(** [__lt__] *)
Definition lt (self other : t) : bool := num_lt (f self) (f other).

Definition xy (n : t) : coord := (x n, y n).
End Node.

Abbreviation Node := Node.t.

Fixpoint get_neighbors_loop (grid : Grid) (rows cols x y : Z)
    (moves : list coord) (neighbors : list Node) : outcome (list Node) :=
  match moves with
  | [] => Ret neighbors
  | (dx, dy) :: moves' =>
      let nx := x + dx in
      let ny := y + dy in
      if (0 <=? nx) && (nx <? rows) && (0 <=? ny) && (ny <? cols) then
        v ←! cell grid (nx, ny);
        if bool_decide (v ≠ -1)
        then get_neighbors_loop grid rows cols x y moves'
               (neighbors ++ [Node.new nx ny v])
        else get_neighbors_loop grid rows cols x y moves' neighbors
      else get_neighbors_loop grid rows cols x y moves' neighbors
  end.

Definition get_neighbors (grid : Grid) (node : Node) : outcome (list Node) :=
  cs ←! cols grid;
  get_neighbors_loop grid (rows grid) cs (Node.x node) (Node.y node)
    possible_moves [].

(** The [while current:] loop of [get_path] appends coordinates from the
    node back to the root of its parent chain. *)
Fixpoint get_path_loop (current : Node) : list coord :=
  Node.xy current ::
  match Node.parent current with
  | Some p => get_path_loop p
  | None => []
  end.

Definition get_path (node : Node) : list coord := reverse (get_path_loop node).

(** ** The reference oracle *)

(** Python's [<] on the tuples [(cost, (x, y))] held by the queue. *)
Definition entry : Type := Z * coord.

Definition entry_lt (a b : entry) : bool :=
  if bool_decide (a.1 = b.1) then
    if bool_decide (a.2.1 = b.2.1) then a.2.2 <? b.2.2
    else a.2.1 <? b.2.1
  else a.1 <? b.1.

Definition oracle_state : Type := list entry * gmap coord Z.

(** [visited.get(c, float('inf'))] *)
Definition visited_get (visited : gmap coord Z) (c : coord) : num :=
  match visited !! c with
  | Some v => Fin v
  | None => Inf
  end.

Fixpoint oracle_moves (grid : Grid) (cost x y : Z) (moves : list coord)
    (st : oracle_state) : outcome oracle_state :=
  match moves with
  | [] => Ret st
  | (dx, dy) :: moves' =>
      let nx := x + dx in
      let ny := y + dy in
      if (0 <=? nx) && (nx <? rows grid) then
        cs ←! cols grid;
        if (0 <=? ny) && (ny <? cs) then
          v ←! cell grid (nx, ny);
          if bool_decide (v ≠ -1) then
            let new_cost := cost + v in
            if num_lt (Fin new_cost) (visited_get st.2 (nx, ny)) then
              oracle_moves grid cost x y moves'
                (heappush entry_lt st.1 (new_cost, (nx, ny)),
                 <[(nx, ny) := new_cost]> st.2)
            else oracle_moves grid cost x y moves' st
          else oracle_moves grid cost x y moves' st
        else oracle_moves grid cost x y moves' st
      else oracle_moves grid cost x y moves' st
  end.

Definition oracle_body (grid : Grid) (end_ : coord) (st : oracle_state)
    : flow oracle_state num :=
  match heappop entry_lt st.1 with
  | None => Done Inf
  | Some ((cost, (x, y)), queue) =>
      if bool_decide ((x, y) = end_) then Done (Fin cost)
      else
        match oracle_moves grid cost x y possible_moves (queue, st.2) with
        | Ret st' => Next st'
        | IndexError => Throw
        end
  end.

Definition find_optimal_cost (fuel : nat) (grid : Grid) (start end_ : coord)
    : option (outcome num) :=
  while (oracle_body grid end_) fuel ([(0, start)], {[start := 0]}).

(** ** The path validator *)

Fixpoint is_valid_path_loop (grid : Grid) (path : list coord) : outcome bool :=
  match path with
  | (x1, y1) :: (((x2, y2) :: _) as rest) =>
      if 1 <? Z.abs (x1 - x2) + Z.abs (y1 - y2) then Ret false
      else
        v ←! cell grid (x2, y2);
        if bool_decide (v = -1) then Ret false
        else is_valid_path_loop grid rest
  | _ => Ret true
  end.

Definition is_valid_path (grid : Grid) (path : list coord) : outcome bool :=
  match path with
  | [] => Ret false
  | _ => is_valid_path_loop grid path
  end.

(** ** The engines *)

Definition result : Type := option (list coord) * num.
Definition astar_state : Type := list Node * gset coord.

Definition heuristic (end_node_coords : coord) (node : Node) : Z :=
  Z.abs (Node.x node - end_node_coords.1) + Z.abs (Node.y node - end_node_coords.2).

Definition start_node (grid : Grid) (start_coords : coord) : outcome Node :=
  c ←! cell grid start_coords;
  Ret {| Node.x := start_coords.1; Node.y := start_coords.2; Node.cost := c;
         Node.g := Fin 0; Node.h := 0; Node.f := Fin 0; Node.parent := None |}.

(** The body of [for neighbor in get_neighbors(...)] in [astar_correct]. *)
Definition relax_correct (end_node_coords : coord) (current_node : Node)
    (closed_set : gset coord) (open_set : list Node) (neighbor : Node)
    : list Node :=
  if decide (Node.xy neighbor ∈ closed_set) then open_set
  else
    let new_g := num_add (Node.g current_node) (Fin (Node.cost neighbor)) in
    if num_lt new_g (Node.g neighbor) then
      let h := heuristic end_node_coords neighbor in
      heappush Node.lt open_set
        {| Node.x := Node.x neighbor; Node.y := Node.y neighbor;
           Node.cost := Node.cost neighbor;
           Node.g := new_g; Node.h := h; Node.f := num_add new_g (Fin h);
           Node.parent := Some current_node |}
    else open_set.

(** The same in [astar_buggy]: [g] is never assigned, [f] is [h] alone. *)
Definition relax_buggy (end_node_coords : coord) (current_node : Node)
    (closed_set : gset coord) (open_set : list Node) (neighbor : Node)
    : list Node :=
  if decide (Node.xy neighbor ∈ closed_set) then open_set
  else
    let h := heuristic end_node_coords neighbor in
    heappush Node.lt open_set
      {| Node.x := Node.x neighbor; Node.y := Node.y neighbor;
         Node.cost := Node.cost neighbor;
         Node.g := Node.g neighbor; Node.h := h; Node.f := Fin h;
         Node.parent := Some current_node |}.

Section engine.
Context (relax : coord → Node → gset coord → list Node → Node → list Node).

Definition astar_body (grid : Grid) (end_node_coords : coord)
    (st : astar_state) : flow astar_state result :=
  match heappop Node.lt st.1 with
  | None => Done (None, Inf)
  | Some (current_node, open_set) =>
      if bool_decide (Node.xy current_node = end_node_coords)
      then Done (Some (get_path current_node), Node.g current_node)
      else
        let closed_set := st.2 ∪ {[Node.xy current_node]} in
        match get_neighbors grid current_node with
        | Ret neighbors =>
            Next (foldl (relax end_node_coords current_node closed_set)
                    open_set neighbors, closed_set)
        | IndexError => Throw
        end
  end.

Definition astar (fuel : nat) (grid : Grid) (start_coords end_coords : coord)
    : option (outcome result) :=
  match start_node grid start_coords with
  | Ret s => while (astar_body grid end_coords) fuel ([s], ∅)
  | IndexError => Some IndexError
  end.
End engine.

Definition astar_correct := astar relax_correct.
Definition astar_buggy := astar relax_buggy.

(** ** The generic proving system *)

(** A computation that may run out of fuel, raise, or return. *)
Definition cbind {A B} (m : option (outcome A)) (k : A → option (outcome B))
    : option (outcome B) :=
  match m with
  | Some (Ret a) => k a
  | Some IndexError => Some IndexError
  | None => None
  end.

Definition lift {A} (m : outcome A) : option (outcome A) := Some m.

Notation "x ←? m ; k" := (cbind m (λ x, k))
  (at level 20, m at level 100, k at level 200, only parsing, right associativity).

(** The dict [{"grid": .., "optimal_cost": .., "start": .., "end": ..}]
    handed to every property. *)
Module Input.
Record t : Type := mk {
  grid : Grid;
  optimal_cost : num;
  start : coord;
  end_ : coord
}.
End Input.

Module Property.
Record t : Type := mk {
  name : string;
  check_function : Input.t → result → outcome bool
}.

Definition check (self : t) (input_data : Input.t) (output_data : result)
    : outcome bool :=
  check_function self input_data output_data.
End Property.

(** An algorithm under test, as injected into [Proof]. *)
Definition algorithm : Type := Grid → coord → coord → option (outcome result).

(** Python's [str] of the values that end up in log lines. *)
Definition str_Z (z : Z) : string := pretty z.

Definition str_num (n : num) : string :=
  match n with
  | Fin z => str_Z z
  | Inf => "inf"
  end.

Definition str_coord (c : coord) : string :=
  "(" +:+ str_Z c.1 +:+ ", " +:+ str_Z c.2 +:+ ")".

Definition str_list {A} (show : A → string) (l : list A) : string :=
  "[" +:+ String.concat ", " (show <$> l) +:+ "]".

Definition str_grid (grid : Grid) : string := str_list (str_list str_Z) grid.

(** [Proof.log_step]: the log is the only mutable field of the object. *)
Definition log_step (log : list string) (message status : string) : list string :=
  log ++ ["[" +:+ status +:+ "] " +:+ message].

Definition get_log (log : list string) : string :=
  String.concat (String (Ascii.ascii_of_nat 10) EmptyString) log.

(** ** [AStarProof] *)

Definition is_optimal_prop : Property.t :=
  {| Property.name := "Optimality Property";
     Property.check_function := λ input_data output_data,
       Ret (num_eqb output_data.2 (Input.optimal_cost input_data)) |}.

(** [is_valid_path] answers [False] to a [None] path through its
    [if not path] test. *)
Definition is_valid_prop : Property.t :=
  {| Property.name := "Validity Property";
     Property.check_function := λ input_data output_data,
       match output_data.1 with
       | Some path => is_valid_path (Input.grid input_data) path
       | None => Ret false
       end |}.

Definition AStarProof_properties : list Property.t :=
  [is_optimal_prop; is_valid_prop].

Definition run_base_case (alg : algorithm) (log : list string)
    : option (outcome (bool * list string)) :=
  let log := log_step log "--- Proving Base Case: Start == End ---" "INFO" in
  let grid := [[1; 1]; [1; 1]] in
  out ←? alg grid (0, 0) (0, 0);
  if bool_decide (out.1 ≠ Some [(0, 0)]) || negb (num_eqb out.2 (Fin 0)) then
    lift (Ret (false, log_step log "Base case failed: start == end." "FAIL"))
  else
    lift (Ret (true, log_step log "Base case holds. ✅" "SUCCESS")).

Section inductive_step.
(** The global random generator: [randint a b] draws from its state. *)
Context {Rng : Type} (randint : Z → Z → Rng → Z * Rng).
(** Fuel granted to each call of the oracle. *)
Context (fuel : nat).

(** [[random.randint(1, 10) for _ in range(n)]] *)
Fixpoint random_row (n : nat) (rng : Rng) : list Z * Rng :=
  match n with
  | O => ([], rng)
  | S k =>
      let '(v, rng) := randint 1 10 rng in
      let '(row, rng) := random_row k rng in
      (v :: row, rng)
  end.

Fixpoint random_grid (m n : nat) (rng : Rng) : Grid * Rng :=
  match m with
  | O => ([], rng)
  | S k =>
      let '(row, rng) := random_row n rng in
      let '(grid, rng) := random_grid k n rng in
      (row :: grid, rng)
  end.

(** [for prop in self.properties]: [None] when every property holds,
    otherwise the log with the diagnostics of the first that fails. *)
Fixpoint check_properties (props : list Property.t) (i : Z)
    (test_data : Input.t) (result_data : result) (log : list string)
    : outcome (option (list string)) :=
  match props with
  | [] => Ret None
  | prop :: props' =>
      ok ←! Property.check prop test_data result_data;
      if negb ok then
        let log := log_step log
          ("Test " +:+ str_Z (i + 1) +:+ " failed for " +:+ Property.name prop +:+ ".")
          "FAIL" in
        let log := log_step log
          ("Grid: " +:+ str_grid (Input.grid test_data)) "INFO" in
        let log := log_step log
          ("Start: " +:+ str_coord (Input.start test_data) +:+
           ", End: " +:+ str_coord (Input.end_ test_data)) "INFO" in
        let log := log_step log
          ("Optimal Cost: " +:+ str_num (Input.optimal_cost test_data) +:+
           ", A* Cost: " +:+ str_num result_data.2) "INFO" in
        Ret (Some log)
      else check_properties props' i test_data result_data log
  end.

(** The trials [i, i+1, ..] of [for i in range(num_tests)], [n] of them. *)
Fixpoint trials (alg : algorithm) (props : list Property.t)
    (num_tests : nat) (n : nat) (i : Z) (rng : Rng) (log : list string)
    : option (outcome (bool * list string * Rng)) :=
  match n with
  | O =>
      lift (Ret (true,
        log_step log
          ("All " +:+ pretty num_tests +:+
           " property checks passed. Inductive step holds. ✅") "SUCCESS",
        rng))
  | S k =>
      let '(grid_size, rng) := randint 5 15 rng in
      let '(grid, rng) :=
        random_grid (Z.to_nat grid_size) (Z.to_nat grid_size) rng in
      let start := (0, 0) in
      let end_ := (grid_size - 1, grid_size - 1) in
      optimal_cost ←? find_optimal_cost fuel grid start end_;
      out ←? alg grid start end_;
      let test_data :=
        {| Input.grid := grid; Input.optimal_cost := optimal_cost;
           Input.start := start; Input.end_ := end_ |} in
      match out.1 with
      | None =>
          lift (Ret (false,
            log_step log
              ("Test " +:+ str_Z (i + 1) +:+ " failed: No path found.") "FAIL",
            rng))
      | Some _ =>
          failed ←? lift (check_properties props i test_data out log);
          match failed with
          | Some log => lift (Ret (false, log, rng))
          | None => trials alg props num_tests k (i + 1) rng log
          end
      end
  end.

Definition run_inductive_step (alg : algorithm) (props : list Property.t)
    (num_tests : nat) (rng : Rng) (log : list string)
    : option (outcome (bool * list string * Rng)) :=
  let log := log_step log "--- Proving Inductive Step ---" "INFO" in
  let log := log_step log
    "Hypothesis: Assume A* is correct for simple grids." "INFO" in
  let log := log_step log
    ("Verifying for " +:+ pretty num_tests +:+ " random grids...") "INFO" in
  trials alg props num_tests num_tests 0 rng log.
End inductive_step.

Definition grid5 : Grid := replicate 5 (replicate 5 1).

(** ** Specification vocabulary *)

(** [returns run r]: the call modelled by [run] returns [r], given
    enough fuel. *)
Definition returns {R} (run : nat → option (outcome R)) (r : R) : Prop :=
  ∃ fuel, run fuel = Some (Ret r).

(** The heap order kept by [heapq]: no child is smaller than its parent. *)
Section heap_order.
Context {A : Type} (lt : A → A → bool).

Definition heap_le (a b : A) : Prop := lt b a = false.

Definition child (p c : nat) : Prop :=
  (c = 2 * p + 1 ∨ c = 2 * p + 2)%nat.

Definition heap_ok (h : list A) : Prop :=
  ∀ p c a b, child p c → h !! p = Some a → h !! c = Some b → heap_le a b.

(** Heap order everywhere but between [pos] and its parent. *)
Definition up_ok (h : list A) (pos : nat) : Prop :=
  (∀ p c a b, child p c → c ≠ pos →
     h !! p = Some a → h !! c = Some b → heap_le a b) ∧
  (∀ gp c a b, child gp pos → child pos c →
     h !! gp = Some a → h !! c = Some b → heap_le a b).

(** Heap order around a hole at [pos], whose content is irrelevant. *)
Definition hole_ok (h : list A) (pos : nat) : Prop :=
  (∀ p c a b, child p c → p ≠ pos → c ≠ pos →
     h !! p = Some a → h !! c = Some b → heap_le a b) ∧
  (∀ gp c a b, child gp pos → child pos c →
     h !! gp = Some a → h !! c = Some b → heap_le a b).
End heap_order.

(** A matrix: every row is as long as the first. *)
Definition width (grid : Grid) : Z :=
  match grid with
  | [] => 0
  | row :: _ => Z.of_nat (length row)
  end.

Definition rect (grid : Grid) : Prop :=
  ∀ row, row ∈ grid → Z.of_nat (length row) = width grid.

Definition in_bounds (grid : Grid) (c : coord) : Prop :=
  (0 ≤ c.1 < rows grid) ∧ (0 ≤ c.2 < width grid).

(** The traversal cost stored at a coordinate. *)
Definition cost_at (grid : Grid) (c : coord) : Z :=
  match cell grid c with
  | Ret v => v
  | IndexError => 0
  end.

Definition passable (grid : Grid) (c : coord) : Prop :=
  in_bounds grid c ∧ cost_at grid c ≠ -1.

Global Instance in_bounds_dec grid c : Decision (in_bounds grid c).
Proof. unfold in_bounds. apply _. Defined.

Global Instance passable_dec grid c : Decision (passable grid c).
Proof. unfold passable. apply _. Defined.

(** Exactly one Manhattan step apart. *)
Definition adjacent (u v : coord) : Prop :=
  Z.abs (u.1 - v.1) + Z.abs (u.2 - v.2) = 1.

Definition shift (c d : coord) : coord := (c.1 + d.1, c.2 + d.2).

(** The cells one move away from [c] that can be entered, in the order
    in which the code tries the moves. *)
Definition neighbors_of (grid : Grid) (c : coord) : list coord :=
  filter (passable grid) (shift c <$> possible_moves).

(** [walk grid s v k]: some sequence of moves leads from [s] to [v],
    entering passable cells only, at total entry cost [k]; the cost of
    [s] itself is not counted and [s] itself is not inspected. *)
Inductive walk (grid : Grid) (s : coord) : coord → Z → Prop :=
  | walk_here : walk grid s s 0
  | walk_step u v k :
      walk grid s u k → adjacent u v → passable grid v →
      walk grid s v (k + cost_at grid v).

Definition reachable (grid : Grid) (s e : coord) : Prop :=
  ∃ k, walk grid s e k.

(** The node pushed for the neighbour at [c] of [current_node]. *)
Definition expand (grid : Grid) (end_node_coords : coord)
    (current_node : Node) (c : coord) : Node :=
  let new_g := num_add (Node.g current_node) (Fin (cost_at grid c)) in
  let h := Z.abs (c.1 - end_node_coords.1) + Z.abs (c.2 - end_node_coords.2) in
  {| Node.x := c.1; Node.y := c.2; Node.cost := cost_at grid c;
     Node.g := new_g; Node.h := h; Node.f := num_add new_g (Fin h);
     Node.parent := Some current_node |}.

(** Nodes an engine can hold: the start node, or a node entered from
    such a node by one move into a passable cell, its [g] the parent's
    plus the entry cost. *)
Inductive chain (grid : Grid) (start : coord) : Node → Prop :=
  | chain_start n :
      Node.xy n = start → Node.g n = Fin 0 → Node.parent n = None →
      chain grid start n
  | chain_step p n :
      chain grid start p →
      adjacent (Node.xy p) (Node.xy n) → passable grid (Node.xy n) →
      Node.parent n = Some p →
      Node.g n = num_add (Node.g p) (Fin (cost_at grid (Node.xy n))) →
      chain grid start n.

(** [path_from grid s p v]: [p] lists the cells of a sequence of moves
    from [s] to [v], every cell after the first passable. *)
Inductive path_from (grid : Grid) (s : coord) : list coord → coord → Prop :=
  | path_here : path_from grid s [s] s
  | path_step p u v :
      path_from grid s p u → adjacent u v → passable grid v →
      path_from grid s (p ++ [v]) v.

(** What the engine keeps true of its open set: every node hangs off
    the start node by its parent links. *)
Definition nodes_ok (grid : Grid) (start : coord) (st : astar_state) : Prop :=
  ∀ n, n ∈ st.1 → chain grid start n.

(** The coordinates of a grid. *)
Definition all_coords (grid : Grid) : gset coord :=
  list_to_set (x ← seqZ 0 (rows grid); (λ y, (x, y)) <$> seqZ 0 (width grid)).

(** Termination measure of the engines.  With [k] cells not yet
    closed, a node weighs [5^k] while its own cell is open and
    [5^(k+1)] once it is closed; a pass pops one node and pushes at
    most four, all on open cells. *)
Definition open_cells (grid : Grid) (closed : gset coord) : nat :=
  size (all_coords grid ∖ closed).

Definition weight (grid : Grid) (closed : gset coord) (n : Node) : nat :=
  5 ^ (open_cells grid closed + (if decide (Node.xy n ∈ closed) then 1 else 0)).

Definition astar_measure (grid : Grid) (st : astar_state) : nat :=
  sum_list_with (weight grid st.2) st.1.

(** What the engine has explored: the goal is never closed, the start
    has been seen, and every enterable neighbour of a closed cell is
    closed or waiting in the open set. *)
Definition seen (st : astar_state) (c : coord) : Prop :=
  (c ∈ st.2) ∨ (∃ n, n ∈ st.1 ∧ Node.xy n = c).

Definition explored (grid : Grid) (start end_ : coord) (st : astar_state) : Prop :=
  (end_ ∉ st.2) ∧ seen st start ∧
  ∀ u v, u ∈ st.2 → adjacent u v → passable grid v → seen st v.

(** Every cell is the sentinel [-1] or costs at least [lo]. *)
Definition costs_ge (lo : Z) (grid : Grid) : Prop :=
  ∀ row v, row ∈ grid → v ∈ row → v = -1 ∨ lo ≤ v.

(** The oracle's treatment of one enterable neighbour [c] of the cell
    popped at cost [cost]. *)
Definition oracle_relax (grid : Grid) (cost : Z) (st : oracle_state) (c : coord)
    : oracle_state :=
  let new_cost := cost + cost_at grid c in
  if num_lt (Fin new_cost) (visited_get st.2 c)
  then (heappush entry_lt st.1 (new_cost, c), <[c := new_cost]> st.2)
  else st.

(** What the oracle keeps true at the head of its loop. *)
Definition oracle_inv (grid : Grid) (start end_ : coord) (st : oracle_state) : Prop :=
  heap_ok entry_lt st.1 ∧
  (∃ v, st.2 !! start = Some v ∧ v ≤ 0) ∧
  (∀ e, e ∈ st.1 →
     walk grid start e.2 e.1 ∧ ∃ v, st.2 !! e.2 = Some v ∧ v ≤ e.1) ∧
  (∀ c v, st.2 !! c = Some v →
     walk grid start c v ∧
     ((v, c) ∈ st.1 ∨
      (c ≠ end_ ∧
       ∀ n, adjacent c n → passable grid n →
         ∃ v', st.2 !! n = Some v' ∧ v' ≤ v + cost_at grid n))).

(** Termination measure of the oracle, in lexicographic order: the
    number of cells without an entry in [visited], then twice the sum
    of the recorded costs plus the length of the queue. *)
Definition unvisited (grid : Grid) (visited : gmap coord Z) : nat :=
  size (all_coords grid ∖ dom visited).

Definition recorded (visited : gmap coord Z) (c : coord) : nat :=
  Z.to_nat (default 0 (visited !! c)).

Definition oracle_measure (grid : Grid) (st : oracle_state) : nat :=
  2 * sum_list_with (recorded st.2) (elements (all_coords grid)) + length st.1.

(** The heuristic, on coordinates. *)
Definition manhattan (c end_ : coord) : Z :=
  Z.abs (c.1 - end_.1) + Z.abs (c.2 - end_.2).

(** What [astar_correct] keeps true once the start node has been
    expanded, with [gc u] the [g] at which the cell [u] was first
    closed: every open node carries [f = g + h]; closed cells were
    closed in order of [f]; and each enterable neighbour of a closed
    cell is closed no dearer than through that cell, or waits in the
    open set no dearer than through it. *)
Definition astar_opt (grid : Grid) (start end_ : coord) (gc : coord → Z)
    (st : astar_state) : Prop :=
  heap_ok Node.lt st.1 ∧
  (∀ n, n ∈ st.1 →
     ∃ k, Node.g n = Fin k ∧ Node.f n = Fin (k + manhattan (Node.xy n) end_)) ∧
  ((start ∈ st.2) ∧ gc start ≤ 0) ∧
  (∀ u, u ∈ st.2 → walk grid start u (gc u)) ∧
  (∀ u n k, u ∈ st.2 → n ∈ st.1 → Node.g n = Fin k →
     gc u + manhattan u end_ ≤ k + manhattan (Node.xy n) end_) ∧
  (∀ u v, u ∈ st.2 → adjacent u v → passable grid v →
     ((v ∈ st.2) ∧ gc v ≤ gc u + cost_at grid v) ∨
     (∃ n k, n ∈ st.1 ∧ Node.xy n = v ∧ Node.g n = Fin k ∧
             k ≤ gc u + cost_at grid v)).

Definition astar_inv (grid : Grid) (start end_ : coord) (s : Node)
    (st : astar_state) : Prop :=
  nodes_ok grid start st ∧ explored grid start end_ st ∧
  (st = ([s], ∅) ∨ ∃ gc, astar_opt grid start end_ gc st).

(** ** Vocabulary for further properties *)

(** What a path pays: the entry cost of every cell but the first. *)
Definition path_cost (grid : Grid) (path : list coord) : Z :=
  foldr (λ c acc, cost_at grid c + acc) 0 (tail path).

(** The coordinates of a node's ancestors, nearest first. *)
Definition ancestors (n : Node) : list coord :=
  match Node.parent n with
  | Some p => get_path_loop p
  | None => []
  end.

(** Every open node was pushed while its own cell was open and all its
    ancestors' cells closed, so its parent chain visits no cell twice. *)
Definition acyclic (st : astar_state) : Prop :=
  ∀ n, n ∈ st.1 → NoDup (get_path_loop n) ∧ ∀ c, c ∈ ancestors n → c ∈ st.2.

(** The node [astar_buggy] pushes for the neighbour at [c]: [g] stays
    as [Node] created it. *)
Definition expand_buggy (grid : Grid) (end_node_coords : coord)
    (current_node : Node) (c : coord) : Node :=
  let h := Z.abs (c.1 - end_node_coords.1) + Z.abs (c.2 - end_node_coords.2) in
  {| Node.x := c.1; Node.y := c.2; Node.cost := cost_at grid c;
     Node.g := Inf; Node.h := h; Node.f := Fin h;
     Node.parent := Some current_node |}.

(** Nodes hanging off the start node by parent links, whatever their
    [g]. *)
Inductive linked (grid : Grid) (start : coord) : Node → Prop :=
  | linked_start n :
      Node.xy n = start → Node.parent n = None → linked grid start n
  | linked_step p n :
      linked grid start p →
      adjacent (Node.xy p) (Node.xy n) → passable grid (Node.xy n) →
      Node.parent n = Some p →
      linked grid start n.

Definition nodes_linked (grid : Grid) (start : coord) (st : astar_state) : Prop :=
  ∀ n, n ∈ st.1 → linked grid start n ∧ in_bounds grid (Node.xy n).

(** The contract of [random.randint]: the draw lies within the bounds. *)
Definition randint_ok {Rng : Type} (randint : Z → Z → Rng → Z * Rng) : Prop :=
  ∀ a b rng, a ≤ b → a ≤ (randint a b rng).1 ≤ b.

(** The four lines a failed property check leaves in the log. *)
Definition diagnostics (i : Z) (name : string) (test_data : Input.t)
    (result_data : result) : list string :=
  ["[FAIL] Test " +:+ str_Z (i + 1) +:+ " failed for " +:+ name +:+ ".";
   "[INFO] Grid: " +:+ str_grid (Input.grid test_data);
   "[INFO] Start: " +:+ str_coord (Input.start test_data) +:+
     ", End: " +:+ str_coord (Input.end_ test_data);
   "[INFO] Optimal Cost: " +:+ str_num (Input.optimal_cost test_data) +:+
     ", A* Cost: " +:+ str_num result_data.2].

(** The three lines that open the inductive step. *)
Definition step_header (num_tests : nat) : list string :=
  ["[INFO] --- Proving Inductive Step ---";
   "[INFO] Hypothesis: Assume A* is correct for simple grids.";
   "[INFO] Verifying for " +:+ pretty num_tests +:+ " random grids..."].

Definition step_success (num_tests : nat) : string :=
  "[SUCCESS] All " +:+ pretty num_tests +:+
  " property checks passed. Inductive step holds. ✅".


(** ** Vocabulary for runs of the inductive step *)

(** [passing randint fuel alg props k rng rng']: the [k] trials drawn
    one after the other from the generator state [rng] all pass (the
    oracle and the algorithm return, the path is present and every
    property holds), and leave the generator at [rng']. *)
Inductive passing {Rng : Type} (randint : Z → Z → Rng → Z * Rng) (fuel : nat)
    (alg : algorithm) (props : list Property.t) : nat → Rng → Rng → Prop :=
  | passing_O rng : passing randint fuel alg props 0 rng rng
  | passing_S k rng rng1 rng2 rng' grid_size grid optimal_cost path cost :
      randint 5 15 rng = (grid_size, rng1) →
      random_grid randint (Z.to_nat grid_size) (Z.to_nat grid_size) rng1
        = (grid, rng2) →
      find_optimal_cost fuel grid (0, 0) (grid_size - 1, grid_size - 1)
        = Some (Ret optimal_cost) →
      alg grid (0, 0) (grid_size - 1, grid_size - 1) = Some (Ret (Some path, cost)) →
      Forall (λ p, Property.check p
                     {| Input.grid := grid; Input.optimal_cost := optimal_cost;
                        Input.start := (0, 0);
                        Input.end_ := (grid_size - 1, grid_size - 1) |}
                     (Some path, cost) = Ret true) props →
      passing randint fuel alg props k rng2 rng' →
      passing randint fuel alg props (S k) rng rng'.

(** The single line a trial without a path leaves in the log. *)
Definition no_path_line (i : Z) : string :=
  "[FAIL] Test " +:+ str_Z (i + 1) +:+ " failed: No path found.".


(** ** The engine and the oracle on grids of floats

    Nothing in the program asks for integer costs.  Module [F] embeds
    [Node], [get_neighbors], [get_path], [find_optimal_cost] and
    [astar_correct] once more, for a grid whose cells hold Python
    floats: IEEE 754 binary64 with round-to-nearest-even, which is what
    the primitive floats are.  [float('inf')] is [infinity]; the int
    literals [0] and [-1] that the program mixes with the costs are
    the floats of the same value, which Python's [+], [<], [==] and
    [!=] do not tell apart; coordinates and the heuristic stay ints. *)
Module F.
Import PrimFloat.

Definition Grid : Type := list (list float).

Definition cell (grid : Grid) (c : coord) : outcome float :=
  row ←! py_index grid c.1; py_index row c.2.

Definition rows (grid : Grid) : Z := Z.of_nat (length grid).
Definition cols (grid : Grid) : outcome Z :=
  row ←! py_index grid 0; Ret (Z.of_nat (length row)).

(** The conversion Python applies to the int operand of [float + int];
    exact below 2^53, and a heuristic is the distance between two list
    indices. *)
Fixpoint of_pos (p : positive) : float :=
  match p with
  | xH => 1
  | xO q => 2 * of_pos q
  | xI q => 2 * of_pos q + 1
  end%float.

Definition of_Z (z : Z) : float :=
  match z with
  | Z0 => 0
  | Zpos p => of_pos p
  | Zneg p => - of_pos p
  end%float.

Module Node.
#[local] Unset Elimination Schemes.
Inductive t : Type := mk {
  x : Z;
  y : Z;
  cost : float;
  g : float;
  h : Z;
  f : float;
  parent : option t
}.

Definition new (x y : Z) (cost : float) : t :=
  {| x := x; y := y; cost := cost; g := infinity; h := 0; f := infinity;
     parent := None |}.

Definition lt (self other : t) : bool := (f self <? f other)%float.

Definition xy (n : t) : coord := (x n, y n).
End Node.

Fixpoint get_neighbors_loop (grid : Grid) (rows cols x y : Z)
    (moves : list coord) (neighbors : list Node.t) : outcome (list Node.t) :=
  match moves with
  | [] => Ret neighbors
  | (dx, dy) :: moves' =>
      let nx := x + dx in
      let ny := y + dy in
      if (0 <=? nx) && (nx <? rows) && (0 <=? ny) && (ny <? cols) then
        v ←! cell grid (nx, ny);
        if negb (v =? -1)%float
        then get_neighbors_loop grid rows cols x y moves'
               (neighbors ++ [Node.new nx ny v])
        else get_neighbors_loop grid rows cols x y moves' neighbors
      else get_neighbors_loop grid rows cols x y moves' neighbors
  end.

Definition get_neighbors (grid : Grid) (node : Node.t) : outcome (list Node.t) :=
  cs ←! cols grid;
  get_neighbors_loop grid (rows grid) cs (Node.x node) (Node.y node)
    possible_moves [].

Fixpoint get_path_loop (current : Node.t) : list coord :=
  Node.xy current ::
  match Node.parent current with
  | Some p => get_path_loop p
  | None => []
  end.

Definition get_path (node : Node.t) : list coord := reverse (get_path_loop node).

(** Python's [<] on the tuples [(cost, (x, y))]: the first components
    that are not [==] decide. *)
Definition entry : Type := float * coord.

Definition entry_lt (a b : entry) : bool :=
  if (a.1 =? b.1)%float then
    if bool_decide (a.2.1 = b.2.1) then a.2.2 <? b.2.2
    else a.2.1 <? b.2.1
  else (a.1 <? b.1)%float.

Definition oracle_state : Type := list entry * gmap coord float.

Definition visited_get (visited : gmap coord float) (c : coord) : float :=
  match visited !! c with
  | Some v => v
  | None => infinity
  end.

Fixpoint oracle_moves (grid : Grid) (cost : float) (x y : Z) (moves : list coord)
    (st : oracle_state) : outcome oracle_state :=
  match moves with
  | [] => Ret st
  | (dx, dy) :: moves' =>
      let nx := x + dx in
      let ny := y + dy in
      if (0 <=? nx) && (nx <? rows grid) then
        cs ←! cols grid;
        if (0 <=? ny) && (ny <? cs) then
          v ←! cell grid (nx, ny);
          if negb (v =? -1)%float then
            let new_cost := (cost + v)%float in
            if (new_cost <? visited_get st.2 (nx, ny))%float then
              oracle_moves grid cost x y moves'
                (heappush entry_lt st.1 (new_cost, (nx, ny)),
                 <[(nx, ny) := new_cost]> st.2)
            else oracle_moves grid cost x y moves' st
          else oracle_moves grid cost x y moves' st
        else oracle_moves grid cost x y moves' st
      else oracle_moves grid cost x y moves' st
  end.

Definition oracle_body (grid : Grid) (end_ : coord) (st : oracle_state)
    : flow oracle_state float :=
  match heappop entry_lt st.1 with
  | None => Done infinity
  | Some ((cost, (x, y)), queue) =>
      if bool_decide ((x, y) = end_) then Done cost
      else
        match oracle_moves grid cost x y possible_moves (queue, st.2) with
        | Ret st' => Next st'
        | IndexError => Throw
        end
  end.

Definition find_optimal_cost (fuel : nat) (grid : Grid) (start end_ : coord)
    : option (outcome float) :=
  while (oracle_body grid end_) fuel ([(0%float, start)], {[start := 0%float]}).

Definition result : Type := option (list coord) * float.
Definition astar_state : Type := list Node.t * gset coord.

Definition heuristic (end_node_coords : coord) (node : Node.t) : Z :=
  Z.abs (Node.x node - end_node_coords.1) + Z.abs (Node.y node - end_node_coords.2).

Definition start_node (grid : Grid) (start_coords : coord) : outcome Node.t :=
  c ←! cell grid start_coords;
  Ret {| Node.x := start_coords.1; Node.y := start_coords.2; Node.cost := c;
         Node.g := 0%float; Node.h := 0; Node.f := 0%float; Node.parent := None |}.

Definition relax_correct (end_node_coords : coord) (current_node : Node.t)
    (closed_set : gset coord) (open_set : list Node.t) (neighbor : Node.t)
    : list Node.t :=
  if decide (Node.xy neighbor ∈ closed_set) then open_set
  else
    let new_g := (Node.g current_node + Node.cost neighbor)%float in
    if (new_g <? Node.g neighbor)%float then
      let h := heuristic end_node_coords neighbor in
      heappush Node.lt open_set
        {| Node.x := Node.x neighbor; Node.y := Node.y neighbor;
           Node.cost := Node.cost neighbor;
           Node.g := new_g; Node.h := h; Node.f := (new_g + of_Z h)%float;
           Node.parent := Some current_node |}
    else open_set.

Definition astar_body (grid : Grid) (end_node_coords : coord)
    (st : astar_state) : flow astar_state result :=
  match heappop Node.lt st.1 with
  | None => Done (None, infinity)
  | Some (current_node, open_set) =>
      if bool_decide (Node.xy current_node = end_node_coords)
      then Done (Some (get_path current_node), Node.g current_node)
      else
        let closed_set := st.2 ∪ {[Node.xy current_node]} in
        match get_neighbors grid current_node with
        | Ret neighbors =>
            Next (foldl (relax_correct end_node_coords current_node closed_set)
                    open_set neighbors, closed_set)
        | IndexError => Throw
        end
  end.

Definition astar_correct (fuel : nat) (grid : Grid) (start_coords end_coords : coord)
    : option (outcome result) :=
  match start_node grid start_coords with
  | Ret s => while (astar_body grid end_coords) fuel ([s], ∅)
  | IndexError => Some IndexError
  end.

End F.


(** ** The engine with its nodes as objects

    In the program a [Node] is a mutable object: [get_neighbors]
    allocates it, the engine assigns its [g], [h], [f] and [parent]
    afterwards, and the open set and the [parent] fields hold references
    to it.  Module [Store] embeds [astar_correct] that way: the part of
    Python's heap that holds the nodes is a [store], a reference is a
    [loc], and the address a new object gets is whatever the allocator
    [alloc] picks, of which the program knows nothing but that it is
    not in use.  A run starts from whatever store earlier computation
    left behind and hands back the store it leaves. *)
Module Store.

Definition loc : Type := positive.

Record obj : Type := mk {
  x : Z;
  y : Z;
  cost : Z;
  g : num;
  h : Z;
  f : num;
  parent : option loc
}.

Definition store : Type := gmap loc obj.

(** Dereferencing; a reference the program holds is never dangling, the
    default stands in for that impossible case. *)
Definition read (σ : store) (l : loc) : obj :=
  default (mk 0 0 0 Inf 0 Inf None) (σ !! l).

(** [__lt__], on references. *)
Definition lt (σ : store) (self other : loc) : bool :=
  num_lt (f (read σ self)) (f (read σ other)).

Definition xy (σ : store) (l : loc) : coord := (x (read σ l), y (read σ l)).

Definition result : Type := option (list coord) * num.
Definition astar_state : Type := list loc * gset coord * store.

Section engine.
Context (alloc : store → loc).

(** [Node(x, y, cost)] *)
Definition new_node (x y cost : Z) (σ : store) : loc * store :=
  let l := alloc σ in
  (l, <[l := mk x y cost Inf 0 Inf None]> σ).

Fixpoint get_neighbors_loop (grid : Grid) (rows cols x y : Z)
    (moves : list coord) (neighbors : list loc) (σ : store)
    : outcome (list loc * store) :=
  match moves with
  | [] => Ret (neighbors, σ)
  | (dx, dy) :: moves' =>
      let nx := x + dx in
      let ny := y + dy in
      if (0 <=? nx) && (nx <? rows) && (0 <=? ny) && (ny <? cols) then
        v ←! cell grid (nx, ny);
        if bool_decide (v ≠ -1)
        then
          let '(n, σ') := new_node nx ny v σ in
          get_neighbors_loop grid rows cols x y moves' (neighbors ++ [n]) σ'
        else get_neighbors_loop grid rows cols x y moves' neighbors σ
      else get_neighbors_loop grid rows cols x y moves' neighbors σ
  end.

Definition get_neighbors (grid : Grid) (node : loc) (σ : store)
    : outcome (list loc * store) :=
  cs ←! cols grid;
  get_neighbors_loop grid (rows grid) cs (x (read σ node)) (y (read σ node))
    possible_moves [] σ.

(** The [while current:] loop of [get_path]; it runs for as long as
    [parent] references go on, so it carries fuel. *)
Fixpoint get_path_loop (fuel : nat) (σ : store) (current : option loc)
    (path : list coord) : option (list coord) :=
  match current with
  | None => Some path
  | Some l =>
      match fuel with
      | O => None
      | S k => get_path_loop k σ (parent (read σ l)) (path ++ [xy σ l])
      end
  end.

Definition get_path (fuel : nat) (σ : store) (node : loc) : option (list coord) :=
  reverse <$> get_path_loop fuel σ (Some node) [].

(** The body of [for neighbor in get_neighbors(...)]: the four
    assignments to the neighbour, then the push. *)
Definition relax_correct (end_node_coords : coord) (current_node : loc)
    (closed_set : gset coord) (st : list loc * store) (neighbor : loc)
    : list loc * store :=
  let '(open_set, σ) := st in
  if decide (xy σ neighbor ∈ closed_set) then (open_set, σ)
  else
    let nb := read σ neighbor in
    let new_g := num_add (g (read σ current_node)) (Fin (cost nb)) in
    if num_lt new_g (g nb) then
      let h := Z.abs (x nb - end_node_coords.1) + Z.abs (y nb - end_node_coords.2) in
      let σ' :=
        <[neighbor := {| x := x nb; y := y nb; cost := cost nb;
                         g := new_g; h := h; f := num_add new_g (Fin h);
                         parent := Some current_node |}]> σ in
      (heappush (lt σ') open_set neighbor, σ')
    else (open_set, σ).

(** One pass of [while open_set:]; the loop ends with the node that
    reached the end, if any. *)
Definition astar_body (grid : Grid) (end_node_coords : coord)
    (st : astar_state) : flow astar_state (option loc * store) :=
  let '(open_set, closed_set, σ) := st in
  match heappop (lt σ) open_set with
  | None => Done (None, σ)
  | Some (current_node, open_set) =>
      if bool_decide (xy σ current_node = end_node_coords)
      then Done (Some current_node, σ)
      else
        let closed_set := closed_set ∪ {[xy σ current_node]} in
        match get_neighbors grid current_node σ with
        | Ret (neighbors, σ) =>
            let '(open_set, σ) :=
              foldl (relax_correct end_node_coords current_node closed_set)
                (open_set, σ) neighbors in
            Next (open_set, closed_set, σ)
        | IndexError => Throw
        end
  end.

Definition astar_correct (fuel : nat) (grid : Grid) (start_coords end_coords : coord)
    (σ : store) : option (outcome (result * store)) :=
  match cell grid start_coords with
  | IndexError => Some IndexError
  | Ret c =>
      let '(s, σ) := new_node start_coords.1 start_coords.2 c σ in
      let σ := <[s := {| x := start_coords.1; y := start_coords.2; cost := c;
                         g := Fin 0; h := 0; f := Fin 0; parent := None |}]> σ in
      match while (astar_body grid end_coords) fuel ([s], ∅, σ) with
      | None => None
      | Some IndexError => Some IndexError
      | Some (Ret (None, σ)) => Some (Ret ((None, Inf), σ))
      | Some (Ret (Some current_node, σ)) =>
          match get_path fuel σ current_node with
          | Some path => Some (Ret ((Some path, g (read σ current_node)), σ))
          | None => None
          end
      end
  end.
End engine.

(** The one thing the program may rely on: a new object's address is
    not that of a live object. *)
Definition allocator (alloc : store → loc) : Prop :=
  ∀ σ, σ !! alloc σ = None.

(** What a call leaves of its outcome to the caller: the value it
    returned or the exception, the store apart. *)
Definition returned (o : outcome (result * store)) : outcome result :=
  match o with
  | Ret (r, _) => Ret r
  | IndexError => IndexError
  end.

(** [represents σ l n]: the object at [l], with the objects its
    [parent] references lead to, is the node value [n]. *)
Fixpoint represents (σ : store) (l : loc) (n : Node) : Prop :=
  ∃ o, σ !! l = Some o ∧
       x o = Node.x n ∧ y o = Node.y n ∧ cost o = Node.cost n ∧
       g o = Node.g n ∧ h o = Node.h n ∧ f o = Node.f n ∧
       match Node.parent n with
       | None => parent o = None
       | Some pn => ∃ pl, parent o = Some pl ∧ represents σ pl pn
       end.

End Store.

(** A neighbour as [get_neighbors] leaves it: an object nothing refers
    to yet, with the fields [Node(x, y, cost)] gave it. *)
Definition fresh_node (φ σ : Store.store) (l : Store.loc) (n : Node) : Prop :=
  φ !! l = None ∧
  σ !! l = Some (Store.mk (Node.x n) (Node.y n) (Node.cost n) Inf 0 Inf None) ∧
  n = Node.new (Node.x n) (Node.y n) (Node.cost n).

(** The state of the loop on objects against its state on values: the
    closed sets are equal and the open sets hold, position by position,
    references to objects that stand for the values.  The objects [φ]
    that are no longer written to, those referred to among them, are
    part of the store, and so is every object [σ0] that was there when
    the call began. *)
Definition store_sim (σ0 : Store.store) (st_s : Store.astar_state)
    (st : astar_state) : Prop :=
  ∃ φ : Store.store,
    σ0 ⊆ φ ∧ φ ⊆ st_s.2 ∧ st_s.1.2 = st.2 ∧
    Forall2 (Store.represents φ) st_s.1.1 st.1.

(** What the two loops leave when they end together. *)
Definition store_done (σ0 : Store.store) (r_s : option Store.loc * Store.store)
    (r : result) : Prop :=
  σ0 ⊆ r_s.2 ∧
  match r_s.1 with
  | None => r = (None, Inf)
  | Some l =>
      ∃ (φ : Store.store) (n : Node),
        φ ⊆ r_s.2 ∧ Store.represents φ l n ∧ r = (Some (get_path n), Node.g n)
  end.


(** * Facts about the loop combinator *)

Section while_facts.
Context {St R : Type} (body : St → flow St R).

Lemma while_mono (n m : nat) (s : St) (r : outcome R) :
  while body n s = Some r → (n ≤ m)%nat → while body m s = Some r.
Proof.
  revert m s. induction n as [|n IH]; intros m s Hr Hle; [done|].
  destruct m as [|m]; [lia|]. simpl in *.
  destruct (body s); [|done..]. apply IH; [done|lia].
Qed.

(** Partial correctness: an invariant kept by every pass holds in the
    state from which the loop leaves. *)
Lemma while_inv (Inv : St → Prop) (n : nat) (s : St) (r : outcome R) :
  (∀ s s', Inv s → body s = Next s' → Inv s') →
  Inv s → while body n s = Some r →
  ∃ s', Inv s' ∧
    ((∃ r0, body s' = Done r0 ∧ r = Ret r0) ∨ (body s' = Throw ∧ r = IndexError)).
Proof.
  intros Hstep. revert s. induction n as [|n IH]; intros s Hs Hr; [done|].
  simpl in Hr. destruct (body s) as [s1|r0|] eqn:Hb.
  - eapply IH; [|done]. eauto.
  - exists s. split; [done|]. left. exists r0. split; congruence.
  - exists s. split; [done|]. right. split; congruence.
Qed.

(** Termination: a measure that every pass decreases bounds the fuel. *)
Lemma while_term (Inv : St → Prop) (mu : St → nat) (s : St) :
  (∀ s s', Inv s → body s = Next s' → Inv s' ∧ (mu s' < mu s)%nat) →
  Inv s → ∃ r, while body (S (mu s)) s = Some r.
Proof.
  intros Hstep. remember (mu s) as k eqn:Hk.
  assert (mu s ≤ k)%nat as Hle by lia. clear Hk.
  revert s Hle. induction k as [|k IH]; intros s Hle Hs.
  - simpl. destruct (body s) as [s1|r0|] eqn:Hb; eauto.
    destruct (Hstep _ _ Hs Hb). lia.
  - change (while body (S (S k)) s)
      with (match body s with
            | Next s' => while body (S k) s'
            | Done r => Some (Ret r)
            | Throw => Some IndexError
            end).
    destruct (body s) as [s1|r0|] eqn:Hb; eauto.
    destruct (Hstep _ _ Hs Hb). apply IH; [lia|done].
Qed.
End while_facts.

(** * Facts about [heapq] *)

Section heapq_perm.
Context {A : Type} (lt : A → A → bool).
Implicit Types heap : list A.
Local Open Scope nat_scope.

Lemma insert_Permutation heap i a x :
  heap !! i = Some a → <[i:=x]> heap ≡ₚ x :: delete i heap.
Proof.
  revert i. induction heap as [|b heap IH]; intros [|i] Hi; simplify_eq/=; [reflexivity|].
  rewrite (IH _ Hi). apply Permutation_swap.
Qed.

(** Moving the hole: filling [i] with the content of [j] and putting
    [x] at [j] holds the same items as putting [x] at [i]. *)
Lemma insert_move_Permutation heap i j x y :
  heap !! j = Some y → i ≠ j → i < length heap →
  <[j:=x]> (<[i:=y]> heap) ≡ₚ <[i:=x]> heap.
Proof.
  intros Hj Hne Hi.
  destruct (lookup_lt_is_Some_2 heap i Hi) as [a Ha].
  assert (<[i:=y]> heap !! j = Some y) as Hj' by by rewrite list_lookup_insert_ne.
  rewrite (insert_Permutation _ j y x Hj'), (insert_Permutation _ i a x Ha).
  constructor.
  apply (Permutation_cons_inv (a:=y)).
  rewrite <-(delete_Permutation _ j y Hj').
  by apply (insert_Permutation _ i a).
Qed.

Lemma parent_lt pos : 0 < pos → (pos - 1) / 2 < pos.
Proof. intros. apply Nat.Div0.div_lt_upper_bound. lia. Qed.

Lemma parent_child pos : 0 < pos → child ((pos - 1) / 2) pos.
Proof.
  intros. unfold child.
  pose proof (Nat.div_mod_eq (pos - 1) 2).
  pose proof (Nat.mod_upper_bound (pos - 1) 2). lia.
Qed.

Lemma child_parent p c : child p c → p = (c - 1) / 2 ∧ 0 < c.
Proof.
  unfold child. intros Hc. split; [|lia].
  apply (Nat.div_unique _ _ _ (c - 1 - 2 * p)); lia.
Qed.

Lemma siftdown_loop_Permutation fuel heap newitem startpos pos :
  pos < length heap →
  siftdown_loop lt fuel heap newitem startpos pos ≡ₚ <[pos:=newitem]> heap.
Proof.
  revert heap pos. induction fuel as [|k IH]; intros heap pos Hpos; cbn [siftdown_loop]; [reflexivity|].
  case_decide as Hlt; [|reflexivity].
  destruct (heap !! ((pos - 1) / 2)) as [parent|] eqn:Hp; [|reflexivity].
  destruct (lt newitem parent); [|reflexivity].
  pose proof (parent_lt pos ltac:(lia)).
  rewrite IH by (rewrite length_insert; lia).
  apply insert_move_Permutation; [done|lia|done].
Qed.

Lemma siftdown_Permutation heap startpos pos :
  siftdown lt heap startpos pos ≡ₚ heap.
Proof.
  unfold siftdown. destruct (heap !! pos) as [newitem|] eqn:Hn; [|reflexivity].
  rewrite siftdown_loop_Permutation by by eapply lookup_lt_Some.
  by rewrite list_insert_id.
Qed.

Lemma heappush_Permutation heap item : heappush lt heap item ≡ₚ item :: heap.
Proof.
  unfold heappush. rewrite siftdown_Permutation.
  by rewrite Permutation_app_comm.
Qed.

Lemma siftup_loop_spec fuel heap endpos pos heap' pos' :
  siftup_loop lt fuel heap endpos pos = (heap', pos') →
  endpos = length heap → pos < length heap →
  length heap' = length heap ∧ pos' < length heap ∧
  ∀ x, <[pos':=x]> heap' ≡ₚ <[pos:=x]> heap.
Proof.
  revert heap pos. induction fuel as [|k IH]; intros heap pos Heq -> Hpos;
    cbn [siftup_loop] in Heq.
  { by simplify_eq. }
  case_decide as Hc; [|by simplify_eq].
  match type of Heq with context [siftup_loop _ _ _ _ ?c] => set (cp := c) in * end.
  assert (cp = 2 * pos + 1 ∨ cp = 2 * pos + 1 + 1) as Hcp.
  { subst cp. repeat case_match; auto. }
  destruct (heap !! cp) as [c|] eqn:Hcv; [|by simplify_eq].
  apply IH in Heq; rewrite ?length_insert in *; [|done|by eapply lookup_lt_Some].
  destruct Heq as (Hlen & Hlt & Hperm). split_and!; [done..|].
  intros x. rewrite Hperm. apply insert_move_Permutation; [done|lia|done].
Qed.

Lemma siftup_Permutation heap pos : siftup lt heap pos ≡ₚ heap.
Proof.
  unfold siftup. destruct (heap !! pos) as [newitem|] eqn:Hn; [|reflexivity].
  destruct (siftup_loop _ _ _ _ _) as [heap' pos'] eqn:Hl.
  apply siftup_loop_spec in Hl as (_ & _ & Hperm); [|done|by eapply lookup_lt_Some].
  rewrite siftdown_Permutation, Hperm. by rewrite list_insert_id.
Qed.

Lemma heappop_None heap : heappop lt heap = None ↔ heap = [].
Proof.
  unfold heappop. split.
  - destruct (last heap) eqn:Hl; [|by intros _; apply last_None].
    by destruct (removelast heap).
  - by intros ->.
Qed.

Lemma removelast_snoc (l : list A) x : removelast (l ++ [x]) = l.
Proof. apply removelast_last. Qed.

Lemma heappop_Permutation heap item heap' :
  heappop lt heap = Some (item, heap') → heap ≡ₚ item :: heap'.
Proof.
  unfold heappop. destruct (last heap) as [lastelt|] eqn:Hl; [|done].
  apply last_Some in Hl as [l ->]. rewrite removelast_snoc.
  destruct l as [|r rest]; intros ?; simplify_eq/=; [reflexivity|].
  rewrite siftup_Permutation. constructor. by rewrite Permutation_app_comm.
Qed.
End heapq_perm.

Section heapq_order.
Context {A : Type} (lt : A → A → bool).
Context (lt_asym : ∀ a b, lt a b = true → lt b a = false).
Context (le_trans : ∀ a b c, heap_le lt a b → heap_le lt b c → heap_le lt a c).
Implicit Types heap : list A.
Local Open Scope nat_scope.

Abbreviation heap_le := (heap_le lt).
Abbreviation heap_ok := (heap_ok lt).
Abbreviation up_ok := (up_ok lt).
Abbreviation hole_ok := (hole_ok lt).

Lemma heap_le_refl a : heap_le a a.
Proof.
  unfold heap_le. destruct (lt a a) eqn:E; [|done].
  by rewrite (lt_asym _ _ E) in E.
Qed.

Lemma heap_le_of_lt a b : lt a b = true → heap_le a b.
Proof. apply lt_asym. Qed.

Local Ltac ins H :=
  apply list_lookup_insert_Some in H as [(? & ? & ?)|(? & H)].

Local Ltac lk :=
  repeat first
    [ rewrite list_lookup_insert_eq by (rewrite ?length_insert; lia)
    | rewrite list_lookup_insert_ne by lia ].

Lemma heap_ok_nil : heap_ok [].
Proof. by intros p c a b _ ?. Qed.

Lemma heap_ok_singleton a : heap_ok [a].
Proof. intros p c x y [-> | ->] _ Hc; destruct p; simplify_eq/=. Qed.

(** The root of a heap is a least item. *)
Lemma heap_ok_root heap r :
  heap_ok heap → heap !! 0 = Some r → ∀ b, b ∈ heap → heap_le r b.
Proof.
  intros Hok Hr b [i Hi]%list_elem_of_lookup. revert b Hi.
  induction (lt_wf i) as [i _ IH]. intros b Hi.
  destruct (decide (i = 0)) as [->|Hne].
  { simplify_eq. apply heap_le_refl. }
  pose proof (parent_lt i ltac:(lia)) as Hlt.
  pose proof (parent_child i ltac:(lia)) as Hch.
  destruct (lookup_lt_is_Some_2 heap ((i - 1) / 2)) as [a Ha].
  { apply lookup_lt_Some in Hi. lia. }
  eapply le_trans; [by eapply IH|]. by eapply Hok.
Qed.

Lemma up_ok_root heap : up_ok heap 0 → heap_ok heap.
Proof.
  intros [H1 _] p c a b Hch. apply H1; [done|]. unfold child in Hch. lia.
Qed.

Lemma siftdown_loop_ok fuel heap newitem pos :
  pos ≤ fuel → pos < length heap →
  up_ok (<[pos:=newitem]> heap) pos →
  heap_ok (siftdown_loop lt fuel heap newitem 0 pos).
Proof.
  revert heap pos. induction fuel as [|k IH]; intros heap pos Hfuel Hpos Hup;
    cbn [siftdown_loop].
  { assert (pos = 0) as -> by lia. by apply up_ok_root. }
  case_decide as H0; [|assert (pos = 0) as -> by lia; by apply up_ok_root].
  pose proof (parent_lt pos H0) as Hlt.
  pose proof (parent_child pos H0) as Hch.
  set (pp := (pos - 1) / 2) in *.
  destruct (lookup_lt_is_Some_2 heap pp) as [parent Hparent]; [lia|].
  rewrite Hparent. destruct Hup as [Hup1 Hup2].
  assert (∀ c b, child pp c → c ≠ pos → heap !! c = Some b → heap_le parent b)
    as Hsib.
  { intros c b Hc Hne Hb. apply (Hup1 pp c); [done..| |]; by lk. }
  assert (∀ c b, child pos c → heap !! c = Some b → heap_le parent b) as Hkid.
  { intros c b Hc Hb. apply (Hup2 pp c); [done..| |]; lk; [done|].
    unfold child in Hc. by lk. }
  assert (∀ p c a b, child p c → c ≠ pos → p ≠ pos →
            heap !! p = Some a → heap !! c = Some b → heap_le a b) as Hrest.
  { intros p c a b Hc ?? Ha Hb. apply (Hup1 p c); [done..| |]; by lk. }
  destruct (lt newitem parent) eqn:Hcmp.
  - apply IH; [lia|rewrite length_insert; lia|].
    split.
    + intros p c a b Hc Hne Ha Hb.
      rewrite list_lookup_insert_ne in Hb by done.
      ins Ha; ins Hb; try ins Ha; simplify_eq;
        first
          [ by apply heap_le_of_lt
          | by eapply Hkid
          | by eapply Hrest
          | by (eapply le_trans; [by apply heap_le_of_lt|]; by eapply Hsib)
          | by (exfalso; unfold child in *; lia)
          | by (exfalso; apply child_parent in Hc as [? _]; subst pp; lia) ].
    + intros gp c a b Hg Hc Ha Hb.
      assert (gp < pp ∧ pp < c) as [??] by (unfold child in *; lia).
      rewrite !list_lookup_insert_ne in Ha by lia.
      rewrite list_lookup_insert_ne in Hb by lia.
      assert (heap_le a parent) by (eapply (Hrest gp pp); [done|lia..|done|done]).
      ins Hb; simplify_eq; [done|].
      eapply le_trans; [done|]. by eapply Hsib.
  - intros p c a b Hc Ha Hb.
    destruct (decide (c = pos)) as [->|Hne]; [|by eapply Hup1].
    apply child_parent in Hc as [-> _]. fold pp in Ha.
    rewrite list_lookup_insert_ne in Ha by lia.
    rewrite list_lookup_insert_eq in Hb by done. by simplify_eq.
Qed.

Lemma siftdown_ok heap pos :
  up_ok heap pos → heap_ok (siftdown lt heap 0 pos).
Proof.
  unfold siftdown. intros Hup.
  destruct (heap !! pos) as [newitem|] eqn:Hn.
  - apply siftdown_loop_ok; [done|by eapply lookup_lt_Some|].
    by rewrite list_insert_id.
  - intros p c a b Hc Ha Hb. destruct Hup as [Hup _].
    apply (Hup p c); [done| |done..]. intros ->. congruence.
Qed.

Lemma heappush_ok heap item : heap_ok heap → heap_ok (heappush lt heap item).
Proof.
  intros Hok. apply siftdown_ok. split.
  - intros p c a b Hc Hne Ha Hb.
    assert (c < length heap).
    { apply lookup_lt_Some in Hb. rewrite length_app in Hb. simpl in Hb. lia. }
    rewrite lookup_app_l in Ha by (unfold child in Hc; lia).
    rewrite lookup_app_l in Hb by done. by eapply Hok.
  - intros gp c a b _ Hc _ Hb.
    apply lookup_lt_Some in Hb. rewrite length_app in Hb. simpl in Hb.
    unfold child in Hc. lia.
Qed.
Lemma siftup_loop_ok fuel heap endpos pos heap' pos' :
  siftup_loop lt fuel heap endpos pos = (heap', pos') →
  endpos = length heap → pos < length heap → endpos ≤ fuel + pos →
  hole_ok heap pos →
  hole_ok heap' pos' ∧ endpos ≤ 2 * pos' + 1.
Proof.
  revert heap pos. induction fuel as [|k IH];
    intros heap pos Heq -> Hpos Hfuel [Hh1 Hh2]; cbn [siftup_loop] in Heq.
  { lia. }
  case_decide as Hc; [|simplify_eq; split; [done|lia]].
  match type of Heq with context [siftup_loop _ _ _ _ ?c] => set (cp := c) in * end.
  assert (is_Some (heap !! cp)) as [c Hcv].
  { apply lookup_lt_is_Some_2. subst cp. repeat case_match; lia. }
  rewrite Hcv in Heq.
  assert (child pos cp ∧
          ∀ s sv, child pos s → heap !! s = Some sv → heap_le c sv) as [Hcp Hmin].
  { subst cp. unfold child.
    destruct (heap !! (2 * pos + 1)) as [l|] eqn:Hl;
      [|apply lookup_ge_None in Hl; lia].
    case_decide as Hr.
    - destruct (lookup_lt_is_Some_2 heap (2 * pos + 1 + 1) Hr) as [r Hrv].
      rewrite Hrv in Hcv |- *. destruct (lt l r) eqn:Hcmp; simplify_eq.
      + split; [lia|]. intros s sv [-> | ->] Hs; simplify_eq.
        * apply heap_le_refl.
        * replace (2 * pos + 2) with (2 * pos + 1 + 1) in Hs by lia.
          simplify_eq. by apply heap_le_of_lt.
      + split; [lia|]. intros s sv [-> | ->] Hs; simplify_eq.
        * done.
        * replace (2 * pos + 2) with (2 * pos + 1 + 1) in Hs by lia.
          simplify_eq. apply heap_le_refl.
    - simplify_eq. split; [lia|]. intros s sv [-> | ->] Hs; simplify_eq.
      + apply heap_le_refl.
      + apply lookup_lt_Some in Hs. lia. }
  assert (pos < cp) by (unfold child in Hcp; lia).
  pose proof (lookup_lt_Some _ _ _ Hcv).
  eapply (IH (<[pos:=c]> heap) cp);
    [done|by rewrite length_insert|rewrite length_insert; lia|lia|].
  split.
  - intros p ch a b Hch Hp Hne Ha Hb.
    ins Ha; ins Hb; simplify_eq.
    + unfold child in Hch. lia.
    + by eapply Hmin.
    + by eapply (Hh2 p cp).
    + by eapply (Hh1 p ch).
  - intros gp d a b Hg Hd Ha Hb.
    apply child_parent in Hg as [-> _]. apply child_parent in Hcp as [Hpp _].
    rewrite <-Hpp in Ha. rewrite list_lookup_insert_eq in Ha by done.
    rewrite list_lookup_insert_ne in Hb by (unfold child in Hd; lia).
    simplify_eq. eapply (Hh1 cp d); [done|lia|unfold child in Hd; lia|done..].
Qed.

Lemma siftup_ok heap : hole_ok heap 0 → heap_ok (siftup lt heap 0).
Proof.
  intros Hh. unfold siftup.
  destruct (heap !! 0) as [newitem|] eqn:Hn; [|by destruct heap].
  destruct (siftup_loop _ _ _ _ _) as [heap' pos'] eqn:Hl.
  pose proof (lookup_lt_Some _ _ _ Hn) as Hlen.
  destruct (siftup_loop_spec _ _ _ _ _ _ _ Hl eq_refl Hlen) as (Hlen' & Hpos' & _).
  apply siftup_loop_ok in Hl as [[Hh1 _] Hleaf]; [|done|done|lia|done].
  apply siftdown_ok. split.
  - intros p c a b Hc Hne Ha Hb.
    rewrite list_lookup_insert_ne in Hb by done.
    destruct (decide (p = pos')) as [->|Hp].
    + apply lookup_lt_Some in Hb. unfold child in Hc. lia.
    + rewrite list_lookup_insert_ne in Ha by done. by eapply Hh1.
  - intros gp c a b _ Hc _ Hb.
    apply lookup_lt_Some in Hb. rewrite length_insert in Hb.
    unfold child in Hc. lia.
Qed.

(** [heappop] hands out a least item and leaves a heap. *)
Lemma heappop_ok heap item heap' :
  heap_ok heap → heappop lt heap = Some (item, heap') →
  heap_ok heap' ∧ ∀ b, b ∈ heap' → heap_le item b.
Proof.
  intros Hok Hpop. pose proof (heappop_Permutation _ _ _ _ Hpop) as Hperm.
  split.
  - unfold heappop in Hpop.
    destruct (last heap) as [lastelt|] eqn:Hl; [|done].
    apply last_Some in Hl as [l ->]. rewrite removelast_snoc in Hpop.
    destruct l as [|r rest]; simplify_eq/=; [apply heap_ok_nil|].
    apply siftup_ok. split.
    + intros p c a b Hc Hp Hne Ha Hb.
      destruct p as [|p]; [done|]. destruct c as [|c]; [done|].
      simpl in Ha, Hb. apply (Hok (S p) (S c)); [done|..];
        simpl; by apply lookup_app_l_Some.
    + intros gp c a b Hg. unfold child in Hg. lia.
  - intros b Hb. apply (heap_ok_root heap); [done| |].
    + unfold heappop in Hpop.
      destruct (last heap) as [lastelt|] eqn:Hl; [|done].
      apply last_Some in Hl as [l ->]. rewrite removelast_snoc in Hpop.
      destruct l as [|r rest]; by simplify_eq/=.
    + rewrite Hperm. by right.
Qed.
End heapq_order.


(** * Facts about the grid *)

Lemma py_index_Ret {A} (l : list A) (i : Z) :
  0 ≤ i < Z.of_nat (length l) →
  ∃ a, py_index l i = Ret a ∧ l !! Z.to_nat i = Some a.
Proof.
  intros Hi. unfold py_index.
  destruct (Z.leb_spec 0 i); [|lia].
  destruct (Z.leb_spec 0 i); [|lia].
  destruct (Z.ltb_spec i (Z.of_nat (length l))); [|lia]. simpl.
  destruct (lookup_lt_is_Some_2 l (Z.to_nat i)) as [a Ha]; [lia|].
  rewrite Ha. eauto.
Qed.

Lemma rows_pos_width (grid : Grid) :
  0 < rows grid → cols grid = Ret (width grid).
Proof.
  unfold rows, cols, width. destruct grid as [|row grid]; simpl; [lia|done].
Qed.

Lemma cell_Ret (grid : Grid) (c : coord) :
  rect grid → in_bounds grid c → cell grid c = Ret (cost_at grid c).
Proof.
  intros Hrect [Hx Hy]. unfold cost_at, cell.
  destruct (py_index_Ret grid c.1 Hx) as (row & -> & Hrow). simpl.
  apply list_elem_of_lookup_2, Hrect in Hrow.
  destruct (py_index_Ret row c.2) as (v & -> & _); [lia|done].
Qed.

Lemma in_bounds_rows (grid : Grid) (c : coord) : in_bounds grid c → 0 < rows grid.
Proof. intros [? _]. lia. Qed.

Lemma in_bounds_test (grid : Grid) (x y : Z) :
  (0 <=? x) && (x <? rows grid) && (0 <=? y) && (y <? width grid)
  = bool_decide (in_bounds grid (x, y)).
Proof.
  unfold in_bounds. simpl. case_bool_decide as H.
  - destruct H as [[??] [??]].
    repeat (apply andb_true_intro; split); by (apply Z.leb_le || apply Z.ltb_lt).
  - apply not_true_is_false. intros Ht. apply H.
    repeat (apply andb_prop in Ht as [Ht ?]).
    repeat split; by (apply Z.leb_le || apply Z.ltb_lt).
Qed.

Lemma adjacent_shift (u v : coord) :
  adjacent u v ↔ v ∈ shift u <$> possible_moves.
Proof.
  unfold adjacent, possible_moves, shift. destruct u as [ux uy], v as [vx vy]. simpl.
  rewrite !elem_of_cons, elem_of_nil. split.
  - intros H.
    assert ((vx = ux ∧ vy = uy + 1) ∨ (vx = ux ∧ vy = uy + -1) ∨
            (vx = ux + 1 ∧ vy = uy) ∨ (vx = ux + -1 ∧ vy = uy)) as Hc by lia.
    destruct Hc as [[-> ->]|[[-> ->]|[[-> ->]|[-> ->]]]];
      rewrite ?Z.add_0_r; auto 6.
  - intros [?|[?|[?|[?|[]]]]]; simplify_eq; lia.
Qed.

Lemma elem_of_neighbors_of (grid : Grid) (u v : coord) :
  v ∈ neighbors_of grid u ↔ adjacent u v ∧ passable grid v.
Proof.
  unfold neighbors_of. rewrite list_elem_of_filter, adjacent_shift. tauto.
Qed.

Lemma length_neighbors_of (grid : Grid) (u : coord) :
  (length (neighbors_of grid u) ≤ 4)%nat.
Proof. unfold neighbors_of. by rewrite length_filter. Qed.

(** [get_neighbors] creates a fresh node for each enterable neighbour. *)
Lemma get_neighbors_loop_spec (grid : Grid) (x y : Z) moves neighbors :
  rect grid →
  get_neighbors_loop grid (rows grid) (width grid) x y moves neighbors =
  Ret (neighbors ++
       ((λ c, Node.new c.1 c.2 (cost_at grid c)) <$>
          filter (passable grid) (shift (x, y) <$> moves))).
Proof.
  intros Hrect. revert neighbors.
  induction moves as [|[dx dy] moves IH]; intros neighbors; simpl.
  { by rewrite app_nil_r. }
  change (shift (x, y) (dx, dy)) with (x + dx, y + dy).
  rewrite (in_bounds_test grid (x + dx) (y + dy)).
  case_bool_decide as Hb.
  - rewrite cell_Ret by done. simpl.
    case_bool_decide as Hp.
    + rewrite filter_cons_True by done. rewrite IH. simpl.
      by rewrite <-app_assoc.
    + rewrite filter_cons_False by (intros [_ ?]; done). by rewrite IH.
  - rewrite filter_cons_False by (intros [? _]; done). by rewrite IH.
Qed.

Lemma get_neighbors_spec (grid : Grid) (node : Node) :
  rect grid → 0 < rows grid →
  get_neighbors grid node =
  Ret ((λ c, Node.new c.1 c.2 (cost_at grid c)) <$> neighbors_of grid (Node.xy node)).
Proof.
  intros Hrect Hrows. unfold get_neighbors.
  rewrite rows_pos_width by done. unfold obind.
  by rewrite get_neighbors_loop_spec.
Qed.


(** * The order on nodes and on queue entries *)

Lemma num_lt_asym (a b : num) : num_lt a b = true → num_lt b a = false.
Proof. destruct a, b; simpl; try done. intros ?%Z.ltb_lt. apply Z.ltb_ge. lia. Qed.

Lemma num_le_trans (a b c : num) :
  num_lt b a = false → num_lt c b = false → num_lt c a = false.
Proof.
  destruct a, b, c; simpl; try done.
  intros ?%Z.ltb_ge ?%Z.ltb_ge. apply Z.ltb_ge. lia.
Qed.

Lemma Node_lt_asym (a b : Node) : Node.lt a b = true → Node.lt b a = false.
Proof. apply num_lt_asym. Qed.

Lemma Node_le_trans (a b c : Node) :
  heap_le Node.lt a b → heap_le Node.lt b c → heap_le Node.lt a c.
Proof. apply num_le_trans. Qed.

Lemma entry_lt_spec (a b : entry) :
  entry_lt a b = true ↔
  a.1 < b.1 ∨ (a.1 = b.1 ∧ (a.2.1 < b.2.1 ∨ (a.2.1 = b.2.1 ∧ a.2.2 < b.2.2))).
Proof.
  unfold entry_lt. repeat case_bool_decide; rewrite Z.ltb_lt; lia.
Qed.

Lemma entry_lt_asym (a b : entry) : entry_lt a b = true → entry_lt b a = false.
Proof.
  intros H%entry_lt_spec. apply not_true_is_false. intros H'%entry_lt_spec. lia.
Qed.

Lemma entry_le_trans (a b c : entry) :
  heap_le entry_lt a b → heap_le entry_lt b c → heap_le entry_lt a c.
Proof.
  unfold heap_le. intros H1%not_true_iff_false H2%not_true_iff_false.
  apply not_true_is_false. rewrite entry_lt_spec in *. lia.
Qed.

Lemma entry_le_cost (a b : entry) : heap_le entry_lt a b → a.1 ≤ b.1.
Proof.
  unfold heap_le. intros H%not_true_iff_false. rewrite entry_lt_spec in H. lia.
Qed.

(** * Pushing a batch of items *)

Section push_all.
Context {A : Type} (lt : A → A → bool).

Lemma push_all_Permutation (heap items : list A) :
  foldl (heappush lt) heap items ≡ₚ heap ++ items.
Proof.
  revert heap. induction items as [|x items IH]; intros heap; simpl.
  { by rewrite app_nil_r. }
  rewrite IH, heappush_Permutation. simpl. apply Permutation_middle.
Qed.

Lemma push_all_ok (heap items : list A) :
  (∀ a b, lt a b = true → lt b a = false) →
  (∀ a b c, heap_le lt a b → heap_le lt b c → heap_le lt a c) →
  heap_ok lt heap → heap_ok lt (foldl (heappush lt) heap items).
Proof.
  intros Hasym Htrans. revert heap.
  induction items as [|x items IH]; intros heap Hok; simpl; [done|].
  apply IH. by apply heappush_ok.
Qed.
End push_all.

(** * One pass of the engine *)

Lemma relax_correct_fold (grid : Grid) (end_ : coord) (cur : Node)
    (closed : gset coord) (open_set : list Node) (cs : list coord) (k : Z) :
  Node.g cur = Fin k →
  foldl (relax_correct end_ cur closed) open_set
    ((λ c, Node.new c.1 c.2 (cost_at grid c)) <$> cs)
  = foldl (heappush Node.lt) open_set
      (expand grid end_ cur <$> filter (λ c, c ∉ closed) cs).
Proof.
  intros Hg. revert open_set.
  induction cs as [|[x y] cs IH]; intros open_set; [done|].
  rewrite fmap_cons. cbn [foldl]. rewrite IH.
  unfold relax_correct at 1. cbn [Node.xy Node.new Node.x Node.y Node.g Node.cost fst snd].
  case_decide as Hin.
  - by rewrite filter_cons_False by (intros ?; done).
  - rewrite filter_cons_True by done. rewrite fmap_cons. cbn [foldl].
    unfold expand. rewrite Hg. reflexivity.
Qed.

Lemma astar_body_correct_eq (grid : Grid) (end_ : coord) (open_set : list Node)
    (closed : gset coord) :
  rect grid → 0 < rows grid →
  (∀ n, n ∈ open_set → ∃ k, Node.g n = Fin k) →
  astar_body relax_correct grid end_ (open_set, closed) =
  match heappop Node.lt open_set with
  | None => Done (None, Inf)
  | Some (cur, rest) =>
      if bool_decide (Node.xy cur = end_)
      then Done (Some (get_path cur), Node.g cur)
      else
        let closed' := closed ∪ {[Node.xy cur]} in
        Next (foldl (heappush Node.lt) rest
                (expand grid end_ cur <$>
                   filter (λ c, c ∉ closed') (neighbors_of grid (Node.xy cur))),
              closed')
  end.
Proof.
  intros Hrect Hrows Hg. unfold astar_body. cbn [fst snd].
  destruct (heappop Node.lt open_set) as [[cur rest]|] eqn:Hpop; [|done].
  case_bool_decide; [done|].
  rewrite get_neighbors_spec by done.
  destruct (Hg cur) as [k Hk].
  { rewrite (heappop_Permutation _ _ _ _ Hpop). by left. }
  by rewrite (relax_correct_fold _ _ _ _ _ _ k).
Qed.

(** The same pass, seen through what it does to the contents of the
    open set. *)
Lemma astar_body_correct_Next (grid : Grid) (end_ : coord) (open_set : list Node)
    (closed : gset coord) (st' : astar_state) :
  rect grid → 0 < rows grid →
  (∀ n, n ∈ open_set → ∃ k, Node.g n = Fin k) →
  astar_body relax_correct grid end_ (open_set, closed) = Next st' →
  ∃ cur rest,
    open_set ≡ₚ cur :: rest ∧
    Node.xy cur ≠ end_ ∧
    st'.2 = closed ∪ {[Node.xy cur]} ∧
    st'.1 ≡ₚ rest ++ (expand grid end_ cur <$>
                       filter (λ c, c ∉ st'.2) (neighbors_of grid (Node.xy cur))) ∧
    (heap_ok Node.lt open_set →
       heap_ok Node.lt st'.1 ∧ ∀ m, m ∈ rest → heap_le Node.lt cur m).
Proof.
  intros Hrect Hrows Hg. rewrite astar_body_correct_eq by done.
  destruct (heappop Node.lt open_set) as [[cur rest]|] eqn:Hpop; [|done].
  case_bool_decide as Hend; [done|]. intros [= <-]. cbn [fst snd].
  exists cur, rest. split_and!; [by apply (heappop_Permutation Node.lt)|done|done| |].
  - apply push_all_Permutation.
  - intros Hok.
    destruct (heappop_ok _ Node_lt_asym Node_le_trans _ _ _ Hok Hpop) as [Hok' Hmin].
    split; [|done].
    apply push_all_ok; [apply Node_lt_asym|apply Node_le_trans|done].
Qed.

Lemma astar_body_correct_Done (grid : Grid) (end_ : coord) (open_set : list Node)
    (closed : gset coord) (r : result) :
  rect grid → 0 < rows grid →
  (∀ n, n ∈ open_set → ∃ k, Node.g n = Fin k) →
  astar_body relax_correct grid end_ (open_set, closed) = Done r →
  (open_set = [] ∧ r = (None, Inf)) ∨
  ∃ cur rest,
    open_set ≡ₚ cur :: rest ∧ Node.xy cur = end_ ∧
    r = (Some (get_path cur), Node.g cur) ∧
    (heap_ok Node.lt open_set → ∀ m, m ∈ rest → heap_le Node.lt cur m).
Proof.
  intros Hrect Hrows Hg. rewrite astar_body_correct_eq by done.
  destruct (heappop Node.lt open_set) as [[cur rest]|] eqn:Hpop.
  - case_bool_decide as Hend; [|done]. intros [= <-]. right.
    exists cur, rest. split_and!; [by apply (heappop_Permutation Node.lt)|done..|].
    intros Hok. by destruct (heappop_ok _ Node_lt_asym Node_le_trans _ _ _ Hok Hpop).
  - intros [= <-]. left. split; [|done]. by apply (heappop_None Node.lt).
Qed.

Lemma astar_body_correct_no_Throw (grid : Grid) (end_ : coord) (open_set : list Node)
    (closed : gset coord) :
  rect grid → 0 < rows grid →
  (∀ n, n ∈ open_set → ∃ k, Node.g n = Fin k) →
  astar_body relax_correct grid end_ (open_set, closed) ≠ Throw.
Proof.
  intros Hrect Hrows Hg. rewrite astar_body_correct_eq by done.
  destruct (heappop Node.lt open_set) as [[cur rest]|]; [|done].
  by case_bool_decide.
Qed.

(** * Nodes and the paths they stand for *)

Section chains.
Context (grid : Grid) (start : coord).

Lemma chain_walk n :
  chain grid start n → ∃ k, Node.g n = Fin k ∧ walk grid start (Node.xy n) k.
Proof.
  induction 1 as [n Hxy Hg _|p n _ (k & Hk & Hw) Hadj Hpass _ Hg].
  - exists 0. rewrite Hxy. split; [done|constructor].
  - exists (k + cost_at grid (Node.xy n)). rewrite Hg, Hk. split; [done|].
    by econstructor.
Qed.

Lemma chain_in_bounds n :
  in_bounds grid start → chain grid start n → in_bounds grid (Node.xy n).
Proof. intros Hs [n' <- _ _|p n' _ _ [? _] _ _]; done. Qed.

Lemma chain_path n :
  chain grid start n → path_from grid start (get_path n) (Node.xy n).
Proof.
  unfold get_path.
  induction 1 as [n Hxy _ Hp|p n _ IH Hadj Hpass Hp _].
  - destruct n; simpl in *. rewrite Hp. simpl. rewrite <-Hxy. constructor.
  - destruct n; simpl in *. rewrite Hp. rewrite reverse_cons.
    by econstructor.
Qed.

Lemma chain_expand end_ p c :
  chain grid start p → c ∈ neighbors_of grid (Node.xy p) →
  chain grid start (expand grid end_ p c).
Proof.
  intros Hp [Hadj Hpass]%elem_of_neighbors_of. destruct c as [x y].
  by eapply chain_step.
Qed.

Lemma nodes_ok_step end_ st st' :
  rect grid → 0 < rows grid →
  nodes_ok grid start st →
  astar_body relax_correct grid end_ st = Next st' →
  nodes_ok grid start st'.
Proof.
  intros Hrect Hrows Hok Hb. destruct st as [open_set closed].
  apply astar_body_correct_Next in Hb
    as (cur & rest & Hperm & _ & _ & Hperm' & _); [|done..|].
  2:{ intros n Hn. destruct (chain_walk n (Hok n Hn)) as (k & ? & _). eauto. }
  intros n. rewrite Hperm'. intros [Hn|Hn]%elem_of_app.
  - apply Hok. simpl. rewrite Hperm. by right.
  - apply list_elem_of_fmap in Hn as (c & -> & [_ Hc]%list_elem_of_filter).
    apply chain_expand; [|done]. apply Hok. simpl. rewrite Hperm. by left.
Qed.
End chains.

Lemma path_from_facts grid s p v :
  path_from grid s p v →
  head p = Some s ∧ last p = Some v ∧
  (∀ i a b, p !! i = Some a → p !! S i = Some b → adjacent a b) ∧
  (∀ i a, p !! S i = Some a → passable grid a).
Proof.
  induction 1 as [|p u v Hp (Hh & Hl & Hadj & Hpass) Huv Hv].
  - split_and!; [done..| |]; intros [|i]; done.
  - assert (p ≠ []) as Hne by (intros ->; done).
    apply last_Some in Hl as [q ->].
    split_and!.
    + by destruct q.
    + by rewrite last_snoc.
    + intros i a b Ha Hb.
      destruct (decide (S i < length (q ++ [u]))%nat) as [Hlt|Hge].
      * rewrite lookup_app_l in Ha by lia. rewrite lookup_app_l in Hb by lia.
        by eapply Hadj.
      * apply lookup_lt_Some in Hb as Hb'. rewrite !length_app in *. simpl in *.
        assert (i = length q) as -> by lia.
        rewrite lookup_app_l in Ha by (rewrite length_app; simpl; lia).
        rewrite list_lookup_middle in Ha by done.
        rewrite lookup_app_r in Hb by (rewrite length_app; simpl; lia).
        rewrite length_app in Hb. simpl in Hb.
        replace (S (length q) - (length q + 1))%nat with 0%nat in Hb by lia.
        by simplify_eq/=.
    + intros i a Ha.
      destruct (decide (S i < length (q ++ [u]))%nat) as [Hlt|Hge].
      * rewrite lookup_app_l in Ha by lia. by eapply Hpass.
      * apply lookup_lt_Some in Ha as Ha'. rewrite !length_app in *. simpl in *.
        rewrite lookup_app_r in Ha by (rewrite length_app; simpl; lia).
        rewrite length_app in Ha. simpl in Ha.
        replace (S i - (length q + 1))%nat with 0%nat in Ha by lia.
        by simplify_eq/=.
Qed.


(** * Termination of the engine *)

Lemma elem_of_all_coords (grid : Grid) (c : coord) :
  c ∈ all_coords grid ↔ in_bounds grid c.
Proof.
  unfold all_coords, in_bounds. rewrite elem_of_list_to_set, list_elem_of_bind.
  destruct c as [x y]. simpl. split.
  - intros (x' & Hy & Hx). apply list_elem_of_fmap in Hy as (y' & [= -> ->] & Hy).
    apply elem_of_seqZ in Hx, Hy. lia.
  - intros [Hx Hy]. exists x. split; [|apply elem_of_seqZ; lia].
    apply list_elem_of_fmap. exists y. split; [done|]. apply elem_of_seqZ. lia.
Qed.

Section sums.
Local Open Scope nat_scope.

Lemma sum_list_with_le {A} (f g : A → nat) (l : list A) :
  (∀ a, a ∈ l → f a ≤ g a) → sum_list_with f l ≤ sum_list_with g l.
Proof.
  induction l as [|a l IH]; intros H; cbn [sum_list_with]; [done|].
  pose proof (H a ltac:(left)).
  assert (sum_list_with f l ≤ sum_list_with g l); [|lia].
  apply IH. intros b Hb. apply H. by right.
Qed.

Lemma sum_list_with_bound {A} (f : A → nat) (l : list A) (b : nat) :
  (∀ a, a ∈ l → f a ≤ b) → sum_list_with f l ≤ length l * b.
Proof.
  induction l as [|a l IH]; intros H; cbn [sum_list_with length]; [done|].
  pose proof (H a ltac:(left)).
  assert (sum_list_with f l ≤ length l * b); [|lia].
  apply IH. intros c Hc. apply H. by right.
Qed.

Lemma open_cells_close (grid : Grid) (closed : gset coord) (c : coord) :
  in_bounds grid c → c ∉ closed →
  open_cells grid closed = S (open_cells grid (closed ∪ {[c]})).
Proof.
  intros Hc Hn. unfold open_cells.
  assert (all_coords grid ∖ closed = {[c]} ∪ all_coords grid ∖ (closed ∪ {[c]}))
    as ->.
  { apply set_eq. intros d. pose proof (elem_of_all_coords grid c).
    destruct (decide (d = c)) as [->|]; set_solver. }
  rewrite size_union by set_solver. by rewrite size_singleton.
Qed.

Lemma astar_measure_decreases (grid : Grid) (start end_ : coord)
    (st st' : astar_state) :
  rect grid → in_bounds grid start →
  nodes_ok grid start st →
  astar_body relax_correct grid end_ st = Next st' →
  astar_measure grid st' < astar_measure grid st.
Proof.
  intros Hrect Hstart Hok Hb. destruct st as [open_set closed].
  pose proof (in_bounds_rows _ _ Hstart) as Hrows.
  apply astar_body_correct_Next in Hb
    as (cur & rest & Hperm & _ & Hcl & Hperm' & _); [|done..|].
  2:{ intros n Hn. destruct (chain_walk _ _ n (Hok n Hn)) as (k & ? & _). eauto. }
  destruct st' as [open_set' closed']. simpl in *. subst closed'.
  unfold astar_measure. cbn [fst snd]. rewrite Hperm, Hperm'.
  rewrite sum_list_with_app. cbn [sum_list_with].
  set (pushed := expand grid end_ cur <$> _).
  assert (length pushed ≤ 4) as Hlen.
  { subst pushed. rewrite length_fmap.
    etrans; [apply length_filter|]. apply length_neighbors_of. }
  set (closed' := closed ∪ {[Node.xy cur]}) in *.
  assert (sum_list_with (weight grid closed') pushed
          ≤ length pushed * 5 ^ open_cells grid closed') as Hpushed.
  { apply sum_list_with_bound. intros n Hn. subst pushed.
    apply list_elem_of_fmap in Hn as ([x y] & -> & [Hc _]%list_elem_of_filter).
    unfold weight. cbn [expand Node.xy Node.x Node.y fst snd].
    rewrite decide_False by done. by rewrite Nat.add_0_r. }
  assert (in_bounds grid (Node.xy cur)) as Hcur.
  { eapply chain_in_bounds; [done|]. apply Hok. simpl. rewrite Hperm. by left. }
  pose proof (Nat.pow_nonzero 5 (open_cells grid closed') ltac:(lia)).
  destruct (decide (Node.xy cur ∈ closed)) as [Hin|Hin].
  - assert (closed' = closed) as Heq by set_solver.
    clearbody closed'. subst closed'.
    unfold weight at 3. rewrite decide_True by done.
    rewrite Nat.pow_add_r. change (5 ^ 1) with 5. nia.
  - assert (sum_list_with (weight grid closed') rest
            ≤ sum_list_with (weight grid closed) rest) as Hrest.
    { apply sum_list_with_le. intros n _. unfold weight.
      rewrite (open_cells_close grid closed (Node.xy cur)) by done. fold closed'.
      apply Nat.pow_le_mono_r; [lia|]. repeat case_decide; lia. }
    unfold weight at 3. rewrite decide_False by done.
    rewrite (open_cells_close grid closed (Node.xy cur)) by done. fold closed'.
    rewrite Nat.add_0_r. rewrite Nat.pow_succ_r'. nia.
Qed.
End sums.

Lemma start_node_Ret (grid : Grid) (start : coord) :
  rect grid → in_bounds grid start →
  ∃ s, start_node grid start = Ret s ∧ chain grid start s ∧
       Node.parent s = None ∧ Node.g s = Fin 0 ∧ Node.f s = Fin 0.
Proof.
  intros Hrect Hs. unfold start_node. rewrite cell_Ret by done. simpl.
  eexists. split; [done|]. split_and!; [|done..].
  apply chain_start; [by destruct start|done..].
Qed.

Lemma nodes_ok_init (grid : Grid) (start : coord) (s : Node) :
  chain grid start s → nodes_ok grid start ([s], ∅).
Proof. by intros Hs n ->%list_elem_of_singleton. Qed.

Lemma nodes_ok_Fin (grid : Grid) (start : coord) (st : astar_state) :
  nodes_ok grid start st → ∀ n, n ∈ st.1 → ∃ k, Node.g n = Fin k.
Proof.
  intros Hok n Hn. destruct (chain_walk _ _ n (Hok n Hn)) as (k & ? & _). eauto.
Qed.

(** The engine always returns: it neither raises nor runs forever. *)
Lemma astar_correct_returns (grid : Grid) (start end_ : coord) :
  rect grid → in_bounds grid start →
  ∃ r, returns (λ fuel, astar_correct fuel grid start end_) r.
Proof.
  intros Hrect Hstart. pose proof (in_bounds_rows _ _ Hstart) as Hrows.
  destruct (start_node_Ret grid start Hrect Hstart) as (s & Hs & Hch & _).
  destruct (while_term (astar_body relax_correct grid end_)
              (nodes_ok grid start) (astar_measure grid) ([s], ∅))
    as [r Hr].
  { intros st st' Hok Hb. split.
    - by eapply nodes_ok_step.
    - by eapply astar_measure_decreases. }
  { by apply nodes_ok_init. }
  destruct (while_inv _ (nodes_ok grid start) _ _ _
              (λ st st' Hok Hb, nodes_ok_step grid start end_ st st' Hrect Hrows Hok Hb)
              (nodes_ok_init _ _ _ Hch) Hr)
    as ([open_set closed] & Hok & [(r0 & _ & ->)|[Hthrow _]]).
  - exists r0, (S (astar_measure grid ([s], ∅))).
    unfold astar_correct, astar. by rewrite Hs.
  - exfalso. eapply astar_body_correct_no_Throw; [done..| |done].
    by apply (nodes_ok_Fin grid start (open_set, closed)).
Qed.


(** * What the engine returns *)

Lemma xy_expand (grid : Grid) (end_ : coord) (p : Node) (c : coord) :
  Node.xy (expand grid end_ p c) = c.
Proof. by destruct c. Qed.

Lemma explored_init (grid : Grid) (start end_ : coord) (s : Node) :
  Node.xy s = start → explored grid start end_ ([s], ∅).
Proof.
  intros Hs. split_and!; [set_solver| |set_solver].
  right. exists s. split; [by left|done].
Qed.

Lemma explored_step (grid : Grid) (start end_ : coord) (st st' : astar_state) :
  rect grid → 0 < rows grid →
  nodes_ok grid start st → explored grid start end_ st →
  astar_body relax_correct grid end_ st = Next st' →
  explored grid start end_ st'.
Proof.
  intros Hrect Hrows Hok (Hend & Hstart & Hadj) Hb.
  destruct st as [open_set closed]. destruct st' as [open_set' closed'].
  apply astar_body_correct_Next in Hb
    as (cur & rest & Hperm & Hne & Hcl & Hperm' & _);
    [|done..|by apply (nodes_ok_Fin grid start (open_set, closed))].
  simpl in *.
  assert (∀ v, seen (open_set, closed) v → seen (open_set', closed') v) as Hmono.
  { intros v [Hv|(n & Hn & Hv)]; [left; set_solver|].
    simpl in Hn. rewrite Hperm in Hn. apply elem_of_cons in Hn as [->|Hn].
    - left. set_solver.
    - right. exists n. split; [|done]. simpl. rewrite Hperm'. set_solver. }
  split_and!; [set_solver|by apply Hmono|].
  intros u v Hu Huv Hv. simpl in Hu. rewrite Hcl in Hu.
  apply elem_of_union in Hu as [Hu|Hu]; [|apply elem_of_singleton in Hu as ->].
  { apply Hmono. by eapply Hadj. }
  destruct (decide (v ∈ closed')) as [Hin|Hin]; [by left|].
  right. exists (expand grid end_ cur v). split; [|apply xy_expand].
  simpl. rewrite Hperm'. apply elem_of_app. right.
  apply list_elem_of_fmap. exists v. split; [done|].
  apply list_elem_of_filter. split; [done|]. by apply elem_of_neighbors_of.
Qed.

(** With the open set exhausted, everything reachable has been closed. *)
Lemma explored_exhausted (grid : Grid) (start end_ : coord) (closed : gset coord) :
  explored grid start end_ ([], closed) → ¬ reachable grid start end_.
Proof.
  intros (Hend & Hstart & Hadj) [k Hw]. apply Hend. simpl.
  assert (∀ v, seen ([], closed) v → v ∈ closed) as Hseen.
  { intros v [?|(n & Hn & _)]; [done|]. by apply elem_of_nil in Hn. }
  clear Hend. induction Hw as [|u v k _ IH Huv Hv]; [by apply Hseen|].
  apply Hseen. by eapply Hadj.
Qed.

Lemma astar_correct_spec (grid : Grid) (start end_ : coord) (r : result) :
  rect grid → in_bounds grid start →
  returns (λ fuel, astar_correct fuel grid start end_) r →
  (r = (None, Inf) ∧ ¬ reachable grid start end_) ∨
  (∃ n, chain grid start n ∧ Node.xy n = end_ ∧
        r = (Some (get_path n), Node.g n)).
Proof.
  intros Hrect Hstart [fuel Hr]. pose proof (in_bounds_rows _ _ Hstart) as Hrows.
  destruct (start_node_Ret grid start Hrect Hstart) as (s & Hs & Hch & _).
  unfold astar_correct, astar in Hr. rewrite Hs in Hr.
  destruct (while_inv (astar_body relax_correct grid end_)
              (λ st, nodes_ok grid start st ∧ explored grid start end_ st)
              fuel ([s], ∅) (Ret r))
    as ([open_set closed] & [Hok Hex] & [(r0 & Hb & [= <-])|[_ [=]]]); [| |done|].
  { intros st st' [Hok Hex] Hb. split.
    - by eapply nodes_ok_step.
    - by eapply explored_step. }
  { split; [by apply nodes_ok_init|]. apply explored_init.
    unfold start_node in Hs. rewrite cell_Ret in Hs by done.
    simpl in Hs. injection Hs as <-. by destruct start. }
  apply astar_body_correct_Done in Hb
    as [[-> ->]|(cur & rest & Hperm & Hxy & -> & _)];
    [| |done..|by apply (nodes_ok_Fin grid start (open_set, closed))].
  - left. split; [done|]. by eapply explored_exhausted.
  - right. exists cur. split_and!; [|done..]. apply Hok. simpl.
    rewrite Hperm. by left.
Qed.

Lemma astar_mono relax (grid : Grid) (start end_ : coord) (n m : nat) r :
  astar relax n grid start end_ = Some r → (n ≤ m)%nat →
  astar relax m grid start end_ = Some r.
Proof.
  unfold astar. destruct (start_node grid start); [|done].
  apply while_mono.
Qed.


(** * One pass of the oracle *)

Lemma oracle_moves_spec (grid : Grid) (cost x y : Z) (moves : list coord)
    (st : oracle_state) :
  rect grid →
  oracle_moves grid cost x y moves st =
  Ret (foldl (oracle_relax grid cost) st
         (filter (passable grid) (shift (x, y) <$> moves))).
Proof.
  intros Hrect. revert st.
  induction moves as [|[dx dy] moves IH]; intros st; [done|].
  cbn [oracle_moves]. rewrite fmap_cons.
  change (shift (x, y) (dx, dy)) with (x + dx, y + dy).
  destruct ((0 <=? x + dx) && (x + dx <? rows grid)) eqn:Hx.
  - apply andb_prop in Hx as [Hx1%Z.leb_le Hx2%Z.ltb_lt].
    rewrite rows_pos_width by lia. cbn [obind].
    destruct ((0 <=? y + dy) && (y + dy <? width grid)) eqn:Hy.
    + apply andb_prop in Hy as [Hy1%Z.leb_le Hy2%Z.ltb_lt].
      assert (in_bounds grid (x + dx, y + dy)) as Hin by (split; simpl; lia).
      rewrite cell_Ret by done. cbn [obind].
      case_bool_decide as Hp.
      * rewrite filter_cons_True by done. cbn [foldl].
        unfold oracle_relax at 2. cbv zeta.
        destruct (num_lt _ _); by rewrite IH.
      * rewrite filter_cons_False by (intros [_ ?]; done). by rewrite IH.
    + rewrite filter_cons_False; [by rewrite IH|].
      intros [[_ [??]] _]. simpl in *.
      apply andb_false_iff in Hy as [?%Z.leb_gt|?%Z.ltb_ge]; lia.
  - rewrite filter_cons_False; [by rewrite IH|].
    intros [[[??] _] _]. simpl in *.
    apply andb_false_iff in Hx as [?%Z.leb_gt|?%Z.ltb_ge]; lia.
Qed.

Lemma oracle_body_eq (grid : Grid) (end_ : coord) (st : oracle_state) :
  rect grid →
  oracle_body grid end_ st =
  match heappop entry_lt st.1 with
  | None => Done Inf
  | Some ((cost, c), queue) =>
      if bool_decide (c = end_) then Done (Fin cost)
      else Next (foldl (oracle_relax grid cost) (queue, st.2) (neighbors_of grid c))
  end.
Proof.
  intros Hrect. unfold oracle_body.
  destruct (heappop entry_lt st.1) as [[[cost [x y]] queue]|]; [|done].
  destruct (bool_decide _); [done|]. by rewrite oracle_moves_spec.
Qed.

(** What relaxing a batch of neighbours does to the queue and to
    [visited]. *)
Lemma oracle_relax_all (grid : Grid) (cost : Z) (cs : list coord)
    (st : oracle_state) :
  let st' := foldl (oracle_relax grid cost) st cs in
  ∃ pushed,
    st'.1 ≡ₚ st.1 ++ pushed ∧
    (heap_ok entry_lt st.1 → heap_ok entry_lt st'.1) ∧
    (∀ e, e ∈ pushed →
       e.2 ∈ cs ∧ e.1 = cost + cost_at grid e.2 ∧
       num_lt (Fin e.1) (visited_get st.2 e.2) = true ∧
       st'.2 !! e.2 = Some e.1) ∧
    (∀ c, st'.2 !! c = st.2 !! c ∨
          ((cost + cost_at grid c, c) ∈ pushed ∧
           st'.2 !! c = Some (cost + cost_at grid c))) ∧
    (∀ c, c ∈ cs → ∃ v, st'.2 !! c = Some v ∧ v ≤ cost + cost_at grid c).
Proof.
  revert st. induction cs as [|c cs IH]; intros st; simpl.
  { exists []. rewrite app_nil_r. split_and!; try done; [|auto|].
    - by intros e ?%elem_of_nil.
    - by intros c ?%elem_of_nil. }
  destruct (IH (oracle_relax grid cost st c)) as (pushed & Hq & Hok & Hp & Hv & Hc).
  set (st' := foldl _ _ cs) in *. clearbody st'.
  assert (∀ d w, (oracle_relax grid cost st c).2 !! d = Some w →
            w = cost + cost_at grid d →
            st'.2 !! d = Some w) as Hstable.
  { intros d w Hd ->. destruct (Hv d) as [->|[_ ?]]; done. }
  unfold oracle_relax in *. destruct st as [q vis]. cbn [fst snd] in *.
  destruct (num_lt _ _) eqn:Hlt; cbn [fst snd] in *.
  - exists ((cost + cost_at grid c, c) :: pushed). split_and!.
    + rewrite Hq, heappush_Permutation. simpl. apply Permutation_middle.
    + intros H. apply Hok.
      by apply heappush_ok; [apply entry_lt_asym|apply entry_le_trans|].
    + intros e [->|He]%elem_of_cons; cbn [fst snd].
      * split_and!; [by left|done|done|].
        apply Hstable; [apply lookup_insert_eq|done].
      * destruct (Hp e He) as (Hin & Hcost & Hnum & Hl).
        split_and!; [by right|done| |done].
        destruct (decide (e.2 = c)) as [Heq|Hne].
        -- rewrite Hcost, Heq. done.
        -- unfold visited_get in *. by rewrite lookup_insert_ne in Hnum.
    + intros d. destruct (decide (d = c)) as [->|Hne].
      * right. split; [by left|]. apply Hstable; [apply lookup_insert_eq|done].
      * destruct (Hv d) as [Hd|[Hd1 Hd2]].
        -- left. by rewrite Hd, lookup_insert_ne.
        -- right. split; [by right|done].
    + intros d [->|Hd]%elem_of_cons; [|by apply Hc].
      eexists. split; [|reflexivity].
      apply Hstable; [apply lookup_insert_eq|done].
  - exists pushed. split_and!; [done..| | |].
    + intros e He. destruct (Hp e He) as (? & ? & ? & ?). split_and!; [by right|done..].
    + done.
    + intros d [->|Hd]%elem_of_cons; [|by apply Hc].
      unfold visited_get in Hlt.
      destruct (vis !! c) as [v|] eqn:Hvc; [|done]. simpl in Hlt.
      apply Z.ltb_ge in Hlt.
      destruct (Hv c) as [Hd|[_ Hd]]; rewrite Hd.
      * exists v. split; [done|lia].
      * eexists. split; [done|lia].
Qed.

Lemma visited_get_Some (vis : gmap coord Z) (c : coord) (k v : Z) :
  num_lt (Fin k) (visited_get vis c) = true → vis !! c = Some v → k < v.
Proof. unfold visited_get. intros H Hv. rewrite Hv in H. by apply Z.ltb_lt. Qed.


(** * The oracle's invariant *)

Lemma costs_ge_passable (lo : Z) (grid : Grid) (c : coord) :
  rect grid → costs_ge lo grid → passable grid c → lo ≤ cost_at grid c.
Proof.
  intros Hrect Hge [[Hx Hy] Hne]. unfold cost_at, cell in *.
  destruct (py_index_Ret grid c.1 Hx) as (row & Hr & Hrow). rewrite Hr in *.
  simpl in *. apply list_elem_of_lookup_2 in Hrow.
  destruct (py_index_Ret row c.2) as (v & Hv & Hcell).
  { rewrite (Hrect row Hrow). lia. }
  rewrite Hv in *. apply list_elem_of_lookup_2 in Hcell.
  destruct (Hge row v Hrow Hcell); [done|lia].
Qed.

Lemma walk_nonneg (grid : Grid) (s v : coord) (k : Z) :
  rect grid → costs_ge 0 grid → walk grid s v k → 0 ≤ k.
Proof.
  intros Hrect Hge. induction 1 as [|u v k _ IH _ Hv]; [done|].
  pose proof (costs_ge_passable 0 grid v Hrect Hge Hv). lia.
Qed.

Section oracle.
Context (grid : Grid) (start end_ : coord).
Context (Hrect : rect grid).

Lemma oracle_inv_init :
  oracle_inv grid start end_ ([(0, start)], {[start := 0]}).
Proof.
  split_and!; simpl.
  - apply heap_ok_singleton.
  - exists 0. by rewrite lookup_singleton_eq.
  - intros e ->%list_elem_of_singleton. simpl. split; [constructor|].
    exists 0. by rewrite lookup_singleton_eq.
  - intros c v [<- <-]%lookup_singleton_Some. split; [constructor|].
    left. by apply list_elem_of_singleton.
Qed.

Lemma oracle_inv_step (st st' : oracle_state) :
  oracle_inv grid start end_ st →
  oracle_body grid end_ st = Next st' →
  oracle_inv grid start end_ st'.
Proof.
  intros (Hheap & Hstart & Hq & Hvis). rewrite oracle_body_eq by done.
  destruct (heappop entry_lt st.1) as [[[k u] rest]|] eqn:Hpop; [|done].
  case_bool_decide as Hend; [done|]. intros [= <-].
  pose proof (heappop_Permutation _ _ _ _ Hpop) as Hperm.
  destruct (heappop_ok _ entry_lt_asym entry_le_trans _ _ _ Hheap Hpop)
    as [Hheap' _].
  destruct (oracle_relax_all grid k (neighbors_of grid u) (rest, st.2))
    as (pushed & Hq' & Hok' & Hpushed & Hchg & Hnbr).
  set (st' := foldl _ _ _) in *. clearbody st'. cbn [fst snd] in *.
  destruct (Hq (k, u)) as [Hwu _]; [rewrite Hperm; by left|]. simpl in Hwu.
  assert (∀ c v, st.2 !! c = Some v → ∃ v', st'.2 !! c = Some v' ∧ v' ≤ v)
    as Hmono.
  { intros c v Hc. destruct (Hchg c) as [Heq|[Hin Heq]].
    - exists v. split; [congruence|lia].
    - eexists. split; [done|].
      destruct (Hpushed _ Hin) as (_ & _ & Hlt & _). simpl in Hlt.
      pose proof (visited_get_Some _ _ _ _ Hlt Hc). lia. }
  assert (∀ e, e ∈ pushed → walk grid start e.2 e.1) as Hwp.
  { intros e He. destruct (Hpushed e He) as (Hin & -> & _).
    apply elem_of_neighbors_of in Hin as [??]. by econstructor. }
  split_and!.
  - by apply Hok'.
  - destruct Hstart as (v & Hv & ?). destruct (Hmono _ _ Hv) as (v' & ? & ?).
    exists v'. split; [done|lia].
  - intros e. rewrite Hq'. intros [He|He]%elem_of_app.
    + destruct (Hq e) as [Hw (v & Hv & ?)]; [rewrite Hperm; by right|].
      split; [done|]. destruct (Hmono _ _ Hv) as (v' & ? & ?).
      exists v'. split; [done|lia].
    + split; [by apply Hwp|]. destruct (Hpushed e He) as (_ & _ & _ & Hl).
      exists e.1. split; [done|lia].
  - intros c v' Hc. destruct (Hchg c) as [Heq|[Hin Heq]].
    + rewrite Heq in Hc. destruct (Hvis c v' Hc) as [Hw Hcase].
      split; [done|]. destruct Hcase as [Hin|[Hne Hadj]].
      * rewrite Hperm in Hin. apply elem_of_cons in Hin as [[= -> ->]|Hin].
        -- right. split; [done|]. intros n Hun Hn. apply Hnbr.
           by apply elem_of_neighbors_of.
        -- left. rewrite Hq'. apply elem_of_app. by left.
      * right. split; [done|]. intros n Hcn Hn.
        destruct (Hadj n Hcn Hn) as (x & Hx & ?).
        destruct (Hmono _ _ Hx) as (x' & ? & ?). exists x'. split; [done|lia].
    + rewrite Heq in Hc. injection Hc as <-.
      split; [by apply (Hwp (_, c))|]. left. rewrite Hq'.
      apply elem_of_app. by right.
Qed.

Lemma oracle_body_no_Throw (st : oracle_state) : oracle_body grid end_ st ≠ Throw.
Proof.
  rewrite oracle_body_eq by done.
  destruct (heappop entry_lt st.1) as [[[k u] rest]|]; [|done].
  by case_bool_decide.
Qed.

(** With the queue exhausted, [visited] holds everything reachable and
    not the goal. *)
Lemma oracle_exhausted (visited : gmap coord Z) :
  oracle_inv grid start end_ ([], visited) → ¬ reachable grid start end_.
Proof.
  intros (_ & (v0 & Hstart & _) & _ & Hvis) [k Hw].
  assert (∀ c, is_Some (visited !! c) → c ≠ end_) as Hne.
  { intros c [v Hc]. destruct (Hvis c v Hc) as [_ [Hin|[? _]]]; [|done].
    by apply elem_of_nil in Hin. }
  assert (∀ v c, walk grid start v c → is_Some (visited !! v)) as Hall.
  { intros v c. induction 1 as [|u v c _ [x Hx] Huv Hv]; [by eexists|].
    destruct (Hvis u x Hx) as [_ [Hin|[_ Hadj]]]; [by apply elem_of_nil in Hin|].
    destruct (Hadj v Huv Hv) as (x' & ? & _). by eexists. }
  by apply (Hne end_ (Hall _ _ Hw)).
Qed.

(** The goal comes off the queue at the least cost of any walk. *)
Lemma oracle_least (st : oracle_state) (k : Z) (rest : list entry) :
  costs_ge 0 grid →
  oracle_inv grid start end_ st →
  heappop entry_lt st.1 = Some ((k, end_), rest) →
  ∀ c, walk grid start end_ c → k ≤ c.
Proof.
  intros Hge (Hheap & (v0 & Hstart & Hv0) & Hq & Hvis) Hpop.
  pose proof (heappop_Permutation _ _ _ _ Hpop) as Hperm.
  destruct (heappop_ok _ entry_lt_asym entry_le_trans _ _ _ Hheap Hpop)
    as [_ Hmin].
  assert (∀ e, e ∈ st.1 → k ≤ e.1) as Hleast.
  { intros e. rewrite Hperm. intros [->|He]%elem_of_cons; [done|].
    apply (entry_le_cost (k, end_)). by apply Hmin. }
  assert (∀ v c, walk grid start v c →
            (∃ x, st.2 !! v = Some x ∧ x ≤ c) ∨ k ≤ c) as Hall.
  { intros v c Hw. induction Hw as [|u v c Hw IH Huv Hv].
    { left. eauto. }
    pose proof (costs_ge_passable 0 grid v Hrect Hge Hv).
    destruct IH as [(x & Hx & ?)|?]; [|right; lia].
    destruct (Hvis u x Hx) as [_ [Hin|[_ Hadj]]].
    - right. apply Hleast in Hin. simpl in Hin. lia.
    - left. destruct (Hadj v Huv Hv) as (x' & ? & ?). exists x'.
      split; [done|lia]. }
  intros c Hw. destruct (Hall _ _ Hw) as [(x & Hx & ?)|?]; [|done].
  destruct (Hvis end_ x Hx) as [_ [Hin|[? _]]]; [|done].
  apply Hleast in Hin. simpl in Hin. lia.
Qed.

Lemma oracle_body_Done (st : oracle_state) (r : num) :
  oracle_inv grid start end_ st →
  oracle_body grid end_ st = Done r →
  (r = Inf ∧ ¬ reachable grid start end_) ∨
  (∃ k, r = Fin k ∧ walk grid start end_ k ∧
        (costs_ge 0 grid → ∀ c, walk grid start end_ c → k ≤ c)).
Proof.
  intros Hinv. rewrite oracle_body_eq by done.
  destruct (heappop entry_lt st.1) as [[[k u] rest]|] eqn:Hpop.
  - case_bool_decide as Hend; [|done]. subst u. intros [= <-]. right.
    exists k. split_and!; [done| |].
    + destruct Hinv as (_ & _ & Hq & _).
      destruct (Hq (k, end_)) as [Hw _]; [|done].
      rewrite (heappop_Permutation _ _ _ _ Hpop). by left.
    + intros Hge. by eapply oracle_least.
  - intros [= <-]. left. split; [done|].
    apply (heappop_None entry_lt) in Hpop.
    destruct st as [q vis]. simpl in Hpop. subst q.
    by eapply oracle_exhausted.
Qed.

Lemma find_optimal_cost_spec (r : num) :
  returns (λ fuel, find_optimal_cost fuel grid start end_) r →
  (r = Inf ∧ ¬ reachable grid start end_) ∨
  (∃ k, r = Fin k ∧ walk grid start end_ k ∧
        (costs_ge 0 grid → ∀ c, walk grid start end_ c → k ≤ c)).
Proof.
  intros [fuel Hr]. unfold find_optimal_cost in Hr.
  destruct (while_inv (oracle_body grid end_) (oracle_inv grid start end_)
              fuel ([(0, start)], {[start := 0]}) (Ret r))
    as (st & Hinv & [(r0 & Hb & [= <-])|[_ [=]]]);
    [apply oracle_inv_step|apply oracle_inv_init|done|].
  by eapply oracle_body_Done.
Qed.
End oracle.


(** * Termination of the oracle *)

Section while_lex.
Context {St R : Type} (body : St → flow St R).
Local Open Scope nat_scope.

(** Termination by a pair of measures decreasing lexicographically. *)
Lemma while_term_lex (Inv : St → Prop) (mu1 mu2 : St → nat) (s : St) :
  (∀ s s', Inv s → body s = Next s' →
     Inv s' ∧ (mu1 s' < mu1 s ∨ (mu1 s' = mu1 s ∧ mu2 s' < mu2 s))) →
  Inv s → ∃ fuel r, while body fuel s = Some r.
Proof.
  intros Hstep. remember (mu1 s) as a eqn:Ha. revert s Ha.
  induction (lt_wf a) as [a _ IHa]. intros s Ha.
  remember (mu2 s) as b eqn:Hb. revert s Ha Hb.
  induction (lt_wf b) as [b _ IHb]. intros s Ha Hb Hs.
  destruct (body s) as [s'|r|] eqn:Hbody.
  - destruct (Hstep _ _ Hs Hbody) as [Hs' [Hlt|[Heq Hlt]]].
    + destruct (IHa (mu1 s')) with (s := s') as (fuel & r & Hr); [lia|done..|].
      exists (S fuel), r. simpl. by rewrite Hbody.
    + destruct (IHb (mu2 s')) with (s := s') as (fuel & r & Hr); [lia|lia|done..|].
      exists (S fuel), r. simpl. by rewrite Hbody.
  - exists 1, (Ret r). simpl. by rewrite Hbody.
  - exists 1, IndexError. simpl. by rewrite Hbody.
Qed.
End while_lex.

Section oracle_termination.
Context (grid : Grid) (start end_ : coord).
Context (Hrect : rect grid) (Hge : costs_ge 0 grid).
Local Open Scope nat_scope.

Lemma sum_list_with_update {A} `{EqDecision A} (f f' : A → nat)
    (l : list A) (c : A) :
  NoDup l → c ∈ l → (∀ a, a ≠ c → f' a = f a) →
  sum_list_with f' l + f c = sum_list_with f l + f' c.
Proof.
  intros Hnd Hc Hf. induction Hnd as [|a l Hnotin Hnd IH]; [by apply elem_of_nil in Hc|].
  cbn [sum_list_with]. destruct (decide (a = c)) as [->|Hne].
  - assert (sum_list_with f' l = sum_list_with f l) as ->; [|lia].
    clear IH Hc. induction l as [|b l IHl]; [done|]. cbn [sum_list_with].
    apply not_elem_of_cons in Hnotin as [??].
    rewrite Hf by done. rewrite IHl; [done|done|by inversion Hnd].
  - apply elem_of_cons in Hc as [->|Hc]; [done|].
    rewrite (Hf a) by done. specialize (IH Hc). lia.
Qed.

(** Relaxing neighbours never undoes progress. *)
Lemma oracle_relax_measure (k : Z) (cs : list coord) (st : oracle_state) :
  (0 ≤ k)%Z → (∀ c, c ∈ cs → passable grid c) →
  let st' := foldl (oracle_relax grid k) st cs in
  unvisited grid st'.2 ≤ unvisited grid st.2 ∧
  (unvisited grid st'.2 = unvisited grid st.2 →
   oracle_measure grid st' ≤ oracle_measure grid st).
Proof.
  intros Hk. revert st. induction cs as [|c cs IH]; intros st Hcs; simpl; [done|].
  destruct (IH (oracle_relax grid k st c)) as [IH1 IH2].
  { intros d Hd. apply Hcs. by right. }
  set (st' := foldl _ _ cs) in *. clearbody st'.
  assert (passable grid c) as Hc by (apply Hcs; by left).
  pose proof (costs_ge_passable 0 grid c Hrect Hge Hc) as Hw.
  unfold oracle_relax in *. destruct st as [q vis]. cbn [fst snd] in *.
  destruct (num_lt _ _) eqn:Hlt; [|done]. cbn [fst snd] in *.
  unfold unvisited in *. rewrite dom_insert_L in *.
  destruct (vis !! c) as [v|] eqn:Hv.
  - assert ({[c]} ∪ dom vis = dom vis) as Heq.
    { apply elem_of_dom_2 in Hv. set_solver. }
    rewrite Heq in *. split; [done|]. intros Hu. etrans; [by apply IH2|].
    pose proof (visited_get_Some _ _ _ _ Hlt Hv).
    unfold oracle_measure. cbn [fst snd].
    rewrite (Permutation_length (heappush_Permutation _ _ _)). cbn [length].
    pose proof (sum_list_with_update (recorded vis)
                  (recorded (<[c := (k + cost_at grid c)%Z]> vis))
                  (elements (all_coords grid)) c) as Hsum.
    assert (recorded vis c = Z.to_nat v) as Hold.
    { unfold recorded. by rewrite Hv. }
    assert (recorded (<[c := (k + cost_at grid c)%Z]> vis) c
            = Z.to_nat (k + cost_at grid c)) as Hnew.
    { unfold recorded. by rewrite lookup_insert_eq. }
    rewrite Hold, Hnew in Hsum.
    assert (Z.to_nat (k + cost_at grid c) < Z.to_nat v) by lia.
    cut (sum_list_with (recorded (<[c := (k + cost_at grid c)%Z]> vis))
           (elements (all_coords grid)) + Z.to_nat v
         = sum_list_with (recorded vis) (elements (all_coords grid))
           + Z.to_nat (k + cost_at grid c)); [lia|].
    apply Hsum; [apply NoDup_elements| |].
    + apply elem_of_elements, elem_of_all_coords, Hc.
    + intros a Ha. unfold recorded. by rewrite lookup_insert_ne.
  - assert (size (all_coords grid ∖ ({[c]} ∪ dom vis))
            < size (all_coords grid ∖ dom vis)).
    { apply subset_size. apply not_elem_of_dom in Hv.
      pose proof (proj2 (elem_of_all_coords grid c) (proj1 Hc)).
      set_solver. }
    split; lia.
Qed.

Lemma oracle_measure_decreases (st st' : oracle_state) :
  oracle_inv grid start end_ st →
  oracle_body grid end_ st = Next st' →
  unvisited grid st'.2 < unvisited grid st.2 ∨
  (unvisited grid st'.2 = unvisited grid st.2 ∧
   oracle_measure grid st' < oracle_measure grid st).
Proof.
  intros (_ & _ & Hq & _). rewrite oracle_body_eq by done.
  destruct (heappop entry_lt st.1) as [[[k u] rest]|] eqn:Hpop; [|done].
  case_bool_decide as Hend; [done|]. intros [= <-].
  pose proof (heappop_Permutation _ _ _ _ Hpop) as Hperm.
  destruct (Hq (k, u)) as [Hw _]; [rewrite Hperm; by left|]. simpl in Hw.
  apply walk_nonneg in Hw; [|done..].
  destruct (oracle_relax_measure k (neighbors_of grid u) (rest, st.2) Hw)
    as [H1 H2].
  { by intros c [_ ?]%elem_of_neighbors_of. }
  cbn [fst snd] in *.
  destruct (decide (unvisited grid (foldl (oracle_relax grid k) (rest, st.2)
                                      (neighbors_of grid u)).2
                    = unvisited grid st.2)) as [Heq|Hne]; [|lia].
  right. split; [done|]. specialize (H2 Heq).
  unfold oracle_measure in *. cbn [fst snd] in *.
  rewrite (Permutation_length Hperm). simpl. lia.
Qed.

(** On a grid without negative costs the oracle always returns. *)
Lemma find_optimal_cost_returns :
  ∃ r, returns (λ fuel, find_optimal_cost fuel grid start end_) r.
Proof.
  destruct (while_term_lex (oracle_body grid end_) (oracle_inv grid start end_)
              (λ st, unvisited grid st.2) (oracle_measure grid)
              ([(0, start)], {[start := 0]}))%Z
    as (fuel & r & Hr).
  { intros st st' Hinv Hb. split.
    - by eapply oracle_inv_step.
    - by apply oracle_measure_decreases. }
  { apply oracle_inv_init. }
  destruct (while_inv (oracle_body grid end_) (oracle_inv grid start end_)
              fuel ([(0, start)], {[start := 0]})%Z r)
    as (st & _ & [(r0 & _ & ->)|[Hthrow _]]);
    [by apply oracle_inv_step|apply oracle_inv_init|done| |].
  - by exists r0, fuel.
  - by apply oracle_body_no_Throw in Hthrow.
Qed.
End oracle_termination.


(** * Optimality of the engine *)

Lemma manhattan_adjacent (u v end_ : coord) :
  adjacent u v → manhattan u end_ ≤ manhattan v end_ + 1.
Proof. unfold adjacent, manhattan. lia. Qed.

Lemma manhattan_self (c : coord) : manhattan c c = 0.
Proof. unfold manhattan. lia. Qed.

Lemma Node_le_f (a b : Node) (x y : Z) :
  heap_le Node.lt a b → Node.f a = Fin x → Node.f b = Fin y → x ≤ y.
Proof.
  unfold heap_le, Node.lt. intros H Ha Hb. rewrite Ha, Hb in H. simpl in H.
  by apply Z.ltb_ge.
Qed.

Section optimality.
Context (grid : Grid) (start end_ : coord).
Context (Hrect : rect grid) (Hstart : in_bounds grid start).
Context (Hge : costs_ge 1 grid).

Lemma costs_ge_weaken : costs_ge 0 grid.
Proof. intros row v Hr Hv. destruct (Hge row v Hr Hv); [by left|right; lia]. Qed.

Lemma step_consistent (u v : coord) :
  adjacent u v → passable grid v →
  manhattan u end_ ≤ cost_at grid v + manhattan v end_.
Proof.
  intros Huv Hv. pose proof (manhattan_adjacent u v end_ Huv).
  pose proof (costs_ge_passable 1 grid v Hrect Hge Hv). lia.
Qed.

Lemma expand_gf (p : Node) (c : coord) (k : Z) :
  Node.g p = Fin k →
  Node.g (expand grid end_ p c) = Fin (k + cost_at grid c) ∧
  Node.f (expand grid end_ p c)
    = Fin (k + cost_at grid c + manhattan (Node.xy (expand grid end_ p c)) end_).
Proof. intros Hk. destruct c as [x y]. unfold expand. simpl. by rewrite Hk. Qed.

(** Every walk ends in a cell closed no dearer, or is matched by an
    open node of no greater [f]. *)
Lemma astar_opt_walk (gc : coord → Z) (st : astar_state) (v : coord) (x : Z) :
  astar_opt grid start end_ gc st → walk grid start v x →
  ((v ∈ st.2) ∧ gc v ≤ x) ∨
  (∃ n k, n ∈ st.1 ∧ Node.g n = Fin k ∧
          k + manhattan (Node.xy n) end_ ≤ x + manhattan v end_).
Proof.
  intros (_ & _ & [Hs0 Hs1] & _ & _ & Hadj).
  induction 1 as [|u v x _ IH Huv Hv]; [by left|].
  pose proof (step_consistent u v Huv Hv).
  destruct IH as [[Hu Hgu]|(n & k & Hn & Hk & Hle)].
  - destruct (Hadj u v Hu Huv Hv) as [[Hvc Hgv]|(n & k & Hn & Hxy & Hk & Hle)].
    + left. split; [done|lia].
    + right. exists n, k. rewrite Hxy. split_and!; [done..|lia].
  - right. exists n, k. split_and!; [done..|lia].
Qed.

Lemma astar_opt_closed (gc : coord → Z) (st : astar_state) (v : coord) (x : Z) :
  astar_opt grid start end_ gc st → walk grid start v x →
  v ∈ st.2 → gc v ≤ x.
Proof.
  intros Hopt Hw Hv.
  destruct (astar_opt_walk gc st v x Hopt Hw) as [[_ ?]|(n & k & Hn & Hk & Hle)];
    [done|].
  destruct Hopt as (_ & _ & _ & _ & Hord & _).
  specialize (Hord v n k Hv Hn Hk). lia.
Qed.

Lemma astar_opt_first (s : Node) (st' : astar_state) :
  chain grid start s → Node.xy s = start → Node.g s = Fin 0 →
  astar_body relax_correct grid end_ ([s], ∅) = Next st' →
  astar_opt grid start end_ (λ _, 0) st'.
Proof.
  intros Hch Hxy Hg Hb.
  pose proof (in_bounds_rows _ _ Hstart) as Hrows.
  apply astar_body_correct_Next in Hb
    as (cur & rest & Hperm & Hne & Hcl & Hperm' & Hheap); [|done..|].
  2:{ intros n ->%list_elem_of_singleton. eauto. }
  destruct (Hheap (heap_ok_singleton _ s)) as [Hok' _].
  apply Permutation_singleton_l in Hperm. injection Hperm as <- <-.
  destruct st' as [open_set' closed']. cbn [fst snd] in *.
  rewrite app_nil_l in Hperm'. rewrite Hxy in *.
  assert (∀ n, n ∈ open_set' →
            ∃ v, n = expand grid end_ s v ∧ adjacent start v ∧ passable grid v)
    as Hpushed.
  { intros n. rewrite Hperm'.
    intros (v & -> & [_ Hv]%list_elem_of_filter)%list_elem_of_fmap.
    apply elem_of_neighbors_of in Hv. eauto. }
  unfold astar_opt. cbn [fst snd].
  split_and!; [done| | |done| | |].
  - intros n (v & -> & _)%Hpushed.
    destruct (expand_gf s v 0 Hg) as [-> ->]. eauto.
  - set_solver.
  - intros u Hu. assert (u = start) as -> by set_solver. constructor.
  - intros u n k Hu (v & -> & Huv & Hv)%Hpushed Hk.
    assert (u = start) as -> by set_solver.
    destruct (expand_gf s v 0 Hg) as [Hg' _]. rewrite Hg' in Hk.
    injection Hk as <-. rewrite xy_expand.
    pose proof (step_consistent start v Huv Hv). lia.
  - intros u v Hu Huv Hv. assert (u = start) as -> by set_solver.
    right. exists (expand grid end_ s v), (0 + cost_at grid v).
    split_and!; [|apply xy_expand|by apply expand_gf|lia].
    rewrite Hperm'. apply list_elem_of_fmap. exists v. split; [done|].
    apply list_elem_of_filter. split; [|by apply elem_of_neighbors_of].
    rewrite Hcl. assert (v ≠ start); [|set_solver].
    intros ->. unfold adjacent in Huv. lia.
Qed.

Lemma astar_opt_step (gc : coord → Z) (st st' : astar_state) :
  nodes_ok grid start st →
  astar_opt grid start end_ gc st →
  astar_body relax_correct grid end_ st = Next st' →
  ∃ gc', astar_opt grid start end_ gc' st'.
Proof.
  intros Hnodes Hopt Hb.
  pose proof (in_bounds_rows _ _ Hstart) as Hrows.
  pose proof Hopt as (Hheap & Hgf & [Hs0 Hs1] & Hwalk & Hord & Hadj).
  destruct st as [open_set closed]. destruct st' as [open_set' closed'].
  apply astar_body_correct_Next in Hb
    as (cur & rest & Hperm & Hne & Hcl & Hperm' & Hheap');
    [|done..|by apply (nodes_ok_Fin grid start (open_set, closed))].
  destruct (Hheap' Hheap) as [Hok' Hmin]. cbn [fst snd] in *.
  assert (cur ∈ open_set) as Hcur by (rewrite Hperm; by left).
  destruct (Hgf cur Hcur) as (kc & Hkc & Hfc).
  destruct (chain_walk _ _ cur (Hnodes cur Hcur)) as (kc' & Hkc' & Hwc).
  rewrite Hkc in Hkc'. injection Hkc' as <-.
  set (c := Node.xy cur) in *.
  set (gc' := λ u, if decide (u = c ∧ c ∉ closed) then kc else gc u).
  assert (∀ u, u ∈ closed → gc' u = gc u) as Hgc_old.
  { intros u Hu. unfold gc'. rewrite decide_False; [done|]. by intros [-> ?]. }
  assert (c ∉ closed → gc' c = kc) as Hgc_new.
  { intros Hc. unfold gc'. by rewrite decide_True. }
  assert (∀ n, n ∈ open_set' →
            n ∈ rest ∨
            ∃ v, n = expand grid end_ cur v ∧ adjacent c v ∧ passable grid v ∧
                 v ∉ closed') as Hopen'.
  { intros n. rewrite Hperm'. intros [?|Hn]%elem_of_app; [by left|]. right.
    apply list_elem_of_fmap in Hn as (v & -> & [Hv1 Hv2]%list_elem_of_filter).
    apply elem_of_neighbors_of in Hv2 as [??]. eauto. }
  assert (∀ v, adjacent c v → passable grid v → v ∉ closed' →
            expand grid end_ cur v ∈ open_set') as Hpush.
  { intros v ???. rewrite Hperm'. apply elem_of_app. right.
    apply list_elem_of_fmap. exists v. split; [done|].
    apply list_elem_of_filter. split; [done|]. by apply elem_of_neighbors_of. }
  assert (∀ u, u ∈ closed' → gc' u + manhattan u end_ ≤ kc + manhattan c end_)
    as Hfront.
  { intros u Hu. rewrite Hcl in Hu.
    destruct (decide (u ∈ closed)) as [Hin|Hout].
    - rewrite Hgc_old by done. by apply (Hord u cur kc).
    - assert (u = c) as -> by set_solver. by rewrite Hgc_new. }
  exists gc'. unfold astar_opt. cbn [fst snd]. split_and!.
  - done.
  - intros n [Hn|(v & -> & _)]%Hopen'.
    + apply Hgf. rewrite Hperm. by right.
    + destruct (expand_gf cur v kc Hkc) as [-> ->]. eauto.
  - set_solver.
  - by rewrite Hgc_old.
  - intros u Hu. rewrite Hcl in Hu.
    destruct (decide (u ∈ closed)) as [Hin|Hout].
    + rewrite Hgc_old by done. by apply Hwalk.
    + assert (u = c) as -> by set_solver. by rewrite Hgc_new.
  - intros u n k Hu [Hn|(v & -> & Hcv & Hv & _)]%Hopen' Hk.
    + rewrite Hcl in Hu. destruct (decide (u ∈ closed)) as [Hin|Hout].
      * rewrite Hgc_old by done. apply (Hord u n k); [done| |done].
        rewrite Hperm. by right.
      * assert (u = c) as -> by set_solver. rewrite Hgc_new by done.
        destruct (Hgf n) as (k' & Hk' & Hfn); [rewrite Hperm; by right|].
        rewrite Hk in Hk'. injection Hk' as <-.
        apply (Node_le_f cur n); [by apply Hmin|done..].
    + destruct (expand_gf cur v kc Hkc) as [Hg' _]. rewrite Hg' in Hk.
      injection Hk as <-. rewrite xy_expand.
      pose proof (Hfront u Hu). pose proof (step_consistent c v Hcv Hv). lia.
  - intros u v Hu Huv Hv. rewrite Hcl in Hu.
    destruct (decide (u ∈ closed)) as [Hin|Hout].
    + rewrite (Hgc_old u) by done.
      assert (v ∈ closed → gc v ≤ gc u + cost_at grid v) as Hbest.
      { intros Hvc. apply (astar_opt_closed gc (open_set, closed)); [done| |done].
        econstructor; [by apply Hwalk|done..]. }
      destruct (Hadj u v Hin Huv Hv) as [[Hvc Hle]|(n & k & Hn & Hxy & Hk & Hle)].
      * left. split; [set_solver|]. by rewrite Hgc_old.
      * rewrite Hperm in Hn. apply elem_of_cons in Hn as [->|Hn].
        -- left. fold c in Hxy. subst v. split; [set_solver|].
           rewrite Hkc in Hk. injection Hk as <-.
           destruct (decide (c ∈ closed)) as [Hcin|Hcout].
           ++ rewrite Hgc_old by done. by apply Hbest.
           ++ by rewrite Hgc_new.
        -- right. exists n, k. split_and!; [|done..].
           rewrite Hperm'. apply elem_of_app. by left.
    + assert (u = c) as -> by set_solver. rewrite (Hgc_new Hout).
      destruct (decide (v ∈ closed')) as [Hvc|Hvc].
      * left. split; [done|].
        assert (v ≠ c) by (intros ->; unfold adjacent in Huv; lia).
        assert (v ∈ closed) as Hvin by set_solver.
        rewrite Hgc_old by done.
        apply (astar_opt_closed gc (open_set, closed)); [done| |done].
        by econstructor.
      * right. exists (expand grid end_ cur v), (kc + cost_at grid v).
        split_and!; [by apply Hpush|apply xy_expand|by apply expand_gf|lia].
Qed.

Lemma astar_inv_init (s : Node) :
  chain grid start s → Node.xy s = start →
  astar_inv grid start end_ s ([s], ∅).
Proof.
  intros Hch Hxy. split_and!; [by apply nodes_ok_init|by apply explored_init|by left].
Qed.

Lemma astar_inv_step (s : Node) (st st' : astar_state) :
  chain grid start s → Node.xy s = start → Node.g s = Fin 0 →
  astar_inv grid start end_ s st →
  astar_body relax_correct grid end_ st = Next st' →
  astar_inv grid start end_ s st'.
Proof.
  intros Hch Hxy Hg (Hnodes & Hex & Hopt) Hb.
  pose proof (in_bounds_rows _ _ Hstart) as Hrows.
  split_and!; [by eapply nodes_ok_step|by eapply explored_step|].
  right. destruct Hopt as [->|[gc Hopt]].
  - eexists. by apply (astar_opt_first s).
  - by eapply astar_opt_step.
Qed.

(** The cost the engine reports is the least cost of any walk. *)
Lemma astar_inv_Done (s : Node) (st : astar_state) (r : result) :
  Node.xy s = start → Node.g s = Fin 0 →
  astar_inv grid start end_ s st →
  astar_body relax_correct grid end_ st = Done r →
  ∀ k, r.2 = Fin k → ∀ x, walk grid start end_ x → k ≤ x.
Proof.
  intros Hxy Hg (Hnodes & Hex & Hopt) Hb k Hk x Hw.
  pose proof (in_bounds_rows _ _ Hstart) as Hrows.
  destruct st as [open_set closed].
  apply astar_body_correct_Done in Hb
    as [[-> ->]|(cur & rest & Hperm & Hend & -> & Hmin)];
    [done| |done..|by apply (nodes_ok_Fin grid start (open_set, closed))].
  simpl in Hk. destruct Hopt as [[= -> ->]|[gc Hopt]].
  - apply Permutation_singleton_l in Hperm. injection Hperm as <- <-.
    rewrite Hg in Hk. injection Hk as <-.
    eapply walk_nonneg; [done|apply costs_ge_weaken|done].
  - destruct (astar_opt_walk gc _ _ _ Hopt Hw)
      as [[Hin _]|(n & kn & Hn & Hkn & Hle)].
    { by destruct Hex as [Hex _]. }
    destruct Hopt as (Hheap & Hgf & _). cbn [fst snd] in *.
    destruct (Hgf cur) as (kc & Hkc & Hfc); [rewrite Hperm; by left|].
    rewrite Hkc in Hk. injection Hk as <-.
    rewrite Hend, !manhattan_self in *.
    rewrite Hperm in Hn. apply elem_of_cons in Hn as [->|Hn].
    + rewrite Hkc in Hkn. injection Hkn as <-. rewrite Hend, manhattan_self in Hle.
      lia.
    + destruct (Hgf n) as (kn' & Hkn' & Hfn); [rewrite Hperm; by right|].
      rewrite Hkn in Hkn'. injection Hkn' as <-.
      pose proof (Node_le_f cur n _ _ (Hmin Hheap n Hn) Hfc Hfn). lia.
Qed.

Lemma astar_correct_least (r : result) (k : Z) :
  returns (λ fuel, astar_correct fuel grid start end_) r →
  r.2 = Fin k → ∀ x, walk grid start end_ x → k ≤ x.
Proof.
  intros [fuel Hr] Hk.
  destruct (start_node_Ret grid start Hrect Hstart) as (s & Hs & Hch & _ & Hg & _).
  assert (Node.xy s = start) as Hxy.
  { unfold start_node in Hs. rewrite cell_Ret in Hs by done.
    simpl in Hs. injection Hs as <-. by destruct start. }
  unfold astar_correct, astar in Hr. rewrite Hs in Hr.
  destruct (while_inv (astar_body relax_correct grid end_)
              (astar_inv grid start end_ s) fuel ([s], ∅) (Ret r))
    as (st & Hinv & [(r0 & Hb & [= <-])|[_ [=]]]);
    [intros st st'; by apply astar_inv_step|by apply astar_inv_init|done|].
  by eapply astar_inv_Done.
Qed.
End optimality.


(** * The properties of the specification *)

(** Discharging the side conditions on concrete grids. *)
Ltac solve_rect :=
  let row := fresh "row" in
  let H := fresh "H" in
  intros row H;
  repeat (apply elem_of_cons in H as [-> | H]; [reflexivity|]);
  by apply elem_of_nil in H.

Ltac solve_costs :=
  let row := fresh "row" in
  let v := fresh "v" in
  let Hr := fresh "Hr" in
  let Hv := fresh "Hv" in
  intros row v Hr Hv;
  repeat (apply elem_of_cons in Hr as [-> | Hr];
          [repeat (apply elem_of_cons in Hv as [-> | Hv]; [lia|]);
           by apply elem_of_nil in Hv|]);
  by apply elem_of_nil in Hr.

Ltac solve_bounds := unfold in_bounds, rows, width; simpl; lia.

Ltac solve_passable :=
  split; [solve_bounds | vm_compute; discriminate].

Ltac walk_to u :=
  eapply (walk_step _ _ u); [|unfold adjacent; simpl; lia|solve_passable].

Lemma astar_first_pass (relax : coord → Node → gset coord → list Node → Node → list Node)
    (grid : Grid) (s : coord) (fuel : nat) :
  rect grid → in_bounds grid s → (0 < fuel)%nat →
  astar relax fuel grid s s = Some (Ret (Some [s], Fin 0)).
Proof.
  intros Hrect Hs Hfuel. destruct fuel as [|fuel]; [lia|].
  unfold astar, start_node. rewrite cell_Ret by done. destruct s as [x y].
  simpl. unfold astar_body. simpl. by rewrite bool_decide_true.
Qed.

Lemma oracle_first_pass (grid : Grid) (s : coord) (fuel : nat) :
  (0 < fuel)%nat → find_optimal_cost fuel grid s s = Some (Ret (Fin 0)).
Proof.
  intros Hfuel. destruct fuel as [|fuel]; [lia|]. destruct s as [x y].
  unfold find_optimal_cost. simpl. unfold oracle_body. simpl.
  by rewrite bool_decide_true.
Qed.

(** C1, amended. On a grid of ints whose cells are [-1] or cost at
    least 1, with an in-bounds start from which the end is reachable,
    [astar_correct] and [find_optimal_cost] both return, the engine
    with a present path, and the two costs are equal. *)
Theorem C1_optimality (grid : Grid) (start end_ : coord) :
  rect grid → costs_ge 1 grid → in_bounds grid start →
  reachable grid start end_ →
  (∃ path k,
     returns (λ fuel, astar_correct fuel grid start end_) (Some path, Fin k) ∧
     returns (λ fuel, find_optimal_cost fuel grid start end_) (Fin k)) ∧
  (∀ ra ro,
     returns (λ fuel, astar_correct fuel grid start end_) ra →
     returns (λ fuel, find_optimal_cost fuel grid start end_) ro →
     ra.2 = ro).
Proof.
  intros Hrect Hge Hstart Hreach.
  pose proof (costs_ge_weaken grid Hge) as Hge0.
  assert (∀ ra ro,
            returns (λ fuel, astar_correct fuel grid start end_) ra →
            returns (λ fuel, find_optimal_cost fuel grid start end_) ro →
            ∃ path k, ra = (Some path, Fin k) ∧ ro = Fin k) as Hagree.
  { intros ra ro Ha Ho.
    destruct (astar_correct_spec grid start end_ ra Hrect Hstart Ha)
      as [[_ ?]|(n & Hch & Hxy & ->)]; [done|].
    destruct (chain_walk _ _ n Hch) as (ka & Hka & Hwa). rewrite Hxy in Hwa.
    destruct (find_optimal_cost_spec grid start end_ Hrect ro Ho)
      as [[_ ?]|(ko & -> & Hwo & Hleast)]; [done|].
    pose proof (astar_correct_least grid start end_ Hrect Hstart Hge _ ka Ha Hka
                  ko Hwo).
    pose proof (Hleast Hge0 ka Hwa).
    exists (get_path n), ka. rewrite Hka. split; [done|]. f_equal. lia. }
  destruct (astar_correct_returns grid start end_ Hrect Hstart) as [ra Ha].
  destruct (find_optimal_cost_returns grid start end_ Hrect Hge0) as [ro Ho].
  split.
  - destruct (Hagree ra ro Ha Ho) as (path & k & -> & ->). by exists path, k.
  - intros ra' ro' Ha' Ho'.
    by destruct (Hagree ra' ro' Ha' Ho') as (path & k & -> & ->).
Qed.

Lemma C1_witness :
  ∃ path k,
    returns (λ fuel, astar_correct fuel [[1; 1]; [1; 5]] (0, 0) (1, 1))
      (Some path, Fin k) ∧
    returns (λ fuel, find_optimal_cost fuel [[1; 1]; [1; 5]] (0, 0) (1, 1)) (Fin k).
Proof.
  apply (C1_optimality [[1; 1]; [1; 5]] (0, 0) (1, 1));
    [solve_rect|solve_costs|solve_bounds|].
  eexists. walk_to (0, 1). walk_to (0, 0). constructor.
Defined.

(** C2 as stated fails: the start cell is never inspected, so on the
    one-row grid [[-1, 1]] the path returned from (0,0) to (0,1) begins
    on an impassable cell. *)
Lemma C2_counterexample :
  ¬ (∀ path cost,
       returns (λ fuel, astar_correct fuel [[-1; 1]] (0, 0) (0, 1)) (Some path, cost) →
       head path = Some (0, 0) ∧ last path = Some (0, 1) ∧
       (∀ i a b, path !! i = Some a → path !! S i = Some b → adjacent a b) ∧
       (∀ c, c ∈ path → cost_at [[-1; 1]] c ≠ -1)).
Proof.
  intros H. destruct (H [(0, 0); (0, 1)] (Fin 1)) as (_ & _ & _ & Hpass).
  - by exists 5%nat.
  - by apply (Hpass (0, 0)); [left|].
Qed.

(** C2, amended. Whenever [astar_correct] returns a present path on a
    grid with an in-bounds start, the path begins at the start, ends at
    the end, consecutive coordinates are exactly one Manhattan step
    apart, and every coordinate after the first is an in-bounds cell
    that is not impassable; so if the start cell is not impassable, no
    coordinate of the path is. *)
Theorem C2_path_valid (grid : Grid) (start end_ : coord)
    (path : list coord) (cost : num) :
  rect grid → in_bounds grid start →
  returns (λ fuel, astar_correct fuel grid start end_) (Some path, cost) →
  head path = Some start ∧ last path = Some end_ ∧
  (∀ i a b, path !! i = Some a → path !! S i = Some b → adjacent a b) ∧
  (∀ i a, path !! S i = Some a → passable grid a) ∧
  (cost_at grid start ≠ -1 → ∀ a, a ∈ path → cost_at grid a ≠ -1).
Proof.
  intros Hrect Hstart Hr.
  destruct (astar_correct_spec grid start end_ _ Hrect Hstart Hr)
    as [[[=] _]|(n & Hch & Hxy & [= -> ->])].
  apply chain_path in Hch. rewrite Hxy in Hch.
  destruct (path_from_facts _ _ _ _ Hch) as (Hh & Hl & Hadj & Hpass).
  split_and!; [done..|].
  intros Hs a [i Hi]%list_elem_of_lookup. destruct i as [|i].
  - rewrite <-head_lookup, Hh in Hi. by injection Hi as <-.
  - by destruct (Hpass i a Hi).
Qed.

Lemma C2_witness :
  head [(0, 0); (0, 1)] = Some (0, 0) ∧ last [(0, 0); (0, 1)] = Some (0, 1) ∧
  (∀ i a b, [(0, 0); (0, 1)] !! i = Some a →
            [(0, 0); (0, 1)] !! S i = Some b → adjacent a b) ∧
  (∀ i a, [(0, 0); (0, 1)] !! S i = Some a → passable [[-1; 1]] a) ∧
  (cost_at [[-1; 1]] (0, 0) ≠ -1 →
   ∀ a, a ∈ [(0, 0); (0, 1)] → cost_at [[-1; 1]] a ≠ -1).
Proof.
  apply (C2_path_valid [[-1; 1]] (0, 0) (0, 1) [(0, 0); (0, 1)] (Fin 1));
    [solve_rect|solve_bounds|].
  exists 5%nat. vm_compute. reflexivity.
Defined.



(** C4. With start equal to end the engine returns the one-element
    path at cost 0 on its first pass, on any grid; and
    [run_base_case] answers [True] exactly when the algorithm returns
    that result on the 2x2 grid of ones. *)
Theorem C4_base_case :
  (∀ (grid : Grid) (s : coord) (fuel : nat),
     rect grid → in_bounds grid s → (0 < fuel)%nat →
     astar_correct fuel grid s s = Some (Ret (Some [s], Fin 0))) ∧
  (∀ (alg : algorithm) (log : list string),
     (∃ log', run_base_case alg log = Some (Ret (true, log'))) ↔
     alg [[1; 1]; [1; 1]] (0, 0) (0, 0) = Some (Ret (Some [(0, 0)], Fin 0))).
Proof.
  split.
  - intros grid s fuel. apply astar_first_pass.
  - intros alg log. unfold run_base_case, cbind, lift.
    destruct (alg _ _ _) as [[[path cost]|]|]; simpl.
    + unfold num_eqb. repeat case_bool_decide; simpl; split.
      * by intros [? [=]].
      * by intros [=].
      * by intros [? [=]].
      * intros [= -> ->]. done.
      * intros _. by simplify_eq.
      * eauto.
      * by intros [? [=]].
      * intros [= -> ->]. done.
    + split; [by intros [? [=]]|done].
    + split; [by intros [? [=]]|done].
Qed.

Lemma C4_witness :
  astar_correct 1 [[7; -1]; [3; 4]] (1, 0) (1, 0) = Some (Ret (Some [(1, 0)], Fin 0)).
Proof.
  apply (proj1 C4_base_case [[7; -1]; [3; 4]] (1, 0) 1%nat);
    [solve_rect|solve_bounds|lia].
Defined.


(** What [is_valid_path] does check: the path is not empty, no two
    consecutive coordinates are more than one step apart, and no
    coordinate after the first is impassable. *)
Lemma is_valid_path_loop_cons (grid : Grid) (x1 y1 x2 y2 : Z) (rest : list coord) :
  is_valid_path_loop grid ((x1, y1) :: (x2, y2) :: rest) =
  if 1 <? Z.abs (x1 - x2) + Z.abs (y1 - y2) then Ret false
  else obind (cell grid (x2, y2)) (λ v,
         if bool_decide (v = -1) then Ret false
         else is_valid_path_loop grid ((x2, y2) :: rest)).
Proof. reflexivity. Qed.

Lemma is_valid_path_loop_spec (grid : Grid) (path : list coord) :
  rect grid →
  (∀ i a, path !! S i = Some a → in_bounds grid a) →
  ∃ b, is_valid_path_loop grid path = Ret b ∧
       (b = true ↔
        (∀ i a c, path !! i = Some a → path !! S i = Some c →
                  Z.abs (a.1 - c.1) + Z.abs (a.2 - c.2) ≤ 1) ∧
        (∀ i a, path !! S i = Some a → cost_at grid a ≠ -1)).
Proof.
  intros Hrect. induction path as [|[x1 y1] path IH]; intros Hin.
  { exists true. split; [done|]. split; [|done]. intros _. split; by intros []. }
  destruct path as [|[x2 y2] path].
  { exists true. split; [done|]. split; [|done]. intros _.
    split; [by intros [|[|?]]|by intros [|?]]. }
  rewrite is_valid_path_loop_cons.
  destruct (Z.ltb_spec 1 (Z.abs (x1 - x2) + Z.abs (y1 - y2))) as [Hfar|Hnear].
  { exists false. split; [done|]. split; [done|]. intros [Hadj _].
    specialize (Hadj 0%nat (x1, y1) (x2, y2) eq_refl eq_refl). simpl in Hadj. lia. }
  rewrite cell_Ret; [|done|by apply (Hin 0%nat)]. cbn [obind].
  case_bool_decide as Hwall.
  { exists false. split; [done|]. split; [done|]. intros [_ Hpass].
    by destruct (Hpass 0%nat (x2, y2) eq_refl). }
  destruct IH as (b & Hloop & Hb).
  { intros i a Ha. by apply (Hin (S i)). }
  exists b. split; [done|]. rewrite Hb. split.
  - intros [Hadj Hpass]. split.
    + intros [|i] a c Ha Hc; simplify_eq/=; [done|]. by eapply Hadj.
    + intros [|i] a Ha; simplify_eq/=; [done|]. by eapply Hpass.
  - intros [Hadj Hpass]. split.
    + intros i a c Ha Hc. by apply (Hadj (S i)).
    + intros i a Ha. by apply (Hpass (S i)).
Qed.

Lemma is_valid_path_spec (grid : Grid) (path : list coord) :
  rect grid →
  (∀ a, a ∈ path → in_bounds grid a) →
  ∃ b, is_valid_path grid path = Ret b ∧
       (b = true ↔
        path ≠ [] ∧
        (∀ i a c, path !! i = Some a → path !! S i = Some c →
                  Z.abs (a.1 - c.1) + Z.abs (a.2 - c.2) ≤ 1) ∧
        (∀ i a, path !! S i = Some a → cost_at grid a ≠ -1)).
Proof.
  intros Hrect Hin. destruct path as [|c path].
  { exists false. split; [done|]. split; [done|]. by intros [? _]. }
  destruct (is_valid_path_loop_spec grid (c :: path) Hrect) as (b & Hb & Hiff).
  { intros i a Ha. apply Hin. by eapply list_elem_of_lookup_2. }
  exists b. split; [done|]. rewrite Hiff. split; [by intros [??]|by intros (_ & ? & ?)].
Qed.

(** C5 as stated fails twice over: the validator accepts a path whose
    first coordinate is an impassable cell, and a path that repeats a
    coordinate. *)
Lemma C5_counterexample :
  ¬ ((∃ c, c ∈ [(0, 0); (0, 1)] ∧ cost_at [[-1; 1]] c = -1) →
     is_valid_path [[-1; 1]] [(0, 0); (0, 1)] = Ret false) ∧
  ¬ ((∃ i a c, [(0, 0); (0, 0)] !! i = Some a ∧ [(0, 0); (0, 0)] !! S i = Some c ∧
               ¬ adjacent a c) →
     is_valid_path [[1; 1]] [(0, 0); (0, 0)] = Ret false).
Proof.
  split; intros H.
  - discriminate H. exists (0, 0). split; [by left|done].
  - discriminate H. exists 0%nat, (0, 0), (0, 0). split_and!; [done..|].
    unfold adjacent. simpl. lia.
Qed.

(** C5, amended. For a path whose coordinates are in bounds,
    [is_valid_path] returns [False] whenever the path is empty, or some
    pair of consecutive coordinates is more than one Manhattan step
    apart, or some coordinate after the first names an impassable cell;
    otherwise it returns [True]. *)
Theorem C5_validator (grid : Grid) (path : list coord) :
  rect grid → (∀ a, a ∈ path → in_bounds grid a) →
  let rejected :=
    path = [] ∨
    (∃ i a c, path !! i = Some a ∧ path !! S i = Some c ∧
              1 < Z.abs (a.1 - c.1) + Z.abs (a.2 - c.2)) ∨
    (∃ i a, path !! S i = Some a ∧ cost_at grid a = -1) in
  (rejected → is_valid_path grid path = Ret false) ∧
  (¬ rejected → is_valid_path grid path = Ret true).
Proof.
  intros Hrect Hin rejected. subst rejected.
  destruct (is_valid_path_spec grid path Hrect Hin) as (b & -> & Hb). split.
  - intros Hbad. destruct b; [|done]. destruct Hb as [(Hne & Hadj & Hpass) _]; [done|].
    destruct Hbad as [->|[(i & a & c & Ha & Hc & Hfar)|(i & a & Ha & Hwall)]].
    + done.
    + specialize (Hadj i a c Ha Hc). lia.
    + by destruct (Hpass i a Ha).
  - intros Hgood. f_equal. apply Hb. split_and!.
    + intros ->. apply Hgood. by left.
    + intros i a c Ha Hc.
      destruct (decide (Z.abs (a.1 - c.1) + Z.abs (a.2 - c.2) ≤ 1)) as [|Hfar]; [done|].
      destruct Hgood. right. left. exists i, a, c. split_and!; [done..|lia].
    + intros i a Ha Hwall. apply Hgood. right. right. by exists i, a.
Qed.

Lemma C5_witness :
  let grid : Grid := [[-1; 1]; [1; 1]] in
  let path : list coord := [(0, 0); (0, 1); (0, 1); (1, 1)] in
  let rejected :=
    path = [] ∨
    (∃ i a c, path !! i = Some a ∧ path !! S i = Some c ∧
              1 < Z.abs (a.1 - c.1) + Z.abs (a.2 - c.2)) ∨
    (∃ i a, path !! S i = Some a ∧ cost_at grid a = -1) in
  (rejected → is_valid_path grid path = Ret false) ∧
  (¬ rejected → is_valid_path grid path = Ret true).
Proof.
  intros grid path.
  apply (C5_validator grid path); [solve_rect|].
  intros a Ha.
  repeat (apply elem_of_cons in Ha as [-> | Ha]; [solve_bounds|]).
  by apply elem_of_nil in Ha.
Defined.

(** C7. On the 5x5 grid of ones, from (0,0) to (4,4), [astar_correct]
    returns cost 8, the Manhattan distance, the start cell's own cost
    not being counted; [find_optimal_cost] returns 8 as well. *)
Theorem C7_five_by_five :
  astar_correct 100 grid5 (0, 0) (4, 4)
  = Some (Ret (Some [(0, 0); (1, 0); (2, 0); (2, 1); (3, 1); (3, 2); (4, 2);
                     (4, 3); (4, 4)], Fin 8)) ∧
  find_optimal_cost 100 grid5 (0, 0) (4, 4) = Some (Ret (Fin 8)) ∧
  manhattan (0, 0) (4, 4) = 8.
Proof. split_and!; vm_compute; reflexivity. Qed.

(** [astar_buggy] never assigns [g]: every node but the start node
    keeps the infinite [g] it was created with. *)
Lemma relax_buggy_g (grid : Grid) (end_ : coord) (cur : Node)
    (closed : gset coord) (open_set : list Node) (cs : list coord) :
  ∀ n, n ∈ foldl (relax_buggy end_ cur closed) open_set
             ((λ c, Node.new c.1 c.2 (cost_at grid c)) <$> cs) →
       n ∈ open_set ∨ Node.g n = Inf.
Proof.
  revert open_set. induction cs as [|c cs IH]; intros open_set n; [by left|].
  rewrite fmap_cons. cbn [foldl]. intros Hn. apply IH in Hn as [Hn|?]; [|by right].
  unfold relax_buggy in Hn. case_decide; [by left|].
  rewrite heappush_Permutation in Hn.
  apply elem_of_cons in Hn as [->|?]; [by right|by left].
Qed.

Lemma astar_buggy_cost (grid : Grid) (start end_ : coord) (r : result) :
  rect grid → in_bounds grid start → start ≠ end_ →
  returns (λ fuel, astar_buggy fuel grid start end_) r → r.2 = Inf.
Proof.
  intros Hrect Hstart Hne [fuel Hr].
  pose proof (in_bounds_rows _ _ Hstart) as Hrows.
  unfold astar_buggy, astar, start_node in Hr. rewrite cell_Ret in Hr by done.
  cbn [obind] in Hr.
  match type of Hr with while _ _ ?s0 = _ =>
    destruct (while_inv (astar_body relax_buggy grid end_)
                (λ st, ∀ n, n ∈ st.1 → Node.xy n = start ∨ Node.g n = Inf)
                fuel s0 (Ret r))
      as (st & Hinv & [(r0 & Hb & [= <-])|[_ [=]]]); [| |exact Hr|]
  end.
  - intros st st' Hinv. unfold astar_body.
    destruct (heappop Node.lt st.1) as [[cur rest]|] eqn:Hpop; [|done].
    case_bool_decide; [done|]. rewrite get_neighbors_spec by done.
    intros [= <-] n Hn. cbn [fst] in Hn.
    apply relax_buggy_g in Hn as [Hn|?]; [|by right].
    apply Hinv. rewrite (heappop_Permutation _ _ _ _ Hpop). by right.
  - intros n ->%list_elem_of_singleton. left. by destruct start.
  - unfold astar_body in Hb.
    destruct (heappop Node.lt st.1) as [[cur rest]|] eqn:Hpop; [|by injection Hb as <-].
    case_bool_decide as Hend; [|by destruct (get_neighbors grid cur)].
    injection Hb as <-. simpl.
    destruct (Hinv cur) as [Hxy|Hg]; [|congruence|done].
    rewrite (heappop_Permutation _ _ _ _ Hpop). by left.
Qed.

(** C8. There is a fully passable 5x5 grid with costs within 1..10,
    start and end at opposite corners, on which [astar_buggy] returns a
    cost other than that of [find_optimal_cost], so that the Optimality
    property fails on it. *)
Theorem C8_buggy_not_optimal :
  ∃ (grid : Grid) (side : Z) (path : option (list coord)) (cb co : num),
    5 ≤ side ∧ rows grid = side ∧
    Forall (λ row, Z.of_nat (length row) = side ∧ Forall (λ v, 1 ≤ v ≤ 10) row) grid ∧
    returns (λ fuel, astar_buggy fuel grid (0, 0) (side - 1, side - 1)) (path, cb) ∧
    returns (λ fuel, find_optimal_cost fuel grid (0, 0) (side - 1, side - 1)) co ∧
    cb ≠ co ∧
    Property.check is_optimal_prop
      {| Input.grid := grid; Input.optimal_cost := co;
         Input.start := (0, 0); Input.end_ := (side - 1, side - 1) |}
      (path, cb) = Ret false.
Proof.
  exists grid5, 5,
    (Some [(0, 0); (0, 1); (0, 2); (0, 3); (0, 4); (1, 4); (2, 4); (3, 4); (4, 4)]),
    Inf, (Fin 8).
  split_and!; [lia|done| | | |done|done].
  - repeat constructor; lia.
  - exists 100%nat. vm_compute. reflexivity.
  - exists 100%nat. vm_compute. reflexivity.
Qed.

(** C9. Neither the oracle nor the engine looks at whether the start
    cell is passable: with start equal to end the oracle returns 0 and
    the engine the one-element path at cost 0, whatever the cell holds,
    the sentinel [-1] included. *)
Theorem C9_start_not_validated (grid : Grid) (s : coord) (fuel : nat) :
  rect grid → in_bounds grid s → (0 < fuel)%nat →
  find_optimal_cost fuel grid s s = Some (Ret (Fin 0)) ∧
  astar_correct fuel grid s s = Some (Ret (Some [s], Fin 0)).
Proof.
  intros Hrect Hs Hfuel. split.
  - by apply oracle_first_pass.
  - by apply astar_first_pass.
Qed.

Lemma C9_witness :
  cost_at [[1; 1]; [1; -1]] (1, 1) = -1 ∧
  find_optimal_cost 1 [[1; 1]; [1; -1]] (1, 1) (1, 1) = Some (Ret (Fin 0)) ∧
  astar_correct 1 [[1; 1]; [1; -1]] (1, 1) (1, 1) = Some (Ret (Some [(1, 1)], Fin 0)).
Proof.
  split; [reflexivity|].
  apply (C9_start_not_validated [[1; 1]; [1; -1]] (1, 1) 1);
    [solve_rect|solve_bounds|lia].
Defined.


(** * Further properties of the engine *)

Lemma NoDup_neighbors_of (grid : Grid) (u : coord) : NoDup (neighbors_of grid u).
Proof.
  unfold neighbors_of. apply NoDup_filter.
  destruct u as [x y]. unfold possible_moves, shift. simpl.
  repeat (apply NoDup_cons; split;
          [rewrite ?elem_of_cons, elem_of_nil; intros H;
           repeat (destruct H as [H|H]; [injection H; lia|]); done|]).
  apply NoDup_nil_2.
Qed.

(** X1. [get_neighbors] raises [IndexError] on the empty grid, where
    [len(grid[0])] fails; on a non-empty matrix it returns exactly one
    fresh node for each cell that is one move away, in bounds and not
    [-1], and none for any other cell: the nodes returned lie on
    pairwise distinct cells, in the order right, left, down, up of the
    moves, and so are at most four. *)
Theorem X1_get_neighbors (node : Node) :
  get_neighbors [] node = IndexError ∧
  ∀ grid : Grid, rect grid → 0 < rows grid →
    ∃ ns, get_neighbors grid node = Ret ns ∧
      (length ns ≤ 4)%nat ∧
      NoDup (Node.xy <$> ns) ∧
      Node.xy <$> ns =
        filter (passable grid)
          [(Node.x node, Node.y node + 1); (Node.x node, Node.y node - 1);
           (Node.x node + 1, Node.y node); (Node.x node - 1, Node.y node)] ∧
      (∀ n, n ∈ ns →
         adjacent (Node.xy node) (Node.xy n) ∧ passable grid (Node.xy n) ∧
         Node.cost n = cost_at grid (Node.xy n) ∧
         Node.g n = Inf ∧ Node.h n = 0 ∧ Node.f n = Inf ∧ Node.parent n = None) ∧
      (∀ v, adjacent (Node.xy node) v → passable grid v →
         ∃ n, n ∈ ns ∧ Node.xy n = v ∧ ∀ n', n' ∈ ns → Node.xy n' = v → n' = n).
Proof.
  split; [done|]. intros grid Hrect Hrows.
  assert (∀ cs : list coord,
            Node.xy <$> ((λ c, Node.new c.1 c.2 (cost_at grid c)) <$> cs) = cs) as Hxy.
  { intros cs. rewrite <-list_fmap_compose. rewrite <-(list_fmap_id cs) at 2.
    apply list_fmap_ext. by intros _ [??] _. }
  eexists. split; [by apply get_neighbors_spec|]. split_and!.
  - rewrite length_fmap. apply length_neighbors_of.
  - rewrite Hxy. apply NoDup_neighbors_of.
  - rewrite Hxy. unfold neighbors_of, possible_moves, shift, Node.xy. simpl.
    by rewrite !Z.add_0_r.
  - intros n ([x y] & -> & [??]%elem_of_neighbors_of)%list_elem_of_fmap. done.
  - intros [x y] Hadj Hv. exists (Node.new x y (cost_at grid (x, y))). split_and!; [|done|].
    + apply list_elem_of_fmap. exists (x, y). split; [done|].
      by apply elem_of_neighbors_of.
    + intros n' ([x' y'] & -> & _)%list_elem_of_fmap. by intros [= -> ->].
Qed.

Lemma X1_witness :
  ∃ ns, get_neighbors [[1; -1]; [2; 3]] (Node.new 0 0 1) = Ret ns ∧
    (length ns ≤ 4)%nat ∧
    NoDup (Node.xy <$> ns) ∧
    Node.xy <$> ns =
      filter (passable [[1; -1]; [2; 3]]) [(0, 0 + 1); (0, 0 - 1); (0 + 1, 0); (0 - 1, 0)] ∧
    (∀ n, n ∈ ns →
       adjacent (0, 0) (Node.xy n) ∧ passable [[1; -1]; [2; 3]] (Node.xy n) ∧
       Node.cost n = cost_at [[1; -1]; [2; 3]] (Node.xy n) ∧
       Node.g n = Inf ∧ Node.h n = 0 ∧ Node.f n = Inf ∧ Node.parent n = None) ∧
    (∀ v, adjacent (0, 0) v → passable [[1; -1]; [2; 3]] v →
       ∃ n, n ∈ ns ∧ Node.xy n = v ∧ ∀ n', n' ∈ ns → Node.xy n' = v → n' = n).
Proof.
  apply (proj2 (X1_get_neighbors (Node.new 0 0 1)) [[1; -1]; [2; 3]]);
    [solve_rect|unfold rows; simpl; lia].
Defined.



Lemma get_path_loop_ancestors (n : Node) :
  get_path_loop n = Node.xy n :: ancestors n.
Proof. by destruct n as [x y c g h f [p|]]. Qed.

Lemma get_path_snoc (n p : Node) :
  Node.parent n = Some p → get_path n = get_path p ++ [Node.xy n].
Proof.
  intros Hp. unfold get_path. rewrite (get_path_loop_ancestors n).
  unfold ancestors. rewrite Hp. by rewrite reverse_cons.
Qed.

Lemma get_path_root (n : Node) :
  Node.parent n = None → get_path n = [Node.xy n].
Proof.
  intros Hp. unfold get_path. rewrite (get_path_loop_ancestors n).
  unfold ancestors. by rewrite Hp.
Qed.

Lemma get_path_nonempty (n : Node) : get_path n ≠ [].
Proof.
  unfold get_path. rewrite get_path_loop_ancestors, reverse_cons.
  by destruct (reverse (ancestors n)).
Qed.

Lemma path_cost_snoc (grid : Grid) (path : list coord) (v : coord) :
  path ≠ [] → path_cost grid (path ++ [v]) = path_cost grid path + cost_at grid v.
Proof.
  intros Hne. destruct path as [|c path]; [done|]. unfold path_cost. simpl.
  clear Hne. induction path as [|d path IH]; simpl; [lia|]. rewrite IH. lia.
Qed.

Lemma chain_cost (grid : Grid) (start : coord) (n : Node) :
  chain grid start n → Node.g n = Fin (path_cost grid (get_path n)).
Proof.
  induction 1 as [n _ Hg Hp|p n _ IH _ _ Hp Hg].
  - by rewrite get_path_root, Hg.
  - rewrite (get_path_snoc n p Hp), path_cost_snoc by apply get_path_nonempty.
    by rewrite Hg, IH.
Qed.

(** X3. The cost [astar_correct] reports with a path is what the path
    pays: the sum of the grid values of its cells, the first left out. *)
Theorem X3_cost_of_path (grid : Grid) (start end_ : coord)
    (path : list coord) (cost : num) :
  rect grid → in_bounds grid start →
  returns (λ fuel, astar_correct fuel grid start end_) (Some path, cost) →
  cost = Fin (path_cost grid path).
Proof.
  intros Hrect Hstart Hr.
  destruct (astar_correct_spec grid start end_ _ Hrect Hstart Hr)
    as [[[=] _]|(n & Hch & _ & [= -> ->])].
  by eapply chain_cost.
Qed.

Lemma X3_witness :
  Fin 9 = Fin (path_cost [[1; 9; 1]; [2; 9; 1]; [3; 1; 1]]
                 [(0, 0); (1, 0); (2, 0); (2, 1); (2, 2); (1, 2); (0, 2)]).
Proof.
  apply (X3_cost_of_path [[1; 9; 1]; [2; 9; 1]; [3; 1; 1]] (0, 0) (0, 2));
    [solve_rect|solve_bounds|].
  exists 50%nat. vm_compute. reflexivity.
Defined.

Lemma acyclic_init (s : Node) : Node.parent s = None → acyclic ([s], ∅).
Proof.
  intros Hp n ->%list_elem_of_singleton. rewrite get_path_loop_ancestors.
  unfold ancestors. rewrite Hp. split; [|by intros c ?%elem_of_nil].
  apply NoDup_singleton.
Qed.

Lemma acyclic_step (grid : Grid) (start end_ : coord) (st st' : astar_state) :
  rect grid → 0 < rows grid →
  nodes_ok grid start st → acyclic st →
  astar_body relax_correct grid end_ st = Next st' →
  acyclic st'.
Proof.
  intros Hrect Hrows Hok Hac Hb.
  destruct st as [open_set closed]. destruct st' as [open_set' closed'].
  apply astar_body_correct_Next in Hb
    as (cur & rest & Hperm & _ & Hcl & Hperm' & _);
    [|done..|by apply (nodes_ok_Fin grid start (open_set, closed))].
  cbn [fst snd] in *. intros n. cbn [fst snd]. rewrite Hperm'.
  intros [Hn|Hn]%elem_of_app.
  - destruct (Hac n) as [Hnd Hanc]; [simpl; rewrite Hperm; by right|].
    split; [done|]. intros c Hc. rewrite Hcl. apply elem_of_union. left.
    by apply Hanc.
  - apply list_elem_of_fmap in Hn as (v & -> & [Hv _]%list_elem_of_filter).
    destruct (Hac cur) as [Hnd Hanc]; [simpl; rewrite Hperm; by left|].
    assert (∀ c, c ∈ get_path_loop cur → c ∈ closed') as Hin.
    { intros c. rewrite get_path_loop_ancestors, Hcl.
      intros [->|Hc]%elem_of_cons; [set_solver|].
      apply elem_of_union. left. by apply Hanc. }
    rewrite get_path_loop_ancestors, xy_expand.
    change (ancestors (expand grid end_ cur v)) with (get_path_loop cur).
    split; [|done]. apply NoDup_cons. split; [|done].
    intros Hc. by apply Hv, Hin.
Qed.

(** X4. A path returned by [astar_correct] visits no cell twice. *)
Theorem X4_path_simple (grid : Grid) (start end_ : coord)
    (path : list coord) (cost : num) :
  rect grid → in_bounds grid start →
  returns (λ fuel, astar_correct fuel grid start end_) (Some path, cost) →
  NoDup path.
Proof.
  intros Hrect Hstart [fuel Hr]. pose proof (in_bounds_rows _ _ Hstart) as Hrows.
  destruct (start_node_Ret grid start Hrect Hstart) as (s & Hs & Hch & Hp & _).
  unfold astar_correct, astar in Hr. rewrite Hs in Hr.
  destruct (while_inv (astar_body relax_correct grid end_)
              (λ st, nodes_ok grid start st ∧ acyclic st)
              fuel ([s], ∅) (Ret (Some path, cost)))
    as ([open_set closed] & [Hok Hac] & [(r0 & Hb & [= <-])|[_ [=]]]); [| |done|].
  { intros st st' [Hok Hac] Hb. split.
    - by eapply nodes_ok_step.
    - by eapply acyclic_step. }
  { split; [by apply nodes_ok_init|by apply acyclic_init]. }
  apply astar_body_correct_Done in Hb
    as [[_ [=]]|(cur & rest & Hperm & _ & [= -> ->] & _)];
    [|done..|by apply (nodes_ok_Fin grid start (open_set, closed))].
  destruct (Hac cur) as [Hnd _]; [simpl; rewrite Hperm; by left|].
  unfold get_path. by rewrite reverse_Permutation.
Qed.

Lemma X4_witness :
  NoDup [(0, 0); (1, 0); (2, 0); (2, 1); (2, 2); (1, 2); (0, 2)].
Proof.
  apply (X4_path_simple [[1; 9; 1]; [2; 9; 1]; [3; 1; 1]] (0, 0) (0, 2) _ (Fin 9));
    [solve_rect|solve_bounds|].
  exists 50%nat. vm_compute. reflexivity.
Defined.

Lemma walk_manhattan (grid : Grid) (s v : coord) (k : Z) :
  rect grid → costs_ge 1 grid → walk grid s v k → manhattan s v ≤ k.
Proof.
  intros Hrect Hge. induction 1 as [|u v k _ IH Huv Hv].
  - by rewrite manhattan_self.
  - pose proof (costs_ge_passable 1 grid v Hrect Hge Hv).
    unfold manhattan, adjacent in *. lia.
Qed.

(** X5. The heuristic is admissible where every enterable cell costs
    at least 1: it never exceeds the cost of any sequence of moves from
    the node's cell to the end. *)
Theorem X5_heuristic_admissible (grid : Grid) (end_ : coord) (node : Node) (k : Z) :
  rect grid → costs_ge 1 grid →
  walk grid (Node.xy node) end_ k →
  heuristic end_ node ≤ k.
Proof.
  intros Hrect Hge Hw. apply (walk_manhattan grid _ _ _ Hrect Hge Hw).
Qed.

Lemma X5_witness :
  heuristic (1, 1) (Node.new 0 0 1)
  ≤ 0 + cost_at [[1; 1]; [1; 5]] (0, 1) + cost_at [[1; 1]; [1; 5]] (1, 1).
Proof.
  apply (X5_heuristic_admissible [[1; 1]; [1; 5]] (1, 1) (Node.new 0 0 1));
    [solve_rect|solve_costs|].
  walk_to (0, 1). walk_to (0, 0). constructor.
Defined.


(** * Further properties of the oracle *)



Lemma walk_cheaper (grid grid' : Grid) (s v : coord) (k' : Z) :
  (∀ c, passable grid' c → passable grid c ∧ cost_at grid c ≤ cost_at grid' c) →
  walk grid' s v k' → ∃ k, walk grid s v k ∧ k ≤ k'.
Proof.
  intros Hle. induction 1 as [|u v k' _ (k & Hw & ?) Huv Hv].
  - exists 0. split; [constructor|done].
  - destruct (Hle v Hv) as [Hv' ?]. exists (k + cost_at grid v).
    split; [by econstructor|lia].
Qed.

(** X7. Raising costs or adding walls never lowers the optimal cost:
    if every cell that can be entered in [grid'] can be entered in
    [grid] at no greater cost, and the oracle finds a finite cost on
    [grid'], it finds a finite cost on [grid] that is no greater. *)
Theorem X7_oracle_monotone (grid grid' : Grid) (start end_ : coord)
    (r : num) (k' : Z) :
  rect grid → rect grid' → costs_ge 0 grid →
  (∀ c, passable grid' c → passable grid c ∧ cost_at grid c ≤ cost_at grid' c) →
  returns (λ fuel, find_optimal_cost fuel grid start end_) r →
  returns (λ fuel, find_optimal_cost fuel grid' start end_) (Fin k') →
  ∃ k, r = Fin k ∧ k ≤ k'.
Proof.
  intros Hrect Hrect' Hge Hle Hr Hr'.
  destruct (find_optimal_cost_spec grid' start end_ Hrect' _ Hr')
    as [[[=] _]|(k0 & [= <-] & Hw' & _)].
  destruct (walk_cheaper grid grid' _ _ _ Hle Hw') as (k1 & Hw1 & ?).
  destruct (find_optimal_cost_spec grid start end_ Hrect r Hr)
    as [[_ Hun]|(k & -> & _ & Hleast)].
  - destruct Hun. by exists k1.
  - exists k. split; [done|]. specialize (Hleast Hge k1 Hw1). lia.
Qed.

Lemma X7_witness : ∃ k, Fin 2 = Fin k ∧ k ≤ 6.
Proof.
  apply (X7_oracle_monotone [[1; 1]; [1; 1]] [[1; 5]; [-1; 1]] (0, 0) (1, 1));
    [solve_rect|solve_rect|solve_costs| | |].
  - intros [x y] [[Hx Hy] Hne]. unfold rows, width in *. simpl in *.
    assert ((x = 0 ∨ x = 1) ∧ (y = 0 ∨ y = 1)) as [[-> | ->] [-> | ->]] by lia;
      (split; [solve_passable|]); vm_compute; try discriminate.
    by destruct Hne.
  - exists 50%nat. vm_compute. reflexivity.
  - exists 50%nat. vm_compute. reflexivity.
Defined.








(** * Further properties of the validator *)

(** X9. What [is_valid_path] decides, when every coordinate after the
    first indexes the grid: it returns without raising, and answers
    [True] exactly when the path is not empty, no two consecutive
    coordinates are more than one Manhattan step apart, and no
    coordinate after the first holds [-1].  The first coordinate is
    never looked up. *)
Theorem X9_validator_decides (grid : Grid) (path : list coord) :
  rect grid →
  (∀ i a, path !! S i = Some a → in_bounds grid a) →
  ∃ b, is_valid_path grid path = Ret b ∧
       (b = true ↔
        path ≠ [] ∧
        (∀ i a c, path !! i = Some a → path !! S i = Some c →
                  Z.abs (a.1 - c.1) + Z.abs (a.2 - c.2) ≤ 1) ∧
        (∀ i a, path !! S i = Some a → cost_at grid a ≠ -1)).
Proof.
  intros Hrect Hin. destruct path as [|c path].
  { exists false. split; [done|]. split; [done|]. by intros [? _]. }
  destruct (is_valid_path_loop_spec grid (c :: path) Hrect Hin) as (b & Hb & Hiff).
  exists b. split; [done|]. rewrite Hiff.
  split; [by intros [??]|by intros (_ & ? & ?)].
Qed.

Lemma X9_witness :
  ∃ b, is_valid_path [[-1; 1]; [1; 1]] [(7, 7); (0, 1); (1, 1)] = Ret b ∧
       (b = true ↔
        ([(7, 7); (0, 1); (1, 1)] : list coord) ≠ [] ∧
        (∀ i a c, ([(7, 7); (0, 1); (1, 1)] : list coord) !! i = Some a →
                  [(7, 7); (0, 1); (1, 1)] !! S i = Some c →
                  Z.abs (a.1 - c.1) + Z.abs (a.2 - c.2) ≤ 1) ∧
        (∀ i a, ([(7, 7); (0, 1); (1, 1)] : list coord) !! S i = Some a →
                cost_at [[-1; 1]; [1; 1]] a ≠ -1)).
Proof.
  apply (X9_validator_decides [[-1; 1]; [1; 1]] [(7, 7); (0, 1); (1, 1)]);
    [solve_rect|].
  intros [|[|[|i]]] a Ha; simplify_eq/=; solve_bounds.
Defined.

Lemma is_valid_path_loop_app (grid : Grid) (l q : list coord) (c : coord) :
  last l = Some c →
  is_valid_path_loop grid (l ++ q) =
  match is_valid_path_loop grid l with
  | Ret true => is_valid_path_loop grid (c :: q)
  | r => r
  end.
Proof.
  induction l as [|[x1 y1] l IH]; [done|]. destruct l as [|[x2 y2] l].
  { intros [= <-]. done. }
  rewrite last_cons_cons. intros Hl. specialize (IH Hl).
  change (((x1, y1) :: (x2, y2) :: l) ++ q)
    with ((x1, y1) :: (x2, y2) :: (l ++ q)).
  rewrite !is_valid_path_loop_cons.
  destruct (1 <? _); [done|]. destruct (cell grid (x2, y2)) as [v|]; [|done].
  cbn [obind]. destruct (bool_decide (v = -1)); [done|]. exact IH.
Qed.

(** X10. Validation proceeds pair by pair and stops at the first
    verdict: for a path extended by further coordinates, a rejection or
    an [IndexError] on the path stands for the extension, and after an
    acceptance the extension is judged from the path's last coordinate
    on. *)
Theorem X10_validator_extends (grid : Grid) (p q : list coord) (c : coord) :
  is_valid_path grid ((p ++ [c]) ++ q) =
  match is_valid_path grid (p ++ [c]) with
  | Ret true => is_valid_path grid (c :: q)
  | r => r
  end.
Proof.
  assert (∀ l : list coord, l ≠ [] → is_valid_path grid l = is_valid_path_loop grid l)
    as Hne by (by intros [|??]).
  rewrite !Hne; [|done|by destruct p|by destruct p].
  apply is_valid_path_loop_app, last_snoc.
Qed.

Lemma engine_path_valid (grid : Grid) (start end_ : coord)
    (path : list coord) (cost : num) :
  rect grid → in_bounds grid start →
  returns (λ fuel, astar_correct fuel grid start end_) (Some path, cost) →
  is_valid_path grid path = Ret true.
Proof.
  intros Hrect Hstart Hr.
  destruct (astar_correct_spec grid start end_ _ Hrect Hstart Hr)
    as [[[=] _]|(n & Hch & Hxy & [= -> ->])].
  apply chain_path in Hch.
  destruct (path_from_facts _ _ _ _ Hch) as (Hh & _ & Hadj & Hpass).
  destruct (is_valid_path_spec grid (get_path n) Hrect) as (b & -> & Hb).
  - intros a [[|i] Hi]%list_elem_of_lookup.
    + rewrite <-head_lookup, Hh in Hi. by injection Hi as <-.
    + by destruct (Hpass i a Hi).
  - f_equal. apply Hb. split_and!.
    + apply get_path_nonempty.
    + intros i a c Ha Hc. specialize (Hadj i a c Ha Hc). unfold adjacent in Hadj. lia.
    + intros i a Ha. by destruct (Hpass i a Ha).
Qed.

(** X11. The validator accepts every path [astar_correct] returns, on
    any matrix with an in-bounds start, so the Validity property holds
    of every such result. *)
Theorem X11_engine_path_accepted (grid : Grid) (start end_ : coord)
    (path : list coord) (cost : num) (optimal_cost : num) :
  rect grid → in_bounds grid start →
  returns (λ fuel, astar_correct fuel grid start end_) (Some path, cost) →
  is_valid_path grid path = Ret true ∧
  Property.check is_valid_prop
    {| Input.grid := grid; Input.optimal_cost := optimal_cost;
       Input.start := start; Input.end_ := end_ |}
    (Some path, cost) = Ret true.
Proof.
  intros Hrect Hstart Hr.
  pose proof (engine_path_valid grid start end_ path cost Hrect Hstart Hr).
  by split.
Qed.

Lemma X11_witness :
  is_valid_path [[-1; 1]; [1; 1]] [(0, 0); (0, 1); (1, 1)] = Ret true ∧
  Property.check is_valid_prop
    {| Input.grid := [[-1; 1]; [1; 1]]; Input.optimal_cost := Fin 2;
       Input.start := (0, 0); Input.end_ := (1, 1) |}
    (Some [(0, 0); (0, 1); (1, 1)], Fin 2) = Ret true.
Proof.
  apply (X11_engine_path_accepted [[-1; 1]; [1; 1]] (0, 0) (1, 1) _ (Fin 2) (Fin 2));
    [solve_rect|solve_bounds|].
  exists 50%nat. vm_compute. reflexivity.
Defined.


(** * The defective engine *)

Lemma relax_buggy_fold (grid : Grid) (end_ : coord) (cur : Node)
    (closed : gset coord) (open_set : list Node) (cs : list coord) :
  foldl (relax_buggy end_ cur closed) open_set
    ((λ c, Node.new c.1 c.2 (cost_at grid c)) <$> cs)
  = foldl (heappush Node.lt) open_set
      (expand_buggy grid end_ cur <$> filter (λ c, c ∉ closed) cs).
Proof.
  revert open_set. induction cs as [|[x y] cs IH]; intros open_set; [done|].
  rewrite fmap_cons. cbn [foldl]. rewrite IH.
  unfold relax_buggy at 1. cbn [Node.xy Node.new Node.x Node.y Node.g Node.cost fst snd].
  case_decide as Hin.
  - by rewrite filter_cons_False by (intros ?; done).
  - rewrite filter_cons_True by done. by rewrite fmap_cons.
Qed.

Lemma astar_body_buggy_eq (grid : Grid) (end_ : coord) (st : astar_state) :
  rect grid → 0 < rows grid →
  astar_body relax_buggy grid end_ st =
  match heappop Node.lt st.1 with
  | None => Done (None, Inf)
  | Some (cur, rest) =>
      if bool_decide (Node.xy cur = end_)
      then Done (Some (get_path cur), Node.g cur)
      else
        let closed' := st.2 ∪ {[Node.xy cur]} in
        Next (foldl (heappush Node.lt) rest
                (expand_buggy grid end_ cur <$>
                   filter (λ c, c ∉ closed') (neighbors_of grid (Node.xy cur))),
              closed')
  end.
Proof.
  intros Hrect Hrows. unfold astar_body.
  destruct (heappop Node.lt st.1) as [[cur rest]|]; [|done].
  destruct (bool_decide _); [done|].
  rewrite get_neighbors_spec by done. by rewrite relax_buggy_fold.
Qed.

Lemma astar_body_buggy_Next (grid : Grid) (end_ : coord) (st st' : astar_state) :
  rect grid → 0 < rows grid →
  astar_body relax_buggy grid end_ st = Next st' →
  ∃ cur rest,
    st.1 ≡ₚ cur :: rest ∧
    Node.xy cur ≠ end_ ∧
    st'.2 = st.2 ∪ {[Node.xy cur]} ∧
    st'.1 ≡ₚ rest ++ (expand_buggy grid end_ cur <$>
                       filter (λ c, c ∉ st'.2) (neighbors_of grid (Node.xy cur))).
Proof.
  intros Hrect Hrows. rewrite astar_body_buggy_eq by done.
  destruct (heappop Node.lt st.1) as [[cur rest]|] eqn:Hpop; [|done].
  case_bool_decide as Hend; [done|]. intros [= <-]. cbn [fst snd].
  exists cur, rest. split_and!; [by apply (heappop_Permutation Node.lt)|done..|].
  apply push_all_Permutation.
Qed.

Lemma astar_body_buggy_Done (grid : Grid) (end_ : coord) (st : astar_state)
    (r : result) :
  rect grid → 0 < rows grid →
  astar_body relax_buggy grid end_ st = Done r →
  (st.1 = [] ∧ r = (None, Inf)) ∨
  ∃ cur rest,
    st.1 ≡ₚ cur :: rest ∧ Node.xy cur = end_ ∧
    r = (Some (get_path cur), Node.g cur).
Proof.
  intros Hrect Hrows. rewrite astar_body_buggy_eq by done.
  destruct (heappop Node.lt st.1) as [[cur rest]|] eqn:Hpop.
  - case_bool_decide as Hend; [|done]. intros [= <-]. right.
    exists cur, rest. split_and!; [by apply (heappop_Permutation Node.lt)|done..].
  - intros [= <-]. left. split; [|done]. by apply (heappop_None Node.lt).
Qed.

Lemma xy_expand_buggy (grid : Grid) (end_ : coord) (p : Node) (c : coord) :
  Node.xy (expand_buggy grid end_ p c) = c.
Proof. by destruct c. Qed.

Lemma linked_path (grid : Grid) (start : coord) (n : Node) :
  linked grid start n → path_from grid start (get_path n) (Node.xy n).
Proof.
  induction 1 as [n Hxy Hp|p n _ IH Hadj Hpass Hp].
  - rewrite get_path_root by done. rewrite <-Hxy. constructor.
  - rewrite (get_path_snoc n p Hp). by econstructor.
Qed.

Lemma path_from_walk (grid : Grid) (s v : coord) (p : list coord) :
  path_from grid s p v → reachable grid s v.
Proof.
  induction 1 as [|p u v _ [k Hw] Huv Hv].
  - exists 0. constructor.
  - eexists. by econstructor.
Qed.

(** A pass of either engine pops a node whose cell lies in the grid,
    closes the cell, and pushes at most four nodes on open cells: the
    measure goes down. *)
Lemma astar_measure_pass (grid : Grid) (closed : gset coord)
    (open_set open_set' rest pushed : list Node) (cur : Node) :
  open_set ≡ₚ cur :: rest → open_set' ≡ₚ rest ++ pushed →
  (length pushed ≤ 4)%nat →
  (∀ n, n ∈ pushed → Node.xy n ∉ closed ∪ {[Node.xy cur]}) →
  in_bounds grid (Node.xy cur) →
  (astar_measure grid (open_set', closed ∪ {[Node.xy cur]})
   < astar_measure grid (open_set, closed))%nat.
Proof.
  intros Hperm Hperm' Hlen Hfresh Hcur.
  unfold astar_measure. cbn [fst snd]. rewrite Hperm, Hperm'.
  rewrite sum_list_with_app. cbn [sum_list_with].
  set (closed' := closed ∪ {[Node.xy cur]}) in *.
  assert (sum_list_with (weight grid closed') pushed
          ≤ length pushed * 5 ^ open_cells grid closed')%nat as Hpushed.
  { apply sum_list_with_bound. intros n Hn. unfold weight.
    rewrite decide_False by by apply Hfresh. by rewrite Nat.add_0_r. }
  pose proof (Nat.pow_nonzero 5 (open_cells grid closed') ltac:(lia)).
  destruct (decide (Node.xy cur ∈ closed)) as [Hin|Hin].
  - assert (closed' = closed) as Heq by set_solver.
    clearbody closed'. subst closed'.
    unfold weight at 3. rewrite decide_True by done.
    rewrite Nat.pow_add_r. change (5 ^ 1)%nat with 5%nat. nia.
  - assert (sum_list_with (weight grid closed') rest
            ≤ sum_list_with (weight grid closed) rest)%nat as Hrest.
    { apply sum_list_with_le. intros n _. unfold weight.
      rewrite (open_cells_close grid closed (Node.xy cur)) by done. fold closed'.
      apply Nat.pow_le_mono_r; [lia|]. repeat case_decide; lia. }
    unfold weight at 3. rewrite decide_False by done.
    rewrite (open_cells_close grid closed (Node.xy cur)) by done. fold closed'.
    rewrite Nat.add_0_r. rewrite Nat.pow_succ_r'. nia.
Qed.

Lemma start_node_xy (grid : Grid) (start : coord) (s : Node) :
  start_node grid start = Ret s → Node.xy s = start ∧ Node.parent s = None.
Proof.
  unfold start_node. destruct (cell grid start); [|done]. simpl.
  intros [= <-]. by destruct start.
Qed.

Section buggy.
Context (grid : Grid) (start end_ : coord).
Context (Hrect : rect grid) (Hstart : in_bounds grid start).

Lemma buggy_inv_step (st st' : astar_state) :
  nodes_linked grid start st → explored grid start end_ st →
  astar_body relax_buggy grid end_ st = Next st' →
  nodes_linked grid start st' ∧ explored grid start end_ st' ∧
  (astar_measure grid st' < astar_measure grid st)%nat.
Proof.
  intros Hok (Hend & Hseen & Hadj) Hb.
  pose proof (in_bounds_rows _ _ Hstart) as Hrows.
  apply astar_body_buggy_Next in Hb
    as (cur & rest & Hperm & Hne & Hcl & Hperm'); [|done..].
  destruct st as [open_set closed]. destruct st' as [open_set' closed'].
  cbn [fst snd] in *.
  destruct (Hok cur) as [Hlc Hbc]; [simpl; rewrite Hperm; by left|].
  set (pushed := expand_buggy grid end_ cur <$> _) in Hperm'.
  assert (∀ n, n ∈ pushed →
            ∃ v, n = expand_buggy grid end_ cur v ∧ adjacent (Node.xy cur) v ∧
                 passable grid v ∧ v ∉ closed') as Hpushed.
  { intros n (v & -> & [Hv1 Hv2]%list_elem_of_filter)%list_elem_of_fmap.
    apply elem_of_neighbors_of in Hv2 as [??]. eauto. }
  assert (∀ v, seen (open_set, closed) v → seen (open_set', closed') v) as Hmono.
  { intros v [Hv|(n & Hn & Hv)]; [left; set_solver|].
    simpl in Hn. rewrite Hperm in Hn. apply elem_of_cons in Hn as [->|Hn].
    - left. set_solver.
    - right. exists n. split; [|done]. simpl. rewrite Hperm'. set_solver. }
  split_and!.
  - intros n. cbn [fst]. rewrite Hperm'. intros [Hn|Hn]%elem_of_app.
    + apply Hok. simpl. rewrite Hperm. by right.
    + destruct (Hpushed n Hn) as (v & -> & Hcv & Hv & _).
      rewrite xy_expand_buggy. split; [|by destruct Hv].
      eapply linked_step; [done| | |done]; by rewrite xy_expand_buggy.
  - split_and!; [set_solver|by apply Hmono|].
    intros u v Hu Huv Hv. simpl in Hu. rewrite Hcl in Hu.
    apply elem_of_union in Hu as [Hu|Hu]; [|apply elem_of_singleton in Hu as ->].
    { apply Hmono. by eapply Hadj. }
    destruct (decide (v ∈ closed')) as [Hin|Hin]; [by left|].
    right. exists (expand_buggy grid end_ cur v). split; [|apply xy_expand_buggy].
    simpl. rewrite Hperm'. apply elem_of_app. right.
    apply list_elem_of_fmap. exists v. split; [done|].
    apply list_elem_of_filter. split; [done|]. by apply elem_of_neighbors_of.
  - rewrite Hcl. apply (astar_measure_pass grid closed open_set open_set' rest pushed);
      [done..| | |done].
    + subst pushed. rewrite length_fmap.
      etrans; [apply length_filter|]. apply length_neighbors_of.
    + intros n (v & -> & _ & _ & Hv)%Hpushed. rewrite xy_expand_buggy.
      by rewrite <-Hcl.
Qed.

Lemma astar_buggy_spec (r : result) :
  returns (λ fuel, astar_buggy fuel grid start end_) r →
  (r = (None, Inf) ∧ ¬ reachable grid start end_) ∨
  (∃ n, linked grid start n ∧ Node.xy n = end_ ∧
        r = (Some (get_path n), Node.g n)).
Proof.
  intros [fuel Hr]. pose proof (in_bounds_rows _ _ Hstart) as Hrows.
  destruct (start_node_Ret grid start Hrect Hstart) as (s & Hs & _).
  destruct (start_node_xy grid start s Hs) as [Hxy Hp].
  unfold astar_buggy, astar in Hr. rewrite Hs in Hr.
  destruct (while_inv (astar_body relax_buggy grid end_)
              (λ st, nodes_linked grid start st ∧ explored grid start end_ st)
              fuel ([s], ∅) (Ret r))
    as (st & [Hok Hex] & [(r0 & Hb & [= <-])|[_ [=]]]); [| |done|].
  { intros st st' [Hok Hex] Hb.
    by destruct (buggy_inv_step st st' Hok Hex Hb) as (? & ? & _). }
  { split; [|by apply explored_init].
    intros n ->%list_elem_of_singleton. rewrite Hxy. split; [|done].
    by apply linked_start. }
  apply astar_body_buggy_Done in Hb
    as [[Hnil ->]|(cur & rest & Hperm & Hend & ->)]; [| |done..].
  - left. split; [done|]. destruct st as [open_set closed]. simpl in Hnil.
    subst open_set. by eapply explored_exhausted.
  - right. exists cur. split_and!; [|done..]. apply Hok. rewrite Hperm. by left.
Qed.

Lemma astar_buggy_returns :
  ∃ r, returns (λ fuel, astar_buggy fuel grid start end_) r.
Proof.
  pose proof (in_bounds_rows _ _ Hstart) as Hrows.
  destruct (start_node_Ret grid start Hrect Hstart) as (s & Hs & _).
  destruct (start_node_xy grid start s Hs) as [Hxy Hp].
  set (Inv := λ st : astar_state,
         nodes_linked grid start st ∧ explored grid start end_ st).
  assert (Inv ([s], ∅)) as Hinit.
  { split; [|by apply explored_init].
    intros n ->%list_elem_of_singleton. rewrite Hxy. split; [|done].
    by apply linked_start. }
  assert (∀ st st', Inv st → astar_body relax_buggy grid end_ st = Next st' →
            Inv st' ∧ (astar_measure grid st' < astar_measure grid st)%nat)
    as Hstep.
  { intros st st' [Hok Hex] Hb.
    by destruct (buggy_inv_step st st' Hok Hex Hb) as (? & ? & ?). }
  destruct (while_term (astar_body relax_buggy grid end_) Inv
              (astar_measure grid) ([s], ∅) Hstep Hinit) as [o Ho].
  destruct (while_inv (astar_body relax_buggy grid end_) Inv _ _ o
              (λ st st' Hi Hb, proj1 (Hstep st st' Hi Hb)) Hinit Ho)
    as (st & _ & [(r0 & _ & ->)|[Hthrow _]]).
  - exists r0, (S (astar_measure grid ([s], ∅))).
    unfold astar_buggy, astar. by rewrite Hs.
  - rewrite astar_body_buggy_eq in Hthrow by done.
    destruct (heappop Node.lt st.1) as [[cur rest]|]; [|done].
    by destruct (bool_decide _).
Qed.
End buggy.

(** X12. [astar_buggy] still finds its way: on any matrix with an
    in-bounds start it returns, with an absent path and infinite cost
    when the end cannot be reached, and otherwise with a path that
    begins at the start, ends at the end, moves one Manhattan step at a
    time and enters only cells that are in bounds and not [-1]. *)
Theorem X12_buggy_path (grid : Grid) (start end_ : coord) :
  rect grid → in_bounds grid start →
  ∃ r, returns (λ fuel, astar_buggy fuel grid start end_) r ∧
       (¬ reachable grid start end_ → r = (None, Inf)) ∧
       (reachable grid start end_ →
        ∃ path, r.1 = Some path ∧
          head path = Some start ∧ last path = Some end_ ∧
          (∀ i a b, path !! i = Some a → path !! S i = Some b → adjacent a b) ∧
          (∀ i a, path !! S i = Some a → passable grid a)).
Proof.
  intros Hrect Hstart.
  destruct (astar_buggy_returns grid start end_ Hrect Hstart) as [r Hr].
  exists r. split; [done|].
  destruct (astar_buggy_spec grid start end_ Hrect Hstart r Hr)
    as [[-> Hun]|(n & Hl & Hxy & ->)].
  - split; [done|]. by intros ?.
  - apply linked_path in Hl. rewrite Hxy in Hl. split.
    + intros []. by eapply path_from_walk.
    + intros _. exists (get_path n). split; [done|]. by apply path_from_facts.
Qed.

Lemma X12_witness :
  ∃ r, returns (λ fuel, astar_buggy fuel [[1; 9]; [1; 1]] (0, 0) (1, 1)) r ∧
       (¬ reachable [[1; 9]; [1; 1]] (0, 0) (1, 1) → r = (None, Inf)) ∧
       (reachable [[1; 9]; [1; 1]] (0, 0) (1, 1) →
        ∃ path, r.1 = Some path ∧
          head path = Some (0, 0) ∧ last path = Some (1, 1) ∧
          (∀ i a b, path !! i = Some a → path !! S i = Some b → adjacent a b) ∧
          (∀ i a, path !! S i = Some a → passable [[1; 9]; [1; 1]] a)).
Proof.
  apply (X12_buggy_path [[1; 9]; [1; 1]] (0, 0) (1, 1)); [solve_rect|solve_bounds].
Defined.

(** X13. [astar_buggy] never assigns [g]: whenever start and end
    differ, the cost it returns is infinite, so the Optimality property
    rejects its result against every finite oracle cost. *)
Theorem X13_buggy_cost (grid : Grid) (start end_ : coord) (r : result) :
  rect grid → in_bounds grid start → start ≠ end_ →
  returns (λ fuel, astar_buggy fuel grid start end_) r →
  r.2 = Inf ∧
  ∀ input_data k, Input.optimal_cost input_data = Fin k →
    Property.check is_optimal_prop input_data r = Ret false.
Proof.
  intros Hrect Hstart Hne Hr.
  pose proof (astar_buggy_cost grid start end_ r Hrect Hstart Hne Hr) as Hinf.
  split; [done|]. intros input_data k Hk.
  unfold Property.check, is_optimal_prop. simpl. by rewrite Hinf, Hk.
Qed.

Lemma X13_witness :
  (Some [(0, 0); (0, 1); (1, 1)], Inf).2 = Inf ∧
  ∀ input_data k, Input.optimal_cost input_data = Fin k →
    Property.check is_optimal_prop input_data
      (Some [(0, 0); (0, 1); (1, 1)], Inf) = Ret false.
Proof.
  apply (X13_buggy_cost [[1; 9]; [1; 1]] (0, 0) (1, 1));
    [solve_rect|solve_bounds|done|].
  exists 50%nat. vm_compute. reflexivity.
Defined.


(** * The random trials of the inductive step *)

Lemma random_row_spec {Rng : Type} (randint : Z → Z → Rng → Z * Rng)
    (n : nat) (rng rng' : Rng) (row : list Z) :
  randint_ok randint →
  random_row randint n rng = (row, rng') →
  length row = n ∧ ∀ v, v ∈ row → 1 ≤ v ≤ 10.
Proof.
  intros Hok. revert rng rng' row. induction n as [|n IH]; intros rng rng' row.
  - intros [= <- <-]. split; [done|]. by intros v ?%elem_of_nil.
  - cbn [random_row]. pose proof (Hok 1 10 rng ltac:(lia)) as Hv.
    destruct (randint 1 10 rng) as [v rng1].
    destruct (random_row randint n rng1) as [row' rng2] eqn:Hrow.
    intros [= <- <-]. destruct (IH _ _ _ Hrow) as [Hlen Hin].
    split; [by rewrite length_cons, Hlen|].
    intros w [->|Hw]%elem_of_cons; [done|by apply Hin].
Qed.

Lemma random_grid_spec {Rng : Type} (randint : Z → Z → Rng → Z * Rng)
    (m n : nat) (rng rng' : Rng) (grid : Grid) :
  randint_ok randint →
  random_grid randint m n rng = (grid, rng') →
  length grid = m ∧
  ∀ row, row ∈ grid → length row = n ∧ ∀ v, v ∈ row → 1 ≤ v ≤ 10.
Proof.
  intros Hok. revert rng rng' grid. induction m as [|m IH]; intros rng rng' grid.
  - intros [= <- <-]. split; [done|]. by intros v ?%elem_of_nil.
  - cbn [random_grid].
    destruct (random_row randint n rng) as [row rng1] eqn:Hrow.
    destruct (random_grid randint m n rng1) as [grid' rng2] eqn:Hgrid.
    intros [= <- <-]. destruct (IH _ _ _ Hgrid) as [Hlen Hin].
    split; [by rewrite length_cons, Hlen|].
    intros r [->|Hr]%elem_of_cons; [by eapply random_row_spec|by apply Hin].
Qed.

(** Where no cell is a wall, every cell can be walked to from every
    other. *)
Lemma open_grid_reachable (grid : Grid) (s e : coord) :
  (∀ c, in_bounds grid c → cost_at grid c ≠ -1) →
  in_bounds grid s → in_bounds grid e → reachable grid s e.
Proof.
  intros Hopen Hs. remember (Z.to_nat (manhattan s e)) as n eqn:Hn.
  revert e Hn. induction n as [|n IH]; intros [ex ey] Hn He.
  - destruct s as [sx sy]. unfold manhattan in Hn. simpl in Hn.
    assert (sx = ex ∧ sy = ey) as [-> ->] by lia. exists 0. constructor.
  - destruct s as [sx sy]. unfold manhattan in Hn. simpl in Hn.
    destruct Hs as [Hs1 Hs2], He as [He1 He2]. simpl in *.
    assert (∃ u, in_bounds grid u ∧ adjacent u (ex, ey) ∧
                 Z.to_nat (manhattan (sx, sy) u) = n) as (u & Hu & Hadj & Hm).
    { destruct (decide (ex = sx)) as [->|Hx].
      - destruct (decide (sy < ey)).
        + exists (sx, ey - 1). unfold in_bounds, adjacent, manhattan. simpl. lia.
        + exists (sx, ey + 1). unfold in_bounds, adjacent, manhattan. simpl. lia.
      - destruct (decide (sx < ex)).
        + exists (ex - 1, ey). unfold in_bounds, adjacent, manhattan. simpl. lia.
        + exists (ex + 1, ey). unfold in_bounds, adjacent, manhattan. simpl. lia. }
    destruct (IH u (eq_sym Hm) Hu) as [k Hk].
    exists (k + cost_at grid (ex, ey)). econstructor; [done..|].
    split; [done|]. by apply Hopen.
Qed.

(** What one trial draws: a square matrix of side 5..15 whose entries
    lie within 1..10. *)
Lemma trial_grid {Rng : Type} (randint : Z → Z → Rng → Z * Rng)
    (rng rng1 rng2 : Rng) (grid_size : Z) (grid : Grid) :
  randint_ok randint →
  randint 5 15 rng = (grid_size, rng1) →
  random_grid randint (Z.to_nat grid_size) (Z.to_nat grid_size) rng1 = (grid, rng2) →
  5 ≤ grid_size ≤ 15 ∧ rows grid = grid_size ∧ width grid = grid_size ∧
  rect grid ∧ costs_ge 1 grid ∧
  (∀ c, in_bounds grid c → 1 ≤ cost_at grid c ≤ 10).
Proof.
  intros Hok Hsize Hgrid.
  pose proof (Hok 5 15 rng ltac:(lia)) as Hgs. rewrite Hsize in Hgs. simpl in Hgs.
  destruct (random_grid_spec _ _ _ _ _ _ Hok Hgrid) as [Hlen Hrows].
  assert (rows grid = grid_size) as Hr by (unfold rows; lia).
  assert (width grid = grid_size) as Hw.
  { destruct grid as [|row grid]; [simpl in Hlen; lia|]. simpl.
    destruct (Hrows row) as [-> _]; [apply elem_of_cons; by left|lia]. }
  assert (rect grid) as Hrect.
  { intros row Hrow. destruct (Hrows row Hrow) as [-> _]. lia. }
  split_and!; [lia|lia|done|done|done| |].
  - intros row v Hrow Hv. right. destruct (Hrows row Hrow) as [_ Hin].
    by destruct (Hin v Hv).
  - intros c Hc. pose proof (cell_Ret grid c Hrect Hc) as Hcell.
    unfold cell in Hcell. destruct Hc as [Hx Hy].
    destruct (py_index_Ret grid c.1 Hx) as (row & Hrow & Hlk).
    rewrite Hrow in Hcell. simpl in Hcell.
    apply list_elem_of_lookup_2 in Hlk.
    destruct (Hrows row Hlk) as [Hl Hin].
    destruct (py_index_Ret row c.2) as (v & Hv & Hlv); [lia|].
    rewrite Hv in Hcell. injection Hcell as <-.
    apply Hin. by eapply list_elem_of_lookup_2.
Qed.

(** X14. Under the contract of [random.randint], every trial of the
    inductive step poses a solvable problem: the grid is a square matrix
    of side 5 to 15 with every entry in 1..10, hence without walls, and
    every cell of it can be walked to from every other; in particular
    the far corner from the origin. *)
Theorem X14_random_grid {Rng : Type} (randint : Z → Z → Rng → Z * Rng)
    (rng rng1 rng2 : Rng) (grid_size : Z) (grid : Grid) :
  randint_ok randint →
  randint 5 15 rng = (grid_size, rng1) →
  random_grid randint (Z.to_nat grid_size) (Z.to_nat grid_size) rng1 = (grid, rng2) →
  5 ≤ grid_size ≤ 15 ∧ rows grid = grid_size ∧ width grid = grid_size ∧
  rect grid ∧
  (∀ c, in_bounds grid c → 1 ≤ cost_at grid c ≤ 10) ∧
  (∀ s e, in_bounds grid s → in_bounds grid e → reachable grid s e) ∧
  reachable grid (0, 0) (grid_size - 1, grid_size - 1).
Proof.
  intros Hok Hsize Hgrid.
  destruct (trial_grid _ _ _ _ _ _ Hok Hsize Hgrid)
    as (Hgs & Hr & Hw & Hrect & _ & Hval).
  assert (∀ s e, in_bounds grid s → in_bounds grid e → reachable grid s e) as Hall.
  { intros s e. apply open_grid_reachable. intros c Hc. specialize (Hval c Hc). lia. }
  split; [done|]. do 5 (split; [done|]).
  apply Hall; unfold in_bounds; rewrite Hr, Hw; simpl; lia.
Qed.

Lemma X14_witness :
  5 ≤ 5 ≤ 15 ∧ rows grid5 = 5 ∧ width grid5 = 5 ∧ rect grid5 ∧
  (∀ c, in_bounds grid5 c → 1 ≤ cost_at grid5 c ≤ 10) ∧
  (∀ s e, in_bounds grid5 s → in_bounds grid5 e → reachable grid5 s e) ∧
  reachable grid5 (0, 0) (5 - 1, 5 - 1).
Proof.
  apply (X14_random_grid (λ a _ (rng : unit), (a, rng)) () () () 5 grid5).
  - intros a b rng Hab. simpl. lia.
  - reflexivity.
  - vm_compute. reflexivity.
Defined.

(** * The property loop and the log *)

Lemma log_step_diagnostics (log : list string) (i : Z) (prop : Property.t)
    (test_data : Input.t) (result_data : result) :
  log_step (log_step (log_step (log_step log
    ("Test " +:+ str_Z (i + 1) +:+ " failed for " +:+ Property.name prop +:+ ".")
    "FAIL")
    ("Grid: " +:+ str_grid (Input.grid test_data)) "INFO")
    ("Start: " +:+ str_coord (Input.start test_data) +:+
     ", End: " +:+ str_coord (Input.end_ test_data)) "INFO")
    ("Optimal Cost: " +:+ str_num (Input.optimal_cost test_data) +:+
     ", A* Cost: " +:+ str_num result_data.2) "INFO"
  = log ++ diagnostics i (Property.name prop) test_data result_data.
Proof.
  unfold log_step, diagnostics. by rewrite <-!app_assoc.
Qed.

Lemma check_properties_pass (props : list Property.t) (i : Z)
    (test_data : Input.t) (result_data : result) (log : list string) :
  Forall (λ q, Property.check q test_data result_data = Ret true) props →
  check_properties props i test_data result_data log = Ret None.
Proof.
  induction 1 as [|q props Hq _ IH]; [done|].
  cbn [check_properties]. rewrite Hq. cbn [obind negb]. exact IH.
Qed.

Lemma check_properties_app (ps qs : list Property.t) (i : Z)
    (test_data : Input.t) (result_data : result) (log : list string) :
  Forall (λ q, Property.check q test_data result_data = Ret true) ps →
  check_properties (ps ++ qs) i test_data result_data log =
  check_properties qs i test_data result_data log.
Proof.
  induction 1 as [|q ps Hq _ IH]; [done|].
  cbn [app check_properties]. rewrite Hq. cbn [obind negb]. exact IH.
Qed.


Lemma check_properties_fail (ps qs : list Property.t) (p : Property.t) (i : Z)
    (test_data : Input.t) (result_data : result) (log : list string) :
  Forall (λ q, Property.check q test_data result_data = Ret true) ps →
  Property.check p test_data result_data = Ret false →
  check_properties (ps ++ p :: qs) i test_data result_data log =
  Ret (Some (log ++ diagnostics i (Property.name p) test_data result_data)).
Proof.
  intros Hps Hp. rewrite check_properties_app by done.
  cbn [check_properties]. rewrite Hp. cbn [obind negb].
  by rewrite log_step_diagnostics.
Qed.

(** X15. The property loop stops at the first property that does not
    hold: when every property of a prefix holds, the loop over the prefix
    alone reports nothing; followed by a property that fails, the loop
    appends the four diagnostic lines naming that property and never
    consults the properties after it; followed by one that raises, the
    loop raises. *)
Theorem X15_first_failure (ps : list Property.t) (i : Z)
    (test_data : Input.t) (result_data : result) (log : list string) :
  Forall (λ q, Property.check q test_data result_data = Ret true) ps →
  check_properties ps i test_data result_data log = Ret None ∧
  (∀ p qs, Property.check p test_data result_data = Ret false →
     check_properties (ps ++ p :: qs) i test_data result_data log =
     Ret (Some (log ++ diagnostics i (Property.name p) test_data result_data))) ∧
  (∀ p qs, Property.check p test_data result_data = IndexError →
     check_properties (ps ++ p :: qs) i test_data result_data log = IndexError).
Proof.
  intros Hps. split_and!.
  - by apply check_properties_pass.
  - intros p qs Hp. by apply check_properties_fail.
  - intros p qs Hp. rewrite check_properties_app by done.
    cbn [check_properties]. by rewrite Hp.
Qed.

Lemma X15_witness :
  let test_data :=
    {| Input.grid := [[1; 1]; [-1; 1]]; Input.optimal_cost := Fin 2;
       Input.start := (0, 0); Input.end_ := (1, 1) |} in
  let result_data : result := (Some [(0, 0); (1, 0); (1, 1)], Fin 2) in
  check_properties [is_optimal_prop] 6 test_data result_data [] = Ret None ∧
  (∀ p qs, Property.check p test_data result_data = Ret false →
     check_properties ([is_optimal_prop] ++ p :: qs) 6 test_data result_data [] =
     Ret (Some ([] ++ diagnostics 6 (Property.name p) test_data result_data))) ∧
  (∀ p qs, Property.check p test_data result_data = IndexError →
     check_properties ([is_optimal_prop] ++ p :: qs) 6 test_data result_data [] =
     IndexError).
Proof.
  intros test_data result_data.
  apply (X15_first_failure [is_optimal_prop] 6 test_data result_data []).
  constructor; [reflexivity|constructor].
Defined.




(** * The verdicts of the harness *)

Lemma find_optimal_cost_mono (grid : Grid) (start end_ : coord) (n m : nat)
    (r : outcome num) :
  find_optimal_cost n grid start end_ = Some r → (n ≤ m)%nat →
  find_optimal_cost m grid start end_ = Some r.
Proof. apply while_mono. Qed.

(** On a trial grid the oracle returns the least cost of a walk. *)
Lemma trial_oracle (grid : Grid) (start end_ : coord) :
  rect grid → costs_ge 0 grid → reachable grid start end_ →
  ∃ fuel0 k,
    walk grid start end_ k ∧ (∀ c, walk grid start end_ c → k ≤ c) ∧
    ∀ fuel, (fuel0 ≤ fuel)%nat →
      find_optimal_cost fuel grid start end_ = Some (Ret (Fin k)).
Proof.
  intros Hrect Hge Hreach.
  destruct (find_optimal_cost_returns grid start end_ Hrect Hge) as [r Hr].
  destruct (find_optimal_cost_spec grid start end_ Hrect r Hr)
    as [[_ []]|(k & -> & Hwalk & Hleast)]; [done|].
  destruct Hr as [fuel0 Hr]. exists fuel0, k. split_and!; [done|by apply Hleast|].
  intros fuel Hfuel. by eapply find_optimal_cost_mono.
Qed.

(** On a trial grid [astar_correct] returns a path the validator accepts,
    at the least cost of a walk. *)
Lemma trial_correct (grid : Grid) (start end_ : coord) (k : Z) :
  rect grid → costs_ge 1 grid → in_bounds grid start →
  walk grid start end_ k → (∀ c, walk grid start end_ c → k ≤ c) →
  ∃ fuel0 path,
    is_valid_path grid path = Ret true ∧
    ∀ fuel, (fuel0 ≤ fuel)%nat →
      astar_correct fuel grid start end_ = Some (Ret (Some path, Fin k)).
Proof.
  intros Hrect Hge Hstart Hwalk Hleast.
  destruct (astar_correct_returns grid start end_ Hrect Hstart) as [r Hr].
  pose proof (astar_correct_least grid start end_ Hrect Hstart Hge r) as Hopt.
  destruct (astar_correct_spec grid start end_ r Hrect Hstart Hr)
    as [[_ []]|(n & Hch & Hxy & ->)]; [by exists k|].
  destruct (chain_walk _ _ _ Hch) as (k' & Hg & Hwalk'). rewrite Hxy in Hwalk'.
  specialize (Hopt k' Hr Hg k Hwalk). specialize (Hleast k' Hwalk').
  assert (k' = k) as -> by lia. rewrite Hg in Hr.
  pose proof (engine_path_valid grid start end_ _ _ Hrect Hstart Hr) as Hvalid.
  destruct Hr as [fuel0 Hr]. exists fuel0, (get_path n). split; [done|].
  intros fuel Hfuel. by eapply astar_mono.
Qed.

(** Between distinct connected cells [astar_buggy] returns a path at
    cost [inf]. *)
Lemma trial_buggy (grid : Grid) (start end_ : coord) :
  rect grid → in_bounds grid start → start ≠ end_ →
  reachable grid start end_ →
  ∃ fuel0 path,
    ∀ fuel, (fuel0 ≤ fuel)%nat →
      astar_buggy fuel grid start end_ = Some (Ret (Some path, Inf)).
Proof.
  intros Hrect Hstart Hne Hreach.
  destruct (astar_buggy_returns grid start end_ Hrect Hstart) as [r Hr].
  pose proof (astar_buggy_cost grid start end_ r Hrect Hstart Hne Hr) as Hcost.
  destruct (astar_buggy_spec grid start end_ Hrect Hstart r Hr)
    as [[_ []]|(n & _ & _ & ->)]; [done|].
  simpl in Hcost. rewrite Hcost in Hr.
  destruct Hr as [fuel0 Hr]. exists fuel0, (get_path n).
  intros fuel Hfuel. by eapply astar_mono.
Qed.

Lemma trials_correct {Rng : Type} (randint : Z → Z → Rng → Z * Rng)
    (num_tests n : nat) (i : Z) (rng : Rng) (log : list string) :
  randint_ok randint →
  ∃ fuel0 rng', ∀ fuel fuelA, (fuel0 ≤ fuel)%nat → (fuel0 ≤ fuelA)%nat →
    trials randint fuel (astar_correct fuelA) AStarProof_properties
      num_tests n i rng log
    = Some (Ret (true, log ++ [step_success num_tests], rng')).
Proof.
  intros Hok. revert i rng. induction n as [|n IH]; intros i rng.
  - exists 0%nat, rng. by intros fuel fuelA _ _.
  - destruct (randint 5 15 rng) as [grid_size rng1] eqn:Hsize.
    destruct (random_grid randint (Z.to_nat grid_size) (Z.to_nat grid_size) rng1)
      as [grid rng2] eqn:Hgrid.
    destruct (trial_grid _ _ _ _ _ _ Hok Hsize Hgrid)
      as (Hgs & Hr & Hw & Hrect & Hge & Hval).
    assert (in_bounds grid (0, 0)) as Hstart
      by (unfold in_bounds; rewrite Hr, Hw; simpl; lia).
    assert (reachable grid (0, 0) (grid_size - 1, grid_size - 1)) as Hreach.
    { apply open_grid_reachable; [|done|unfold in_bounds; rewrite Hr, Hw; simpl; lia].
      intros c Hc. specialize (Hval c Hc). lia. }
    assert (costs_ge 0 grid) as Hge0.
    { intros row v Hrow Hv. destruct (Hge row v Hrow Hv); [by left|right; lia]. }
    destruct (trial_oracle grid _ _ Hrect Hge0 Hreach) as (f1 & k & Hwalk & Hleast & Ho).
    destruct (trial_correct grid _ _ k Hrect Hge Hstart Hwalk Hleast)
      as (f2 & path & Hvalid & Ha).
    destruct (IH (i + 1) rng2) as (f3 & rng' & Hrest).
    exists (Nat.max (Nat.max f1 f2) f3), rng'. intros fuel fuelA Hfuel HfuelA.
    cbn [trials]. rewrite Hsize, Hgrid, Ho by lia. cbn [cbind].
    rewrite Ha by lia. cbn [cbind fst]. unfold lift at 1.
    rewrite check_properties_pass; [cbn [cbind]; apply Hrest; lia|].
    repeat constructor; unfold Property.check; simpl; [|done].
    unfold num_eqb. by rewrite bool_decide_eq_true_2.
Qed.

(** X17. The harness accepts [astar_correct]: under the contract of
    [random.randint] and for any number of trials, with enough fuel the
    inductive step returns [True], having appended to the log its three
    opening lines and the closing line and nothing else; no trial fails
    or raises. *)
Theorem X17_correct_accepted {Rng : Type} (randint : Z → Z → Rng → Z * Rng)
    (num_tests : nat) (rng : Rng) (log : list string) :
  randint_ok randint →
  ∃ fuel0 rng', ∀ fuel fuelA, (fuel0 ≤ fuel)%nat → (fuel0 ≤ fuelA)%nat →
    run_inductive_step randint fuel (astar_correct fuelA) AStarProof_properties
      num_tests rng log
    = Some (Ret (true, log ++ step_header num_tests ++ [step_success num_tests],
                 rng')).
Proof.
  intros Hok. unfold run_inductive_step.
  destruct (trials_correct randint num_tests num_tests 0 rng
              (log ++ step_header num_tests) Hok) as (fuel0 & rng' & H).
  exists fuel0, rng'. intros fuel fuelA Hfuel HfuelA.
  specialize (H fuel fuelA Hfuel HfuelA).
  unfold log_step, step_header in *. rewrite <-!app_assoc in *. exact H.
Qed.

Lemma X17_witness :
  ∃ fuel0 rng', ∀ fuel fuelA, (fuel0 ≤ fuel)%nat → (fuel0 ≤ fuelA)%nat →
    run_inductive_step (λ a _ (rng : unit), (a, rng)) fuel (astar_correct fuelA)
      AStarProof_properties 3 () []
    = Some (Ret (true, [] ++ step_header 3 ++ [step_success 3], rng')).
Proof.
  apply (X17_correct_accepted (λ a _ (rng : unit), (a, rng)) 3 () []).
  intros a b rng Hab. simpl. lia.
Defined.

(** X18. The harness rejects [astar_buggy] at the first trial: under
    the contract of [random.randint] and for any positive number of
    trials, with enough fuel the inductive step returns [False] after
    its three opening lines and the four diagnostic lines of trial 1,
    which name the Optimality Property and report an [inf] engine cost
    against a finite optimal cost. *)
Theorem X18_buggy_rejected {Rng : Type} (randint : Z → Z → Rng → Z * Rng)
    (num_tests : nat) (rng : Rng) (log : list string) :
  randint_ok randint → (0 < num_tests)%nat →
  ∃ fuel0 rng' test_data path k,
    Input.optimal_cost test_data = Fin k ∧
    ∀ fuel fuelA, (fuel0 ≤ fuel)%nat → (fuel0 ≤ fuelA)%nat →
      run_inductive_step randint fuel (astar_buggy fuelA) AStarProof_properties
        num_tests rng log
      = Some (Ret (false,
                   log ++ step_header num_tests ++
                   diagnostics 0 "Optimality Property" test_data (Some path, Inf),
                   rng')).
Proof.
  intros Hok Hpos. destruct num_tests as [|n]; [lia|].
  unfold run_inductive_step.
  destruct (randint 5 15 rng) as [grid_size rng1] eqn:Hsize.
  destruct (random_grid randint (Z.to_nat grid_size) (Z.to_nat grid_size) rng1)
    as [grid rng2] eqn:Hgrid.
  destruct (trial_grid _ _ _ _ _ _ Hok Hsize Hgrid)
    as (Hgs & Hr & Hw & Hrect & Hge & Hval).
  assert (in_bounds grid (0, 0)) as Hstart
    by (unfold in_bounds; rewrite Hr, Hw; simpl; lia).
  assert (reachable grid (0, 0) (grid_size - 1, grid_size - 1)) as Hreach.
  { apply open_grid_reachable; [|done|unfold in_bounds; rewrite Hr, Hw; simpl; lia].
    intros c Hc. specialize (Hval c Hc). lia. }
  assert (costs_ge 0 grid) as Hge0.
  { intros row v Hrow Hv. destruct (Hge row v Hrow Hv); [by left|right; lia]. }
  destruct (trial_oracle grid _ _ Hrect Hge0 Hreach) as (f1 & k & _ & _ & Ho).
  destruct (trial_buggy grid (0, 0) (grid_size - 1, grid_size - 1) Hrect Hstart)
    as (f2 & path & Ha); [intros [=]; lia|done|].
  exists (Nat.max f1 f2), rng2,
    {| Input.grid := grid; Input.optimal_cost := Fin k;
       Input.start := (0, 0); Input.end_ := (grid_size - 1, grid_size - 1) |},
    path, k.
  split; [done|]. intros fuel fuelA Hfuel HfuelA.
  cbn [trials]. rewrite Hsize, Hgrid, Ho by lia. cbn [cbind].
  rewrite Ha by lia. cbn [cbind fst]. unfold lift at 1.
  change AStarProof_properties with ([] ++ is_optimal_prop :: [is_valid_prop]).
  rewrite check_properties_fail; [|constructor|done].
  cbn [cbind lift Property.name is_optimal_prop].
  unfold log_step, step_header. by rewrite <-!app_assoc.
Qed.

Lemma X18_witness :
  ∃ fuel0 rng' test_data path k,
    Input.optimal_cost test_data = Fin k ∧
    ∀ fuel fuelA, (fuel0 ≤ fuel)%nat → (fuel0 ≤ fuelA)%nat →
      run_inductive_step (λ a _ (rng : unit), (a, rng)) fuel (astar_buggy fuelA)
        AStarProof_properties 3 () []
      = Some (Ret (false,
                   [] ++ step_header 3 ++
                   diagnostics 0 "Optimality Property" test_data (Some path, Inf),
                   rng')).
Proof.
  apply (X18_buggy_rejected (λ a _ (rng : unit), (a, rng)) 3 () []); [|lia].
  intros a b rng Hab. simpl. lia.
Defined.

(** X19. The base case cannot tell the engines apart: whatever the
    relaxation step does, an engine built on the shared search loop
    passes the base case as soon as it is given any fuel, because the
    start node is popped and recognised as the goal before any
    neighbour is relaxed; the log gains exactly the opening line and the
    success line. *)
Theorem X19_base_case_blind
    (relax : coord → Node → gset coord → list Node → Node → list Node)
    (fuel : nat) (log : list string) :
  (0 < fuel)%nat →
  run_base_case (astar relax fuel) log
  = Some (Ret (true,
               log ++ ["[INFO] --- Proving Base Case: Start == End ---";
                       "[SUCCESS] Base case holds. ✅"])).
Proof.
  intros Hfuel. unfold run_base_case.
  rewrite (astar_first_pass relax [[1; 1]; [1; 1]] (0, 0) fuel);
    [|solve_rect|solve_bounds|done].
  cbn [cbind fst snd].
  rewrite bool_decide_eq_false_2 by (by intros H; apply H).
  unfold num_eqb. rewrite bool_decide_eq_true_2 by done.
  cbn [orb negb lift]. unfold log_step. rewrite <-app_assoc. reflexivity.
Qed.

Lemma X19_witness :
  run_base_case (astar relax_buggy 1) ["earlier line"]
  = Some (Ret (true,
               ["earlier line"] ++
               ["[INFO] --- Proving Base Case: Start == End ---";
                "[SUCCESS] Base case holds. ✅"])).
Proof.
  apply (X19_base_case_blind relax_buggy 1 ["earlier line"]). lia.
Defined.


(** * A trial without a path *)

(** Trials that pass leave the log alone and hand the generator on. *)
Lemma trials_passing {Rng : Type} (randint : Z → Z → Rng → Z * Rng) (fuel : nat)
    (alg : algorithm) (props : list Property.t) (num_tests k n : nat) (i : Z)
    (rng rngk : Rng) (log : list string) :
  passing randint fuel alg props k rng rngk →
  trials randint fuel alg props num_tests (k + n) i rng log =
  trials randint fuel alg props num_tests n (i + Z.of_nat k) rngk log.
Proof.
  intros Hpass. revert i.
  induction Hpass as [rng|k rng rng1 rng2 rng' gs grid oc path cost
                        Hsize Hgrid Ho Ha Hprops _ IH]; intros i.
  - by rewrite Z.add_0_r.
  - cbn [Nat.add trials]. rewrite Hsize, Hgrid, Ho. cbn [cbind]. rewrite Ha.
    cbn [cbind fst]. unfold lift at 1. rewrite check_properties_pass by done.
    cbn [cbind]. rewrite IH. f_equal. lia.
Qed.

(** C10. In [run_inductive_step] an absent path is a hard failure:
    for every injected algorithm and every list of registered
    properties, if the trials before trial [k+1] pass and on trial
    [k+1] (one of the [num_tests] trials) the algorithm returns a
    [None] path, the run halts there and returns [False], whatever cost
    the oracle returned for that trial, finite or infinite; the log
    gains the opening lines and the single line "No path found" for
    trial [k+1], so no property is consulted on that trial and no later
    trial is drawn. *)
Theorem C10_absent_path_fails {Rng : Type} (randint : Z → Z → Rng → Z * Rng)
    (fuel : nat) (alg : algorithm) (props : list Property.t)
    (num_tests k : nat) (rng rngk rng1 rng2 : Rng) (log : list string)
    (grid_size : Z) (grid : Grid) (optimal_cost cost : num) :
  passing randint fuel alg props k rng rngk →
  (k < num_tests)%nat →
  randint 5 15 rngk = (grid_size, rng1) →
  random_grid randint (Z.to_nat grid_size) (Z.to_nat grid_size) rng1 = (grid, rng2) →
  find_optimal_cost fuel grid (0, 0) (grid_size - 1, grid_size - 1)
    = Some (Ret optimal_cost) →
  alg grid (0, 0) (grid_size - 1, grid_size - 1) = Some (Ret (None, cost)) →
  run_inductive_step randint fuel alg props num_tests rng log
  = Some (Ret (false,
               log ++ step_header num_tests ++ [no_path_line (Z.of_nat k)],
               rng2)).
Proof.
  intros Hpass Hk Hsize Hgrid Ho Ha. unfold run_inductive_step.
  assert (∃ n, num_tests = (k + S n)%nat) as [n Hn]
    by (exists (num_tests - S k)%nat; lia).
  match goal with |- trials _ _ _ _ _ _ _ _ ?L = _ =>
    transitivity (trials randint fuel alg props num_tests (k + S n) 0 rng L);
      [by rewrite <-Hn|]
  end.
  rewrite (trials_passing _ _ _ _ _ _ _ _ _ _ _ Hpass).
  cbn [trials]. rewrite Hsize, Hgrid, Ho. cbn [cbind]. rewrite Ha.
  cbn [cbind fst lift]. unfold log_step, step_header, no_path_line.
  by rewrite <-!app_assoc.
Qed.

Lemma C10_witness :
  let randint := λ (a b : Z) (r : nat),
    (if (b =? 15) && (0 <? r)%nat then 6 else a, S r) in
  let alg : algorithm := λ grid start end_,
    if rows grid =? 5 then astar_correct 200 grid start end_
    else Some (Ret (None, Inf)) in
  run_inductive_step randint 200 alg AStarProof_properties 2 0%nat ["earlier line"]
  = Some (Ret (false,
               ["earlier line"] ++ step_header 2 ++ [no_path_line (Z.of_nat 1)],
               63%nat)).
Proof.
  intros randint alg.
  apply (C10_absent_path_fails randint 200 alg AStarProof_properties 2 1
           0%nat 26%nat 27%nat 63%nat ["earlier line"] 6
           (replicate 6 (replicate 6 1)) (Fin 10) Inf).
  - apply (passing_S randint 200 alg AStarProof_properties 0 0%nat 1%nat 26%nat 26%nat
             5 grid5 (Fin 8)
             [(0, 0); (1, 0); (2, 0); (2, 1); (3, 1); (3, 2); (4, 2); (4, 3); (4, 4)]
             (Fin 8)).
    + vm_compute. reflexivity.
    + vm_compute. reflexivity.
    + vm_compute. reflexivity.
    + vm_compute. reflexivity.
    + repeat constructor; vm_compute; reflexivity.
    + constructor.
  - lia.
  - vm_compute. reflexivity.
  - vm_compute. reflexivity.
  - vm_compute. reflexivity.
  - vm_compute. reflexivity.
Defined.


(** * The engine on objects and the engine on values *)

(** Induction along parent links. *)
Lemma Node_parent_ind (P : Node → Prop) :
  (∀ n, (∀ p, Node.parent n = Some p → P p) → P n) → ∀ n, P n.
Proof.
  intros H. fix IH 1. intros n. apply H.
  destruct n as [x y c g h f [p|]]; simpl.
  - intros p' [= <-]. apply IH.
  - intros p' [=].
Qed.

(** ** [heapq] sees its items only through [<]

    Two heaps whose items correspond, under orders that agree on
    corresponding items, stay in correspondence under every operation. *)
Section heapq_rel.
Context {A B : Type} (R : A → B → Prop).
Context (lt1 : A → A → bool) (lt2 : B → B → bool).
Context (Hlt : ∀ a b a' b', R a a' → R b b' → lt1 a b = lt2 a' b').

Lemma Forall2_lookup_cases (h : list A) (h' : list B) (i : nat) :
  Forall2 R h h' →
  (∃ a b, h !! i = Some a ∧ h' !! i = Some b ∧ R a b) ∨
  (h !! i = None ∧ h' !! i = None).
Proof.
  intros HR. pose proof (Forall2_lookup R h h') as [Hl _].
  specialize (Hl HR i). destruct Hl as [a b Hab|]; [left; eauto|by right].
Qed.

Lemma siftdown_loop_rel (fuel : nat) (h : list A) (h' : list B) (a : A) (b : B)
    (startpos pos : nat) :
  Forall2 R h h' → R a b →
  Forall2 R (siftdown_loop lt1 fuel h a startpos pos)
            (siftdown_loop lt2 fuel h' b startpos pos).
Proof.
  revert h h' pos. induction fuel as [|fuel IH]; intros h h' pos HR Hab.
  { cbn [siftdown_loop]. by apply Forall2_insert. }
  cbn [siftdown_loop]. case_decide; [|by apply Forall2_insert].
  destruct (Forall2_lookup_cases h h' ((pos - 1) / 2) HR)
    as [(p & p' & -> & -> & Hp)|[-> ->]]; [|by apply Forall2_insert].
  rewrite (Hlt a p b p') by done.
  destruct (lt2 b p'); [|by apply Forall2_insert].
  apply IH; [by apply Forall2_insert|done].
Qed.

Lemma siftdown_rel (h : list A) (h' : list B) (startpos pos : nat) :
  Forall2 R h h' →
  Forall2 R (siftdown lt1 h startpos pos) (siftdown lt2 h' startpos pos).
Proof.
  intros HR. unfold siftdown.
  destruct (Forall2_lookup_cases h h' pos HR) as [(a & b & -> & -> & Hab)|[-> ->]];
    [|done].
  by apply siftdown_loop_rel.
Qed.

Lemma siftup_loop_rel (fuel : nat) (h : list A) (h' : list B) (endpos pos : nat) :
  Forall2 R h h' →
  Forall2 R (siftup_loop lt1 fuel h endpos pos).1 (siftup_loop lt2 fuel h' endpos pos).1 ∧
  (siftup_loop lt1 fuel h endpos pos).2 = (siftup_loop lt2 fuel h' endpos pos).2.
Proof.
  revert h h' pos. induction fuel as [|fuel IH]; intros h h' pos HR; [done|].
  cbn [siftup_loop]. case_decide; [|done].
  assert ((if decide (2 * pos + 1 + 1 < endpos)%nat
           then match h !! (2 * pos + 1)%nat, h !! (2 * pos + 1 + 1)%nat with
                | Some l, Some r => if lt1 l r then (2 * pos + 1)%nat
                                    else (2 * pos + 1 + 1)%nat
                | _, _ => (2 * pos + 1)%nat
                end
           else (2 * pos + 1)%nat) =
          (if decide (2 * pos + 1 + 1 < endpos)%nat
           then match h' !! (2 * pos + 1)%nat, h' !! (2 * pos + 1 + 1)%nat with
                | Some l, Some r => if lt2 l r then (2 * pos + 1)%nat
                                    else (2 * pos + 1 + 1)%nat
                | _, _ => (2 * pos + 1)%nat
                end
           else (2 * pos + 1)%nat)) as ->.
  { case_decide; [|done].
    destruct (Forall2_lookup_cases h h' (2 * pos + 1) HR)
      as [(l & l' & -> & -> & Hl)|[-> ->]]; [|done].
    destruct (Forall2_lookup_cases h h' (2 * pos + 1 + 1) HR)
      as [(r & r' & -> & -> & Hr)|[-> ->]]; [|done].
    by rewrite (Hlt l r l' r'). }
  match goal with |- context [h' !! ?c] =>
    destruct (Forall2_lookup_cases h h' c HR) as [(c1 & c2 & -> & -> & Hc)|[-> ->]]
  end; [|done].
  apply IH. by apply Forall2_insert.
Qed.

Lemma siftup_rel (h : list A) (h' : list B) (pos : nat) :
  Forall2 R h h' → Forall2 R (siftup lt1 h pos) (siftup lt2 h' pos).
Proof.
  intros HR. unfold siftup. rewrite <-(Forall2_length _ _ _ HR).
  destruct (Forall2_lookup_cases h h' pos HR) as [(a & b & -> & -> & Hab)|[-> ->]];
    [|done].
  destruct (siftup_loop_rel (length h) h h' (length h) pos HR) as [Hh Hpos].
  destruct (siftup_loop lt1 _ h _ _) as [h1 pos1],
           (siftup_loop lt2 _ h' _ _) as [h2 pos2].
  simpl in Hh, Hpos. subst pos2.
  apply siftdown_rel. by apply Forall2_insert.
Qed.

Lemma heappush_rel (h : list A) (h' : list B) (a : A) (b : B) :
  Forall2 R h h' → R a b →
  Forall2 R (heappush lt1 h a) (heappush lt2 h' b).
Proof.
  intros HR Hab. unfold heappush. rewrite <-(Forall2_length _ _ _ HR).
  apply siftdown_rel. apply Forall2_app; [done|by constructor].
Qed.

Lemma last_rel (h : list A) (h' : list B) :
  Forall2 R h h' →
  match last h, last h' with
  | Some a, Some b => R a b
  | None, None => True
  | _, _ => False
  end.
Proof.
  induction 1 as [|a b h h' Hab HR IH]; [done|].
  destruct HR; [done|]. exact IH.
Qed.

Lemma removelast_rel (h : list A) (h' : list B) :
  Forall2 R h h' → Forall2 R (removelast h) (removelast h').
Proof.
  induction 1 as [|a b h h' Hab HR IH]; [done|].
  destruct HR; [done|]. cbn [removelast] in *. by constructor.
Qed.

Lemma heappop_rel (h : list A) (h' : list B) :
  Forall2 R h h' →
  match heappop lt1 h, heappop lt2 h' with
  | Some (a, r), Some (b, r') => R a b ∧ Forall2 R r r'
  | None, None => True
  | _, _ => False
  end.
Proof.
  intros HR. unfold heappop.
  pose proof (last_rel h h' HR) as Hlast.
  pose proof (removelast_rel h h' HR) as Hrem.
  destruct (last h) as [l|], (last h') as [l'|]; try done.
  destruct Hrem as [|a b r r' Hab Hr]; [done|].
  split; [done|]. apply siftup_rel. by constructor.
Qed.
End heapq_rel.

(** ** Objects and the values they stand for *)

Lemma represents_eq (σ : Store.store) (l : Store.loc) (n : Node) :
  Store.represents σ l n ↔
  ∃ o, σ !! l = Some o ∧
       Store.x o = Node.x n ∧ Store.y o = Node.y n ∧ Store.cost o = Node.cost n ∧
       Store.g o = Node.g n ∧ Store.h o = Node.h n ∧ Store.f o = Node.f n ∧
       match Node.parent n with
       | None => Store.parent o = None
       | Some pn => ∃ pl, Store.parent o = Some pl ∧ Store.represents σ pl pn
       end.
Proof. by destruct n. Qed.

Lemma represents_mono (φ φ' : Store.store) (l : Store.loc) (n : Node) :
  φ ⊆ φ' → Store.represents φ l n → Store.represents φ' l n.
Proof.
  intros Hsub. revert l. induction n as [n IH] using Node_parent_ind. intros l.
  rewrite !represents_eq. intros (o & Ho & Hx & Hy & Hc & Hg & Hh & Hf & Hp).
  exists o. split; [by eapply lookup_weaken|]. split_and!; try done.
  destruct (Node.parent n) as [pn|]; [|done].
  destruct Hp as (pl & Hpl & Hrep). exists pl. split; [done|]. by apply IH.
Qed.

Lemma read_weaken (φ σ : Store.store) (l : Store.loc) (o : Store.obj) :
  φ !! l = Some o → φ ⊆ σ → Store.read σ l = o.
Proof.
  intros Ho Hsub. unfold Store.read.
  pose proof (lookup_weaken φ σ l o Ho Hsub) as E. unfold Store.store, Store.loc in *.
  by rewrite E.
Qed.

Lemma represents_read (φ σ : Store.store) (l : Store.loc) (n : Node) :
  φ ⊆ σ → Store.represents φ l n →
  Store.xy σ l = Node.xy n ∧ Store.g (Store.read σ l) = Node.g n ∧
  Store.f (Store.read σ l) = Node.f n.
Proof.
  intros Hsub. rewrite represents_eq.
  intros (o & Ho & Hx & Hy & Hc & Hg & Hh & Hf & Hp).
  unfold Store.xy, Node.xy.
  rewrite (read_weaken φ σ l o Ho Hsub). by rewrite Hx, Hy.
Qed.

Lemma represents_lt (φ σ : Store.store) (a b : Store.loc) (a' b' : Node) :
  φ ⊆ σ → Store.represents φ a a' → Store.represents φ b b' →
  Store.lt σ a b = Node.lt a' b'.
Proof.
  intros Hsub Ha Hb. unfold Store.lt, Node.lt.
  destruct (represents_read φ σ a a' Hsub Ha) as (_ & _ & ->).
  by destruct (represents_read φ σ b b' Hsub Hb) as (_ & _ & ->).
Qed.

(** [get_path] follows the references the way the parent chain of the
    value goes. *)
Lemma get_path_loop_sim (φ σ : Store.store) (n : Node) :
  φ ⊆ σ → ∀ (l : Store.loc) (fuel : nat) (path : list coord),
  Store.represents φ l n →
  Store.get_path_loop fuel σ (Some l) path =
  if decide (length (get_path_loop n) ≤ fuel)%nat
  then Some (path ++ get_path_loop n) else None.
Proof.
  intros Hsub. induction n as [n IH] using Node_parent_ind.
  intros l fuel path Hrep.
  destruct (represents_read φ σ l n Hsub Hrep) as (Hxy & _ & _).
  apply represents_eq in Hrep as (o & Ho & _ & _ & _ & _ & _ & _ & Hp).
  pose proof (read_weaken φ σ l o Ho Hsub) as Hread.
  assert (get_path_loop n = Node.xy n ::
            match Node.parent n with Some p => get_path_loop p | None => [] end)
    as Hunfold by (by destruct n).
  rewrite Hunfold. cbn [length].
  destruct fuel as [|fuel]; cbn [Store.get_path_loop].
  { by rewrite decide_False by lia. }
  rewrite Hread, Hxy.
  destruct (Node.parent n) as [pn|] eqn:Hpn.
  - destruct Hp as (pl & -> & Hrep). rewrite (IH pn eq_refl pl fuel _ Hrep).
    repeat case_decide; try lia; [|done]. by rewrite <-app_assoc.
  - rewrite Hp. cbn [Store.get_path_loop length]. rewrite decide_True by lia.
    by destruct fuel.
Qed.

Lemma fresh_node_mono (φ σ σ' : Store.store) (l : Store.loc) (n : Node) :
  σ ⊆ σ' → fresh_node φ σ l n → fresh_node φ σ' l n.
Proof.
  intros Hsub (Hφ & Hσ & Hn). split_and!; [done| |done]. by eapply lookup_weaken.
Qed.

Lemma lookup_None_weaken (φ σ : Store.store) (l : Store.loc) :
  φ ⊆ σ → σ !! l = None → φ !! l = None.
Proof.
  intros Hsub Hσ. by eapply lookup_weaken_None.
Qed.

Section store_engine.
Context (alloc : Store.store → Store.loc) (Halloc : Store.allocator alloc).

Lemma get_neighbors_loop_sim (grid : Grid) (rows cols x y : Z) (moves : list coord)
    (φ : Store.store) :
  ∀ (nbs : list Store.loc) (ns : list Node) (σ : Store.store),
  φ ⊆ σ → NoDup nbs → Forall2 (fresh_node φ σ) nbs ns →
  match Store.get_neighbors_loop alloc grid rows cols x y moves nbs σ,
        get_neighbors_loop grid rows cols x y moves ns with
  | Ret (nbs', σ'), Ret ns' =>
      σ ⊆ σ' ∧ NoDup nbs' ∧ Forall2 (fresh_node φ σ') nbs' ns'
  | IndexError, IndexError => True
  | _, _ => False
  end.
Proof.
  induction moves as [|[dx dy] moves IH]; intros nbs ns σ Hsub Hnd Hfresh.
  { done. }
  cbn [Store.get_neighbors_loop get_neighbors_loop].
  destruct ((0 <=? x + dx) && (x + dx <? rows) && (0 <=? y + dy) && (y + dy <? cols));
    [|by apply IH].
  destruct (cell grid (x + dx, y + dy)) as [v|]; cbn [obind]; [|done].
  case_bool_decide; [|by apply IH].
  unfold Store.new_node. pose proof (Halloc σ) as Hnew.
  set (l := alloc σ) in *.
  set (σ' := <[l := Store.mk (x + dx) (y + dy) v Inf 0 Inf None]> σ).
  assert (σ ⊆ σ') as Hext by (by apply insert_subseteq).
  assert (NoDup (nbs ++ [l])) as Hnd'.
  { apply NoDup_app. split_and!; [done| |apply NoDup_singleton].
    intros l' Hl' ->%list_elem_of_singleton.
    apply list_elem_of_lookup in Hl' as [i Hi].
    destruct (Forall2_lookup_l _ _ _ _ _ Hfresh Hi) as (n & _ & _ & Hσ & _).
    congruence. }
  assert (Forall2 (fresh_node φ σ') (nbs ++ [l])
            (ns ++ [Node.new (x + dx) (y + dy) v])) as Hfresh'.
  { apply Forall2_app.
    - eapply Forall2_impl; [done|]. intros ???. by eapply fresh_node_mono.
    - constructor; [|done].
      split_and!; [by eapply lookup_None_weaken|by apply lookup_insert_eq|done]. }
  specialize (IH (nbs ++ [l]) (ns ++ [Node.new (x + dx) (y + dy) v]) σ'
                (transitivity Hsub Hext) Hnd' Hfresh').
  destruct (Store.get_neighbors_loop alloc grid rows cols x y moves (nbs ++ [l]) σ')
    as [[nbs' σ'']|], (get_neighbors_loop grid rows cols x y moves _) as [ns'|];
    try done.
  destruct IH as (Hsub' & Hnd'' & Hfresh''). split_and!; [by etrans|done..].
Qed.

Lemma get_neighbors_sim (grid : Grid) (φ σ : Store.store) (cur : Store.loc)
    (ncur : Node) :
  φ ⊆ σ → Store.represents φ cur ncur →
  match Store.get_neighbors alloc grid cur σ, get_neighbors grid ncur with
  | Ret (nbs, σ'), Ret ns =>
      σ ⊆ σ' ∧ NoDup nbs ∧ Forall2 (fresh_node φ σ') nbs ns
  | IndexError, IndexError => True
  | _, _ => False
  end.
Proof.
  intros Hsub Hrep. unfold Store.get_neighbors, get_neighbors.
  destruct (cols grid) as [cs|]; cbn [obind]; [|done].
  destruct (represents_read φ σ cur ncur Hsub Hrep) as (Hxy & _ & _).
  injection Hxy as -> ->.
  apply get_neighbors_loop_sim; [done|apply NoDup_nil_2|constructor].
Qed.

Lemma read_lookup (σ : Store.store) (l : Store.loc) (o : Store.obj) :
  σ !! l = Some o → Store.read σ l = o.
Proof. intros Ho. by apply (read_weaken σ σ l o Ho). Qed.

(** The loop over the neighbours: each is still as [Node] made it when
    its turn comes, and once pushed it stands for the value the loop on
    values pushes. *)
Lemma relax_fold_sim (end_ : coord) (cur : Store.loc) (ncur : Node)
    (closed : gset coord) (nbs : list Store.loc) :
  ∀ (ns : list Node) (φ σ : Store.store) (open_s : list Store.loc)
    (open_set : list Node),
  φ ⊆ σ → Store.represents φ cur ncur →
  Forall2 (Store.represents φ) open_s open_set →
  NoDup nbs → Forall2 (fresh_node φ σ) nbs ns →
  ∃ φ', φ ⊆ φ' ∧
    φ' ⊆ (foldl (Store.relax_correct end_ cur closed) (open_s, σ) nbs).2 ∧
    Forall2 (Store.represents φ')
      (foldl (Store.relax_correct end_ cur closed) (open_s, σ) nbs).1
      (foldl (relax_correct end_ ncur closed) open_set ns).
Proof.
  induction nbs as [|nb nbs IH]; intros ns φ σ open_s open_set Hsub Hcur Hopen Hnd Hfresh.
  { apply Forall2_nil_inv_l in Hfresh as ->. by exists φ. }
  apply Forall2_cons_inv_l in Hfresh as (n & ns' & Hnb & Hrest & ->).
  apply NoDup_cons in Hnd as [Hnotin Hnd].
  destruct Hnb as (Hφnb & Hσnb & Hn).
  pose proof (read_lookup σ nb _ Hσnb) as Hread.
  destruct (represents_read φ σ cur ncur Hsub Hcur) as (_ & Hg & _).
  cbn [foldl]. unfold Store.relax_correct at 2 4, relax_correct at 2.
  unfold Store.xy. rewrite Hread. cbn [Store.x Store.y Store.cost Store.g].
  change (Node.x n, Node.y n) with (Node.xy n).
  case_decide; [by apply IH|].
  rewrite Hg. assert (Node.g n = Inf) as -> by (by rewrite Hn).
  destruct (num_lt (num_add (Node.g ncur) (Fin (Node.cost n))) Inf); [|by apply IH].
  set (o' := Store.mk (Node.x n) (Node.y n) (Node.cost n)
               (num_add (Node.g ncur) (Fin (Node.cost n)))
               (Z.abs (Node.x n - end_.1) + Z.abs (Node.y n - end_.2))
               (num_add (num_add (Node.g ncur) (Fin (Node.cost n)))
                  (Fin (Z.abs (Node.x n - end_.1) + Z.abs (Node.y n - end_.2))))
               (Some cur)).
  set (φ' := <[nb := o']> φ). set (σ' := <[nb := o']> σ).
  assert (φ ⊆ φ') as Hφφ' by (by apply insert_subseteq).
  assert (φ' ⊆ σ') as Hsub' by (by apply insert_mono).
  assert (Store.represents φ' cur ncur) as Hcur' by (by eapply represents_mono).
  destruct (IH ns' φ' σ'
              (heappush (Store.lt σ') open_s nb)
              (heappush Node.lt open_set
                 {| Node.x := Node.x n; Node.y := Node.y n; Node.cost := Node.cost n;
                    Node.g := num_add (Node.g ncur) (Fin (Node.cost n));
                    Node.h := heuristic end_ n;
                    Node.f := num_add (num_add (Node.g ncur) (Fin (Node.cost n)))
                                (Fin (heuristic end_ n));
                    Node.parent := Some ncur |}))
    as (φ'' & Hφ'' & Hsub'' & Hfinal); [done|done| |done| |].
  - apply (heappush_rel (Store.represents φ') (Store.lt σ') Node.lt).
    + intros a b a' b'. by apply represents_lt.
    + eapply Forall2_impl; [done|]. intros ???. by eapply represents_mono.
    + apply represents_eq. exists o'. split; [by apply lookup_insert_eq|].
      split_and!; try done. by exists cur.
  - apply Forall2_same_length_lookup. split; [by eapply Forall2_length|].
    intros i l m Hl Hm.
    destruct (Forall2_lookup_lr _ _ _ _ _ _ Hrest Hl Hm) as (H1 & H2 & H3).
    assert (nb ≠ l) by (intros ->; apply Hnotin; by eapply list_elem_of_lookup_2).
    unfold φ', σ'. split_and!; [| |done].
    + etrans; [by apply lookup_insert_ne|done].
    + etrans; [by apply lookup_insert_ne|done].
  - exists φ''. split_and!; [by etrans|done..].
Qed.
(** One pass of the loop on objects does what one pass of the loop on
    values does. *)
Lemma astar_body_sim (grid : Grid) (end_ : coord) (σ0 : Store.store)
    (st_s : Store.astar_state) (st : astar_state) :
  store_sim σ0 st_s st →
  match Store.astar_body alloc grid end_ st_s, astar_body relax_correct grid end_ st with
  | Next st_s', Next st' => store_sim σ0 st_s' st'
  | Done r_s, Done r => store_done σ0 r_s r
  | Throw, Throw => True
  | _, _ => False
  end.
Proof.
  destruct st_s as [[open_s closed_s] σ], st as [open_set closed].
  intros (φ & H0 & Hsub & Hcl & Hopen). cbn [fst snd] in *. subst closed_s.
  unfold Store.astar_body, astar_body. cbn [fst snd].
  pose proof (heappop_rel (Store.represents φ) (Store.lt σ) Node.lt
                (λ a b a' b', represents_lt φ σ a b a' b' Hsub) _ _ Hopen) as Hpop.
  destruct (heappop (Store.lt σ) open_s) as [[cur rest_s]|],
           (heappop Node.lt open_set) as [[ncur rest]|]; try done.
  2:{ split; [by etrans|done]. }
  destruct Hpop as [Hcur Hrest].
  destruct (represents_read φ σ cur ncur Hsub Hcur) as (Hxy & Hg & _).
  rewrite Hxy. case_bool_decide.
  { split; [by etrans|]. by exists φ, ncur. }
  pose proof (get_neighbors_sim grid φ σ cur ncur Hsub Hcur) as Hnb.
  destruct (Store.get_neighbors alloc grid cur σ) as [[nbs σ1]|],
           (get_neighbors grid ncur) as [ns|]; try done.
  destruct Hnb as (Hext & Hnd & Hfresh).
  destruct (relax_fold_sim end_ cur ncur (closed ∪ {[Node.xy ncur]}) nbs ns φ σ1
              rest_s rest) as (φ' & Hφ' & Hsub' & Hfinal); [by etrans|done..|].
  destruct (foldl _ (rest_s, σ1) nbs) as [open_s' σ2].
  exists φ'. cbn [fst snd] in *. split_and!; [by etrans|done..].
Qed.
End store_engine.

(** Two loops whose bodies go together go together. *)
Lemma while_sim {S1 R1 S2 R2 : Type} (body1 : S1 → flow S1 R1)
    (body2 : S2 → flow S2 R2) (I : S1 → S2 → Prop) (Q : R1 → R2 → Prop) :
  (∀ s1 s2, I s1 s2 →
     match body1 s1, body2 s2 with
     | Next a, Next b => I a b
     | Done r1, Done r2 => Q r1 r2
     | Throw, Throw => True
     | _, _ => False
     end) →
  ∀ fuel s1 s2, I s1 s2 →
    match while body1 fuel s1, while body2 fuel s2 with
    | None, None => True
    | Some (Ret r1), Some (Ret r2) => Q r1 r2
    | Some IndexError, Some IndexError => True
    | _, _ => False
    end.
Proof.
  intros Hbody. induction fuel as [|fuel IH]; intros s1 s2 HI; [done|].
  cbn [while]. specialize (Hbody s1 s2 HI).
  destruct (body1 s1), (body2 s2); try done. by apply IH.
Qed.

(** A call of the engine on objects returns what the engine on values
    returns, and leaves every object that was there before as it was. *)
Lemma store_run (alloc : Store.store → Store.loc) (fuel : nat) (grid : Grid)
    (start end_ : coord) (σ : Store.store) :
  Store.allocator alloc →
  match Store.astar_correct alloc fuel grid start end_ σ with
  | Some o =>
      astar_correct fuel grid start end_ = Some (Store.returned o) ∧
      ∀ r σ', o = Ret (r, σ') → σ ⊆ σ'
  | None =>
      astar_correct fuel grid start end_ = None ∨
      ∃ path c, astar_correct fuel grid start end_ = Some (Ret (Some path, c)) ∧
                (fuel < length path)%nat
  end.
Proof.
  intros Halloc. unfold Store.astar_correct, astar_correct, astar, start_node.
  destruct (cell grid start) as [c|]; cbn [obind]; [|by split].
  unfold Store.new_node. pose proof (Halloc σ) as Hnew. set (l := alloc σ) in *.
  set (o := Store.mk start.1 start.2 c (Fin 0) 0 (Fin 0) None).
  set (s := Node.mk start.1 start.2 c (Fin 0) 0 (Fin 0) None).
  assert (<[l := o]> (<[l := Store.mk start.1 start.2 c Inf 0 Inf None]> σ)
          = <[l := o]> σ) as -> by apply insert_insert_eq.
  assert (store_sim σ ([l], ∅, <[l := o]> σ) ([s], ∅)) as Hinit.
  { exists (<[l := o]> σ). cbn [fst snd].
    split_and!; [by apply insert_subseteq|done|done|].
    constructor; [|done]. apply represents_eq. exists o.
    split; [by apply lookup_insert_eq|done]. }
  pose proof (while_sim (Store.astar_body alloc grid end_)
                (astar_body relax_correct grid end_) (store_sim σ) (store_done σ)
                (astar_body_sim alloc Halloc grid end_ σ) fuel
                ([l], ∅, <[l := o]> σ) ([s], ∅) Hinit) as Hsim.
  destruct (while (Store.astar_body alloc grid end_) fuel ([l], ∅, <[l := o]> σ))
    as [[[[cur|] σ']|]|],
    (while (astar_body relax_correct grid end_) fuel ([s], ∅)) as [[r|]|];
    try done.
  - destruct Hsim as (Hframe & φ & n & Hsub & Hrep & ->). cbn [fst snd] in *.
    unfold Store.get_path. rewrite (get_path_loop_sim φ σ' n Hsub cur fuel [] Hrep).
    destruct (represents_read φ σ' cur n Hsub Hrep) as (_ & Hg & _).
    case_decide as Hlen; cbn [fmap option_fmap option_map app].
    + split; [by rewrite Hg|]. by intros r0 σ0 [= <- <-].
    + right. exists (get_path n), (Node.g n). split; [done|].
      unfold get_path. rewrite length_reverse. lia.
  - destruct Hsim as (Hframe & ->). cbn [fst snd] in *.
    split; [done|]. by intros r0 σ0 [= <- <-].
  - by left.
Qed.

Lemma store_returns (alloc : Store.store → Store.loc) (fuel0 : nat) (grid : Grid)
    (start end_ : coord) (σ : Store.store) (r : result) :
  Store.allocator alloc →
  astar_correct fuel0 grid start end_ = Some (Ret r) →
  returns (λ fuel, Store.returned <$> Store.astar_correct alloc fuel grid start end_ σ) r.
Proof.
  intros Halloc Hr.
  set (fuel := (fuel0 `max` match r.1 with Some path => length path | None => 0 end)%nat).
  assert (astar_correct fuel grid start end_ = Some (Ret r)) as Hr'.
  { eapply astar_mono; [exact Hr|]. unfold fuel. lia. }
  exists fuel. pose proof (store_run alloc fuel grid start end_ σ Halloc) as Hrun.
  destruct (Store.astar_correct alloc fuel grid start end_ σ) as [o|].
  - destruct Hrun as [Hrun _]. cbn [fmap option_fmap option_map]. congruence.
  - destruct Hrun as [Hrun|(path & c & Hrun & Hlen)]; [congruence|].
    rewrite Hr' in Hrun. injection Hrun as ->. cbn [fst] in fuel. unfold fuel in Hlen. lia.
Qed.

(** Handing out an address that is neither in use nor in a reserved
    set is allocating. *)
Lemma fresh_allocator (reserved : gset positive) :
  Store.allocator (λ σ : Store.store, fresh (dom σ ∪ reserved)).
Proof.
  intros σ. apply (not_elem_of_dom (D:=gset positive)).
  pose proof (is_fresh (C:=gset positive) (dom σ ∪ reserved)) as Hfresh.
  intros Hin. apply Hfresh. apply elem_of_union. by left.
Qed.

(** C6. [astar_correct] is deterministic. Run with its nodes as
    objects, from any two stores and with any two allocators, two
    invocations on the same grid, start and end that finish, finish
    alike: with the same path and the same cost, or the same exception.
    Nothing the result is made of depends on which addresses the nodes
    were given or on what earlier calls left behind; in particular the
    order among nodes is their [f] alone ([Node.__lt__]). And on a
    matrix with an in-bounds start both invocations do finish. *)
Theorem C6_deterministic (grid : Grid) (start end_ : coord)
    (alloc1 alloc2 : Store.store → Store.loc) (σ1 σ2 : Store.store) :
  Store.allocator alloc1 → Store.allocator alloc2 →
  (∀ fuel1 fuel2 o1 o2,
     Store.astar_correct alloc1 fuel1 grid start end_ σ1 = Some o1 →
     Store.astar_correct alloc2 fuel2 grid start end_ σ2 = Some o2 →
     Store.returned o1 = Store.returned o2) ∧
  (rect grid → in_bounds grid start →
   ∃ r,
     returns (λ fuel, Store.returned <$>
                        Store.astar_correct alloc1 fuel grid start end_ σ1) r ∧
     returns (λ fuel, Store.returned <$>
                        Store.astar_correct alloc2 fuel grid start end_ σ2) r).
Proof.
  intros Halloc1 Halloc2. split.
  - intros fuel1 fuel2 o1 o2 H1 H2.
    pose proof (store_run alloc1 fuel1 grid start end_ σ1 Halloc1) as Hrun1.
    pose proof (store_run alloc2 fuel2 grid start end_ σ2 Halloc2) as Hrun2.
    rewrite H1 in Hrun1. rewrite H2 in Hrun2.
    destruct Hrun1 as [Hrun1 _], Hrun2 as [Hrun2 _].
    apply (astar_mono _ _ _ _ _ (fuel1 `max` fuel2)%nat) in Hrun1; [|lia].
    apply (astar_mono _ _ _ _ _ (fuel1 `max` fuel2)%nat) in Hrun2; [|lia].
    unfold astar_correct in *. congruence.
  - intros Hrect Hstart.
    destruct (astar_correct_returns grid start end_ Hrect Hstart) as (r & fuel0 & Hr).
    exists r. split; by eapply store_returns.
Qed.

Lemma C6_witness :
  let grid : Grid := [[1; 4]; [2; 1]] in
  let alloc1 : Store.store → Store.loc := λ σ, fresh (dom σ ∪ ∅) in
  let alloc2 : Store.store → Store.loc :=
    λ σ, fresh (dom σ ∪ {[1%positive; 2%positive]}) in
  let σ1 : Store.store := ∅ in
  let σ2 : Store.store := {[3%positive := Store.mk 7 7 7 (Fin 1) 2 (Fin 3) None]} in
  (∀ fuel1 fuel2 o1 o2,
     Store.astar_correct alloc1 fuel1 grid (0, 0) (1, 1) σ1 = Some o1 →
     Store.astar_correct alloc2 fuel2 grid (0, 0) (1, 1) σ2 = Some o2 →
     Store.returned o1 = Store.returned o2) ∧
  (rect grid → in_bounds grid (0, 0) →
   ∃ r,
     returns (λ fuel, Store.returned <$>
                        Store.astar_correct alloc1 fuel grid (0, 0) (1, 1) σ1) r ∧
     returns (λ fuel, Store.returned <$>
                        Store.astar_correct alloc2 fuel grid (0, 0) (1, 1) σ2) r).
Proof.
  intros grid alloc1 alloc2 σ1 σ2.
  apply (C6_deterministic grid (0, 0) (1, 1) alloc1 alloc2 σ1 σ2).
  - apply fresh_allocator.
  - apply fresh_allocator.
Defined.

(** X20. The mutation in the engine stays within the call. Run with
    its nodes as objects (allocated by [get_neighbors], assigned to
    afterwards, linked by [parent] references), [astar_correct] returns
    exactly what the engine on node values returns for the same fuel,
    whatever the allocator and the store it starts from; and every
    object that was in the store before the call is in it afterwards,
    unchanged: the engine writes only to nodes it has allocated itself. *)
Theorem X20_store_refines (alloc : Store.store → Store.loc) (fuel : nat)
    (grid : Grid) (start end_ : coord) (σ : Store.store)
    (o : outcome (Store.result * Store.store)) :
  Store.allocator alloc →
  Store.astar_correct alloc fuel grid start end_ σ = Some o →
  astar_correct fuel grid start end_ = Some (Store.returned o) ∧
  ∀ r σ', o = Ret (r, σ') →
    ∀ l obj, σ !! l = Some obj → σ' !! l = Some obj.
Proof.
  intros Halloc Ho.
  pose proof (store_run alloc fuel grid start end_ σ Halloc) as Hrun.
  rewrite Ho in Hrun. destruct Hrun as [Hrun Hframe]. split; [done|].
  intros r σ' -> l obj Hl. by eapply lookup_weaken; [|eapply Hframe].
Qed.

Lemma X20_witness :
  let grid : Grid := [[1; 4]; [2; 1]] in
  let alloc : Store.store → Store.loc := λ σ, fresh (dom σ ∪ ∅) in
  let σ : Store.store := {[3%positive := Store.mk 7 7 7 (Fin 1) 2 (Fin 3) None]} in
  ∃ o, Store.astar_correct alloc 20 grid (0, 0) (1, 1) σ = Some o ∧
       Store.returned o = Ret (Some [(0, 0); (1, 0); (1, 1)], Fin 3) ∧
       astar_correct 20 grid (0, 0) (1, 1) = Some (Store.returned o) ∧
       ∀ r σ', o = Ret (r, σ') →
         ∀ l obj, σ !! l = Some obj → σ' !! l = Some obj.
Proof.
  intros grid alloc σ. eexists. split; [vm_compute; reflexivity|].
  split; [reflexivity|].
  apply (X20_store_refines alloc 20 grid (0, 0) (1, 1) σ);
    [apply fresh_allocator|vm_compute; reflexivity].
Defined.


(** * Costs that are floats *)

Section float_costs.
Import PrimFloat.

(** C1 as stated fails: it asks for costs of at least 1, not for
    ints. On the 3x6 grid below every cell is a float of at least 1, so
    every cell can be entered, and the end (0,5) is reached from (0,0)
    along the top row. Entering the cell 1e16 first and walking the
    bottom row costs 1e16, each further 1 being rounded away, and that
    is what [find_optimal_cost] returns. For [astar_correct] the node on
    that cell has [f = 1e16 + 6], the heuristic not being rounded away,
    while along the top row, where 2 is added to 1e16 and kept, no [f]
    exceeds [1e16 + 4]: the engine pops the end there and returns
    [1e16 + 4]. *)
Lemma C1_counterexample :
  let grid : F.Grid :=
    [[1; 1; 1; 1e16; 1; 1];
     [1e16; 1e17; 1e17; 1e17; 1e17; 1];
     [1; 1; 1; 1; 1; 1]]%float in
  let path : list coord := [(0, 0); (0, 1); (0, 2); (0, 3); (0, 4); (0, 5)] in
  Forall (λ row, length row = 6%nat ∧
                 Forall (λ v, PrimFloat.leb 1 v = true) row) grid ∧
  (∀ i a b, path !! i = Some a → path !! S i = Some b → adjacent a b) ∧
  (∀ a, a ∈ path → 0 ≤ a.1 < F.rows grid ∧ 0 ≤ a.2 < 6) ∧
  F.astar_correct 7 grid (0, 0) (0, 5)
    = Some (Ret (Some path, 10000000000000004%float)) ∧
  F.find_optimal_cost 30 grid (0, 0) (0, 5) = Some (Ret 1e16%float) ∧
  PrimFloat.eqb 10000000000000004 1e16 = false.
Proof.
  intros grid path. split_and!.
  - repeat constructor.
  - intros i a b Ha Hb.
    do 6 (destruct i as [|i]; [simplify_eq/=; unfold adjacent; simpl; lia|]).
    done.
  - intros a Ha.
    repeat (apply elem_of_cons in Ha as [-> | Ha]; [unfold F.rows; simpl; lia|]).
    by apply elem_of_nil in Ha.
  - vm_compute. reflexivity.
  - vm_compute. reflexivity.
  - vm_compute. reflexivity.
Qed.
End float_costs.
